(** * Disaster-response routing: graph, shortest paths, allocation, 2-opt, cost model

    A shallow embedding of graph.h, algorithms.h, Allocation.h and Utils.h,
    and of the two steps of [main] in main.cpp that make the routes.

    Conventions of the embedding.
    - [int] values are integers of [Z] and the result of an addition or a
      subtraction of two of them is brought back into the 32-bit range by
      [wrap], as the two's complement machine does it.
    - [double] values are exact rationals of [Q]; [numeric_limits<double>::max()]
      is the rational constant [DBL_MAX].  This part of the model does not
      round; the statements that compare a sum of costs with a number the
      code did not compute itself are made for graphs whose sums are exact in
      binary64 ([exact_costs]).  The module [B64] at the end of the file has
      the code of algorithms.h and Utils.h on binary64 numbers; what
      [calculateRouteCost] and [twoOpt] return is proved on them ([B64],
      [TwoOpt64]), and the module [Rounding] shows what rounding changes.
    - [unordered_map<int,Node>] is a list of bindings with pairwise different
      keys, kept in enumeration order (the order [getAllNodeIds] walks it in);
      maps that the code only indexes ([adjacencyList], [distMap], [visited],
      [gScore], [fScore], [cameFrom]) are [gmap]s.
    - loops whose trip count is not a list length take a fuel argument and
      return [None] when it runs out; the fuel that [dijkstra], [twoOpt] and
      the main loop of [astar] are given is shown to be enough on every
      input, and the path reconstruction of [astar] is the one loop that can
      run for ever. *)

From Stdlib Require Import ZArith QArith Lqa List Permutation Lia Sorted.
From Stdlib Require Floats Uint63.
From stdpp Require Import gmap list.

Open Scope Z_scope.

(** ** Numbers of the [int] model *)

(** The value a 32-bit two's complement register holds after an operation
    whose mathematical result is [z]. *)
Definition wrap (z : Z) : Z := (z + 2 ^ 31) mod 2 ^ 32 - 2 ^ 31.

Arguments wrap : simpl never.

(** ** graph.h *)

Record Node := mkNode { node_id : Z; demand : Z; priority : Z }.

Record Edge := mkEdge { edge_u : Z; edge_v : Z; cost : Q; reliability : Q }.

Record Graph := mkGraph {
  nodes : list (Z * Node);
  adjacencyList : gmap Z (list (Z * Edge));
  edges : list Edge
}.

Definition empty_graph : Graph := mkGraph [] ∅ [].

(** [nodes.find(nodeId)] *)
Fixpoint nodes_find (nodeId : Z) (l : list (Z * Node)) : option Node :=
  match l with
  | [] => None
  | (k, n) :: l' => if Z.eqb k nodeId then Some n else nodes_find nodeId l'
  end.

(** [nodes[k] = n] on a key that is present: the binding keeps its place. *)
Fixpoint nodes_overwrite (k : Z) (n : Node) (l : list (Z * Node)) : list (Z * Node) :=
  match l with
  | [] => []
  | (k', n') :: l' =>
      if Z.eqb k' k then (k', n) :: l' else (k', n') :: nodes_overwrite k n l'
  end.

(** [nodes[k] = n].  Where a new key lands in the enumeration order is left
    open by the C++ standard; the model puts it first, which is what the
    libstdc++ table does for a key that falls into an empty bucket. *)
Definition nodes_assign (k : Z) (n : Node) (l : list (Z * Node)) : list (Z * Node) :=
  match nodes_find k l with
  | Some _ => nodes_overwrite k n l
  | None => (k, n) :: l
  end.

Definition getNeighbors (g : Graph) (nodeId : Z) : list (Z * Edge) :=
  match adjacencyList g !! nodeId with
  | Some l => l
  | None => []
  end.

Definition addNode (n : Node) (g : Graph) : Graph :=
  mkGraph (nodes_assign (node_id n) n (nodes g))
          (match adjacencyList g !! node_id n with
           | None => <[node_id n := []]> (adjacencyList g)
           | Some _ => adjacencyList g
           end)
          (edges g).

(** [adjacencyList[k].push_back(x)]: [operator[]] creates the empty vector
    when the key is new. *)
Definition adj_push (k : Z) (x : Z * Edge) (adj : gmap Z (list (Z * Edge)))
  : gmap Z (list (Z * Edge)) :=
  <[k := match adj !! k with Some l => l ++ [x] | None => [x] end]> adj.

Definition addEdge (e : Edge) (g : Graph) : Graph :=
  mkGraph (nodes g)
          (adj_push (edge_v e) (edge_u e, e)
             (adj_push (edge_u e) (edge_v e, e) (adjacencyList g)))
          (edges g ++ [e]).

Definition getNode (g : Graph) (nodeId : Z) : option Node :=
  nodes_find nodeId (nodes g).

Definition getAllNodeIds (g : Graph) : list Z := map fst (nodes g).

Definition getEdges (g : Graph) : list Edge := edges g.

(** [nodes.size()] and [edges.size()] as [int] *)
Definition numNodes (g : Graph) : Z := Z.of_nat (length (nodes g)).

Definition numEdges (g : Graph) : Z := Z.of_nat (length (edges g)).

(** The scan of [getEdgeCost]: first neighbour entry whose id is [v]. *)
Fixpoint scan_cost (v : Z) (l : list (Z * Edge)) : Q :=
  match l with
  | [] => (-1)%Q
  | (w, e) :: l' => if Z.eqb w v then cost e else scan_cost v l'
  end.

Definition getEdgeCost (g : Graph) (u v : Z) : Q :=
  scan_cost v (getNeighbors g u).

Fixpoint scan_reliability (v : Z) (l : list (Z * Edge)) : Q :=
  match l with
  | [] => 0%Q
  | (w, e) :: l' => if Z.eqb w v then reliability e else scan_reliability v l'
  end.

Definition getEdgeReliability (g : Graph) (u v : Z) : Q :=
  scan_reliability v (getNeighbors g u).

(** A graph as the loader makes it: calls of [addNode] and [addEdge] on an
    empty graph. *)
Inductive GraphOp := OpAddNode (n : Node) | OpAddEdge (e : Edge).

Definition apply_op (g : Graph) (op : GraphOp) : Graph :=
  match op with
  | OpAddNode n => addNode n g
  | OpAddEdge e => addEdge e g
  end.

Definition build (ops : list GraphOp) : Graph := fold_left apply_op ops empty_graph.

(** ** Numbers of the [double] model *)

Definition DBL_MAX : Q := inject_Z (2 ^ 1024 - 2 ^ 971).

(** [a < b] on doubles *)
Definition Qltb (a b : Q) : bool :=
  match (a ?= b)%Q with Lt => true | _ => false end.

(** ** Maps indexed with [operator[]] *)

(** A read [m[k]] of an [unordered_map<int,double>]: the value bound to [k],
    or 0.0 after binding [k] to it. *)
Definition at_key (m : gmap Z Q) (k : Z) : Q :=
  match m !! k with Some x => x | None => 0%Q end.

(** What a read [m[k]] leaves behind in the map. *)
Definition touch (k : Z) (m : gmap Z Q) : gmap Z Q :=
  match m !! k with Some _ => m | None => <[k := 0%Q]> m end.

(** [visited[k]] of an [unordered_map<int,bool>].  The read binds a missing
    key to [false], which no later read can tell from a missing key, and
    [visited] is never enumerated or returned, so the binding is left out. *)
Definition visited_at (visited : gmap Z bool) (k : Z) : bool :=
  match visited !! k with Some b => b | None => false end.

(** ** The priority queue

    [priority_queue<pair<double,int>, vector<...>, greater<...>>]: the model
    keeps the entries in a list and [pq_pop] takes out a least pair, which is
    what [top]/[pop] of the heap give. *)

(** [operator<] of [pair<double,int>] *)
Definition pair_ltb (a b : Q * Z) : bool :=
  Qltb (fst a) (fst b) || (negb (Qltb (fst b) (fst a)) && Z.ltb (snd a) (snd b)).

Fixpoint pq_pop (pq : list (Q * Z)) : option ((Q * Z) * list (Q * Z)) :=
  match pq with
  | [] => None
  | x :: pq' =>
      match pq_pop pq' with
      | None => Some (x, [])
      | Some (m, rest) =>
          if pair_ltb x m then Some (x, pq') else Some (m, x :: rest)
      end
  end.

Definition pq_push (x : Q * Z) (pq : list (Q * Z)) : list (Q * Z) := x :: pq.

(** ** algorithms.h: dijkstra *)

(** The initialisation loop over [getAllNodeIds]. *)
Definition dijkstra_init (ids : list Z) : gmap Z Q * gmap Z bool :=
  fold_left (fun st nodeId => (<[nodeId := DBL_MAX]> (fst st), <[nodeId := false]> (snd st)))
            ids (∅, ∅).

(** The loop over the neighbours of [u]. *)
Fixpoint dijkstra_relax (u : Z) (nbrs : list (Z * Edge)) (visited : gmap Z bool)
    (distMap : gmap Z Q) (pq : list (Q * Z)) : gmap Z Q * list (Q * Z) :=
  match nbrs with
  | [] => (distMap, pq)
  | (v, e) :: rest =>
      let edgeCost := cost e in
      if visited_at visited v then dijkstra_relax u rest visited distMap pq
      else
        let distMap1 := touch v (touch u distMap) in
        if Qltb (at_key distMap1 u + edgeCost) (at_key distMap1 v) then
          let distMap2 := <[v := (at_key distMap1 u + edgeCost)%Q]> distMap1 in
          dijkstra_relax u rest visited distMap2 (pq_push (at_key distMap2 v, v) pq)
        else dijkstra_relax u rest visited distMap1 pq
  end.

(** The [while (!pq.empty())] loop. *)
Fixpoint dijkstra_loop (fuel : nat) (g : Graph) (distMap : gmap Z Q)
    (visited : gmap Z bool) (pq : list (Q * Z)) : option (gmap Z Q) :=
  match fuel with
  | O => None
  | S fuel' =>
      match pq_pop pq with
      | None => Some distMap
      | Some ((_, u), pq') =>
          if visited_at visited u then dijkstra_loop fuel' g distMap visited pq'
          else
            let visited' := <[u := true]> visited in
            let '(distMap', pq'') :=
              dijkstra_relax u (getNeighbors g u) visited' distMap pq' in
            dijkstra_loop fuel' g distMap' visited' pq''
      end
  end.

(** Number of neighbour entries of the whole adjacency structure. *)
Definition adj_total (g : Graph) : nat :=
  sum_list (map (fun kv => length (snd kv)) (map_to_list (adjacencyList g))).

(** Every entry of the queue but the first is pushed while a node is visited
    for the first time, once per neighbour entry at most. *)
Definition search_fuel (g : Graph) : nat := S (S (adj_total g)).

Definition dijkstra_run (g : Graph) (source : Z) : option (gmap Z Q) :=
  let '(distMap, visited) := dijkstra_init (getAllNodeIds g) in
  let distMap := <[source := 0%Q]> distMap in
  dijkstra_loop (search_fuel g) g distMap visited (pq_push (0%Q, source) []).

Definition dijkstra (g : Graph) (source : Z) : gmap Z Q :=
  match dijkstra_run g source with Some distMap => distMap | None => ∅ end.

(** ** algorithms.h: astar *)

(** [abs(a - b)] converted to [double] *)
Definition heuristic (a b : Z) : Q := inject_Z (wrap (Z.abs (wrap (a - b)))).

Record AStarState := mkAStar {
  gScore : gmap Z Q;
  fScore : gmap Z Q;
  cameFrom : gmap Z Z;
  open_pq : list (Q * Z)
}.

Fixpoint astar_relax (current target : Z) (nbrs : list (Z * Edge)) (st : AStarState)
  : AStarState :=
  match nbrs with
  | [] => st
  | (v, e) :: rest =>
      let edgeCost := cost e in
      let gScore0 := touch current (gScore st) in
      let tentativeGScore := (at_key gScore0 current + edgeCost)%Q in
      let gScore1 := touch v gScore0 in
      if Qltb tentativeGScore (at_key gScore1 v) then
        let cameFrom' := <[v := current]> (cameFrom st) in
        let gScore2 := <[v := tentativeGScore]> gScore1 in
        let fScore' := <[v := (at_key gScore2 v + heuristic v target)%Q]> (fScore st) in
        astar_relax current target rest
          (mkAStar gScore2 fScore' cameFrom' (pq_push (at_key fScore' v, v) (open_pq st)))
      else
        astar_relax current target rest
          (mkAStar gScore1 (fScore st) (cameFrom st) (open_pq st))
  end.

(** The path reconstruction loop [while (node != -1)]; [None] when the fuel
    runs out, which is the loop running for ever on a cycle of [cameFrom]. *)
Fixpoint reconstruct (fuel : nat) (cameFrom : gmap Z Z) (node : Z) (path : list Z)
  : option (list Z) :=
  if Z.eqb node (-1) then Some path
  else
    match fuel with
    | O => None
    | S fuel' =>
        reconstruct fuel' cameFrom
          (match cameFrom !! node with Some p => p | None => -1 end)
          (path ++ [node])
    end.

Fixpoint astar_loop (fuel : nat) (g : Graph) (target : Z) (visited : gmap Z bool)
    (st : AStarState) : option (list Z) :=
  match fuel with
  | O => None
  | S fuel' =>
      match pq_pop (open_pq st) with
      | None => Some []
      | Some ((_, current), pq') =>
          if visited_at visited current then
            astar_loop fuel' g target visited
              (mkAStar (gScore st) (fScore st) (cameFrom st) pq')
          else
            let visited' := <[current := true]> visited in
            if Z.eqb current target then
              match reconstruct (S (size (cameFrom st))) (cameFrom st) target [] with
              | Some path => Some (rev path)
              | None => None
              end
            else
              astar_loop fuel' g target visited'
                (astar_relax current target (getNeighbors g current)
                   (mkAStar (gScore st) (fScore st) (cameFrom st) pq'))
      end
  end.

Definition astar_init (ids : list Z) : gmap Z Q * gmap Z Q * gmap Z bool :=
  fold_left (fun st nodeId =>
               (<[nodeId := DBL_MAX]> (fst (fst st)),
                <[nodeId := DBL_MAX]> (snd (fst st)),
                <[nodeId := false]> (snd st)))
            ids (∅, ∅, ∅).

(** [None] stands for a run that does not return. *)
Definition astar (g : Graph) (source target : Z) : option (list Z) :=
  let '(gScore, fScore, visited) := astar_init (getAllNodeIds g) in
  let gScore := <[source := 0%Q]> gScore in
  let fScore := <[source := heuristic source target]> fScore in
  astar_loop (search_fuel g) g target visited
    (mkAStar gScore fScore ∅ (pq_push (at_key fScore source, source) [])).

(** ** algorithms.h: twoOpt *)

(** The cost loops of [twoOpt]: the sum of the edge costs along the route,
    [None] when a lookup gives a negative value ([valid = false]). *)
Fixpoint route_cost_from (g : Graph) (acc : Q) (r : list Z) : option Q :=
  match r with
  | a :: r' =>
      match r' with
      | b :: _ =>
          let c := getEdgeCost g a b in
          if Qltb c 0 then None else route_cost_from g (acc + c)%Q r'
      | [] => Some acc
      end
  | [] => Some acc
  end.

Definition route_cost (g : Graph) (r : list Z) : option Q := route_cost_from g 0%Q r.

(** [reverse(r.begin() + i, r.begin() + j + 1)] *)
Definition reverse_segment (i j : nat) (r : list Z) : list Z :=
  take i r ++ rev (take (S j - i) (drop i r)) ++ drop (S j) r.

(** The loop over [j] for one [i]: the first improving reversal, if any. *)
Fixpoint twoOpt_scan_j (g : Graph) (bestRoute : list Z) (i : nat) (js : list nat)
  : option (list Z) :=
  match js with
  | [] => None
  | j :: js' =>
      match route_cost g bestRoute with
      | None => twoOpt_scan_j g bestRoute i js'
      | Some currentCost =>
          let newRoute := reverse_segment i j bestRoute in
          match route_cost g newRoute with
          | Some newCost =>
              if Qltb newCost currentCost then Some newRoute
              else twoOpt_scan_j g bestRoute i js'
          | None => twoOpt_scan_j g bestRoute i js'
          end
      end
  end.

Fixpoint twoOpt_scan_i (g : Graph) (bestRoute : list Z) (cuts : list nat)
  : option (list Z) :=
  match cuts with
  | [] => None
  | i :: cuts' =>
      match twoOpt_scan_j g bestRoute i (seq (S i) (length bestRoute - 2 - i)) with
      | Some newRoute => Some newRoute
      | None => twoOpt_scan_i g bestRoute cuts'
      end
  end.

(** One pass of the two [for] loops: [i] from 1 while [i < size - 2], [j] from
    [i + 1] while [j < size - 1]. *)
Definition twoOpt_scan (g : Graph) (bestRoute : list Z) : option (list Z) :=
  twoOpt_scan_i g bestRoute (seq 1 (length bestRoute - 3)).

(** The [while (improved)] loop. *)
Fixpoint twoOpt_loop (fuel : nat) (g : Graph) (bestRoute : list Z) : option (list Z) :=
  match fuel with
  | O => None
  | S fuel' =>
      match twoOpt_scan g bestRoute with
      | Some newRoute => twoOpt_loop fuel' g newRoute
      | None => Some bestRoute
      end
  end.

Definition twoOpt_run (fuel : nat) (g : Graph) (route : list Z) : option (list Z) :=
  if (length route <=? 3)%nat then Some route else twoOpt_loop fuel g route.

(** The routes the loop can hold are rearrangements of the input, and no route
    is held twice, so as many rounds as there are rearrangements suffice. *)
Definition twoOpt_fuel (route : list Z) : nat := length (permutations route).

Definition twoOpt (g : Graph) (route : list Z) : list Z :=
  match twoOpt_run (twoOpt_fuel route) g route with
  | Some r => r
  | None => route
  end.

(** ** Allocation.h *)

Record Vehicle := mkVehicle {
  vehicle_id : Z;
  capacity : Z;
  currentLoad : Z;
  route : list Z
}.

(** [Vehicle(id, capacity)] *)
Definition new_vehicle (id cap : Z) : Vehicle := mkVehicle id cap 0 [0].

Definition canServe (v : Vehicle) (dem : Z) : bool :=
  Z.leb (wrap (currentLoad v + dem)) (capacity v).

(** [Vehicle::addNode] *)
Definition vehicle_addNode (nodeId dem : Z) (v : Vehicle) : Vehicle :=
  mkVehicle (vehicle_id v) (capacity v) (wrap (currentLoad v + dem))
            (route v ++ [nodeId]).

Definition finalizeRoute (v : Vehicle) : Vehicle :=
  mkVehicle (vehicle_id v) (capacity v) (currentLoad v) (route v ++ [0]).

(** [route.back()]; the route of a vehicle made by [Vehicle(id, capacity)] is
    never empty. *)
Definition route_back (r : list Z) : Z := List.last r 0.

(** The first loop of [allocateVehicles]. *)
Definition collect_nodes (g : Graph) : list Z :=
  List.filter
    (fun nodeId =>
       negb (Z.eqb nodeId 0) &&
       match getNode g nodeId with
       | Some node => Z.ltb 0 (demand node)
       | None => false
       end)
    (getAllNodeIds g).

(** The comparator handed to [sort]. *)
Definition priority_before (g : Graph) (a b : Z) : bool :=
  match getNode g a, getNode g b with
  | Some nodeA, Some nodeB => Z.ltb (priority nodeB) (priority nodeA)
  | _, _ => false
  end.

(** [std::sort] leaves the relative order of elements the comparator does not
    separate unspecified.  The model is an insertion sort that keeps such
    elements in the order it found them, as libstdc++ does on ranges of at
    most 16 elements. *)
Fixpoint sort_insert (before : Z -> Z -> bool) (x : Z) (l : list Z) : list Z :=
  match l with
  | [] => [x]
  | y :: l' => if before y x then y :: sort_insert before x l' else x :: y :: l'
  end.

Fixpoint std_sort (before : Z -> Z -> bool) (l : list Z) : list Z :=
  match l with
  | [] => []
  | x :: l' => sort_insert before x (std_sort before l')
  end.

Definition nodesToAssign (g : Graph) : list Z :=
  std_sort (priority_before g) (collect_nodes g).

(** [extraCost] of one vehicle for [nodeId]. *)
Definition extraCost (g : Graph) (vehicle : Vehicle) (nodeId : Z) : Q :=
  let lastNode := route_back (route vehicle) in
  let distances := dijkstra g lastNode in
  match distances !! nodeId with
  | Some d => d
  | None => DBL_MAX
  end.

(** The loop over the vehicles for one node, from index [i] on. *)
Fixpoint best_vehicle_from (g : Graph) (nodeId dem : Z) (vs : list Vehicle) (i : Z)
    (bestVehicle : Z) (minExtraCost : Q) : Z :=
  match vs with
  | [] => bestVehicle
  | vehicle :: rest =>
      if negb (canServe vehicle dem) then
        best_vehicle_from g nodeId dem rest (i + 1) bestVehicle minExtraCost
      else
        let c := extraCost g vehicle nodeId in
        if Qltb c minExtraCost && Qltb c DBL_MAX then
          best_vehicle_from g nodeId dem rest (i + 1) i c
        else
          best_vehicle_from g nodeId dem rest (i + 1) bestVehicle minExtraCost
  end.

Definition best_vehicle (g : Graph) (nodeId dem : Z) (vs : list Vehicle) : Z :=
  best_vehicle_from g nodeId dem vs 0 (-1) DBL_MAX.

(** The body of the assignment loop for one node. *)
Definition assign_node (g : Graph) (assignedVehicles : list Vehicle) (nodeId : Z)
  : list Vehicle :=
  match getNode g nodeId with
  | None => assignedVehicles
  | Some node =>
      let bestVehicle := best_vehicle g nodeId (demand node) assignedVehicles in
      if Z.leb 0 bestVehicle then
        alter (vehicle_addNode nodeId (demand node)) (Z.to_nat bestVehicle) assignedVehicles
      else assignedVehicles
  end.

Definition assign_all (g : Graph) (order : list Z) (vehicles : list Vehicle)
  : list Vehicle :=
  fold_left (assign_node g) order vehicles.

Definition allocateVehicles (g : Graph) (vehicles : list Vehicle) : list Vehicle :=
  map finalizeRoute (assign_all g (nodesToAssign g) vehicles).

(** ** Utils.h *)

Definition ALPHA : Q := 0.6.
Definition BETA : Q := 0.3.
Definition GAMMA : Q := 0.1.

Record RouteCost := mkRouteCost {
  totalTime : Q;
  reliabilityPenalty : Q;
  idleTime : Q;
  finalScore : Q
}.

(** The loop of [calculateRouteCost] over consecutive pairs, on the pair
    ([cost.totalTime], [totalReliability]). *)
Fixpoint cost_loop (g : Graph) (r : list Z) (acc : Q * Q) : Q * Q :=
  match r with
  | u :: r' =>
      match r' with
      | v :: _ =>
          let edgeCost := getEdgeCost g u v in
          let edgeReliability := getEdgeReliability g u v in
          cost_loop g r'
            (if Qle_bool 0 edgeCost
             then ((fst acc + edgeCost)%Q, (snd acc * edgeReliability)%Q)
             else acc)
      | [] => acc
      end
  | [] => acc
  end.

Definition calculateRouteCost (g : Graph) (route : list Z)
    (vehicleCapacity vehicleLoad : Z) : RouteCost :=
  if (length route <? 2)%nat then mkRouteCost 0 0 0 0
  else
    let '(total, totalReliability) := cost_loop g route (0%Q, 1%Q) in
    let penalty := (1 - totalReliability)%Q in
    let unusedCapacity := wrap (vehicleCapacity - vehicleLoad) in
    let idle := inject_Z unusedCapacity in
    mkRouteCost total penalty idle
      (ALPHA * total + BETA * penalty + GAMMA * idle)%Q.

(** [calculateTotalCost]: the final scores of all vehicles, added up in list
    order from 0.0. *)
Definition calculateTotalCost (g : Graph) (vehicles : list Vehicle) : Q :=
  fold_left
    (fun totalCost vehicle =>
       (totalCost
        + finalScore (calculateRouteCost g (route vehicle) (capacity vehicle)
                        (currentLoad vehicle)))%Q)
    vehicles 0%Q.

(** ** main.cpp: the two steps of [main] that make the routes *)

(** Step 2: [vehicle.route = twoOpt(graph, vehicle.route)] for every vehicle. *)
Definition optimizeRoutes (g : Graph) (vehicles : list Vehicle) : list Vehicle :=
  map (fun vehicle =>
         mkVehicle (vehicle_id vehicle) (capacity vehicle) (currentLoad vehicle)
                   (twoOpt g (route vehicle)))
      vehicles.

(** Step 1 followed by step 2. *)
Definition planRoutes (g : Graph) (vehicles : list Vehicle) : list Vehicle :=
  optimizeRoutes g (allocateVehicles g vehicles).

(** * Properties *)

(** ** Symmetry of the edge lookups *)

Section Mirror.

(** The edges a scan from [u] for [v] meets, in order. *)
Definition matches (v : Z) (l : list (Z * Edge)) : list Edge :=
  map snd (filter (fun p => fst p = v) l).

Definition adj_mirror (adj : gmap Z (list (Z * Edge))) : Prop :=
  forall u v,
    matches v (default [] (adj !! u)) = matches u (default [] (adj !! v)).

Lemma scan_cost_matches v l :
  scan_cost v l = match matches v l with [] => (-1)%Q | e :: _ => cost e end.
Proof.
  unfold matches. induction l as [|[w e] l IH]; simpl; [done|].
  rewrite filter_cons. simpl.
  destruct (Z.eqb_spec w v); destruct (decide (w = v)); try done.
Qed.

Lemma scan_reliability_matches v l :
  scan_reliability v l =
  match matches v l with [] => 0%Q | e :: _ => reliability e end.
Proof.
  unfold matches. induction l as [|[w e] l IH]; simpl; [done|].
  rewrite filter_cons. simpl.
  destruct (Z.eqb_spec w v); destruct (decide (w = v)); try done.
Qed.

Lemma getNeighbors_default g u :
  getNeighbors g u = default [] (adjacencyList g !! u).
Proof. unfold getNeighbors. by destruct (adjacencyList g !! u). Qed.

Lemma adj_push_lookup k x adj j :
  default [] (adj_push k x adj !! j) =
  if decide (k = j) then default [] (adj !! j) ++ [x] else default [] (adj !! j).
Proof.
  unfold adj_push. rewrite lookup_insert. destruct (decide (k = j)) as [->|]; [|done].
  by destruct (adj !! j).
Qed.

Lemma matches_app v l1 l2 : matches v (l1 ++ l2) = matches v l1 ++ matches v l2.
Proof. unfold matches. by rewrite filter_app, map_app. Qed.

Lemma matches_one v w e :
  matches v [(w, e)] = if decide (w = v) then [e] else [].
Proof.
  unfold matches. rewrite filter_cons, filter_nil. simpl.
  by destruct (decide (w = v)).
Qed.

Lemma adj_mirror_empty : adj_mirror ∅.
Proof. intros u v. by rewrite !lookup_empty. Qed.

Lemma adj_mirror_addEdge a b e adj :
  adj_mirror adj -> adj_mirror (adj_push b (a, e) (adj_push a (b, e) adj)).
Proof.
  intros H u v. rewrite !adj_push_lookup.
  repeat case_decide; subst;
    rewrite ?matches_app, ?matches_one; repeat case_decide; subst;
    rewrite ?app_nil_r; try congruence; by rewrite (H _ _).
Qed.

Lemma adj_mirror_addNode k adj :
  adj_mirror adj ->
  adj_mirror (match adj !! k with None => <[k := []]> adj | Some _ => adj end).
Proof.
  intros H. destruct (adj !! k) eqn:Hk; [done|].
  intros u v. rewrite !lookup_insert.
  specialize (H u v).
  repeat case_decide; subst; rewrite ?Hk in H; simpl in *; done.
Qed.

Lemma adj_mirror_build_from ops g :
  adj_mirror (adjacencyList g) ->
  adj_mirror (adjacencyList (fold_left apply_op ops g)).
Proof.
  revert g. induction ops as [|[n|e] ops IH]; intros g Hg; simpl; [done| |].
  - apply IH. simpl. by apply adj_mirror_addNode.
  - apply IH. simpl. by apply adj_mirror_addEdge.
Qed.

Lemma adj_mirror_build ops : adj_mirror (adjacencyList (build ops)).
Proof. apply adj_mirror_build_from, adj_mirror_empty. Qed.

End Mirror.

(** C10: on every graph made by [addNode] and [addEdge] calls, the cost and
    the reliability lookups give the same value in both directions, the
    sentinels included and parallel edges included. *)
Theorem edge_lookup_symmetric (ops : list GraphOp) (u v : Z) :
  getEdgeCost (build ops) u v = getEdgeCost (build ops) v u /\
  getEdgeReliability (build ops) u v = getEdgeReliability (build ops) v u.
Proof.
  unfold getEdgeCost, getEdgeReliability.
  rewrite !getNeighbors_default, !scan_cost_matches, !scan_reliability_matches.
  by rewrite (adj_mirror_build ops v u).
Qed.

(** ** Arithmetic of [int] *)

Lemma wrap_id (z : Z) : - 2 ^ 31 <= z < 2 ^ 31 -> wrap z = z.
Proof.
  intros H. unfold wrap. rewrite Z.mod_small; lia.
Qed.

Lemma wrap_range (z : Z) : - 2 ^ 31 <= wrap z < 2 ^ 31.
Proof.
  unfold wrap. pose proof (Z.mod_pos_bound (z + 2 ^ 31) (2 ^ 32)). lia.
Qed.

(** ** Comparisons on [Q] *)

Lemma Qltb_true a b : Qltb a b = true <-> (a < b)%Q.
Proof.
  unfold Qltb. rewrite Qlt_alt. destruct (a ?= b)%Q; split; congruence.
Qed.

Lemma Qltb_false a b : Qltb a b = false <-> (b <= a)%Q.
Proof.
  split; intros H.
  - apply Qnot_lt_le. intros Hlt. apply Qltb_true in Hlt. congruence.
  - destruct (Qltb a b) eqn:E; [|done].
    apply Qltb_true in E. apply Qle_not_lt in H. contradiction.
Qed.

Lemma Qle_bool_false a b : Qle_bool a b = false <-> (b < a)%Q.
Proof.
  split; intros H.
  - apply Qnot_le_lt. intros Hle. apply Qle_bool_iff in Hle. congruence.
  - destruct (Qle_bool a b) eqn:E; [|done].
    apply Qle_bool_iff in E. apply Qlt_not_le in H. contradiction.
Qed.

Lemma DBL_MAX_pos : (0 < DBL_MAX)%Q.
Proof. by vm_compute. Qed.

(** ** The cost model *)

Module CostModel.

(** The consecutive pairs [(route[i], route[i+1])]. *)
Definition consecutive (r : list Z) : list (Z * Z) := zip r (tail r).

(** The pairs that are not skipped: their cost lookup is not negative. *)
Definition traversed (g : Graph) (r : list Z) : list (Z * Z) :=
  List.filter (fun p => negb (Qltb (getEdgeCost g (fst p) (snd p)) 0)) (consecutive r).

Definition Qsum (l : list Q) : Q := fold_right Qplus 0%Q l.
Definition Qprod (l : list Q) : Q := fold_right Qmult 1%Q l.

(** The four fields as the specification words them. *)
Definition spec_totalTime (g : Graph) (r : list Z) : Q :=
  Qsum (map (fun p => getEdgeCost g (fst p) (snd p)) (traversed g r)).

Definition spec_reliabilityPenalty (g : Graph) (r : list Z) : Q :=
  (1 - Qprod (map (fun p => getEdgeReliability g (fst p) (snd p)) (traversed g r)))%Q.

Definition spec_routeCost (g : Graph) (r : list Z) (cap load : Z) : RouteCost :=
  if (length r <? 2)%nat then mkRouteCost 0 0 0 0
  else
    mkRouteCost (spec_totalTime g r) (spec_reliabilityPenalty g r)
      (inject_Z (wrap (cap - load)))
      (0.6 * spec_totalTime g r + 0.3 * spec_reliabilityPenalty g r
       + 0.1 * inject_Z (wrap (cap - load)))%Q.

(** Equality of cost records, field by field, as rational numbers. *)
Definition RouteCost_eq (a b : RouteCost) : Prop :=
  (totalTime a == totalTime b)%Q /\
  (reliabilityPenalty a == reliabilityPenalty b)%Q /\
  (idleTime a == idleTime b)%Q /\
  (finalScore a == finalScore b)%Q.

Lemma cost_loop_spec g r t p :
  (fst (cost_loop g r (t, p)) == t + spec_totalTime g r)%Q /\
  (snd (cost_loop g r (t, p)) ==
     p * Qprod (map (fun q => getEdgeReliability g (fst q) (snd q)) (traversed g r)))%Q.
Proof.
  revert t p. induction r as [|u r IH]; intros t p.
  - simpl. unfold spec_totalTime, traversed. simpl. split; ring.
  - destruct r as [|v r'].
    + simpl. unfold spec_totalTime, traversed. simpl. split; ring.
    + change (cost_loop g (u :: v :: r') (t, p)) with
        (cost_loop g (v :: r')
           (if Qle_bool 0 (getEdgeCost g u v)
            then ((t + getEdgeCost g u v)%Q, (p * getEdgeReliability g u v)%Q)
            else (t, p))).
      unfold spec_totalTime, traversed in *.
      change (consecutive (u :: v :: r')) with ((u, v) :: consecutive (v :: r')).
      simpl List.filter.
      destruct (Qle_bool 0 (getEdgeCost g u v)) eqn:E.
      * apply Qle_bool_iff in E. apply Qltb_false in E. rewrite E. simpl negb. cbv iota.
        destruct (IH (t + getEdgeCost g u v)%Q (p * getEdgeReliability g u v)%Q)
          as [H1 H2].
        rewrite H1, H2. simpl. split; ring.
      * apply Qle_bool_false in E. apply Qltb_true in E. rewrite E. simpl negb. cbv iota.
        apply IH.
Qed.

Lemma calculateRouteCost_refines g r cap load :
  RouteCost_eq (calculateRouteCost g r cap load) (spec_routeCost g r cap load).
Proof.
  unfold calculateRouteCost, spec_routeCost, RouteCost_eq.
  destruct (length r <? 2)%nat; [by simpl|].
  destruct (cost_loop_spec g r 0 1) as [H1 H2].
  destruct (cost_loop g r (0%Q, 1%Q)) as [t p]. simpl in *.
  unfold spec_reliabilityPenalty, ALPHA, BETA, GAMMA.
  rewrite H1, H2. repeat split; ring.
Qed.

Definition island : Graph :=
  build [OpAddNode (mkNode 0 0 0); OpAddNode (mkNode 1 4 2); OpAddNode (mkNode 2 3 1)].

End CostModel.

(** ** The allocator: choice of the vehicle *)

Module Allocation.

Section Choice.

Variables (g : Graph) (nodeId dem : Z).

(** A vehicle that takes part in the minimum-cost comparison: it has room
    for the demand and the location is within reach of its last stop. *)
Definition candidate (v : Vehicle) : Prop :=
  canServe v dem = true /\ (extraCost g v nodeId < DBL_MAX)%Q.

Lemma best_vehicle_from_spec vs : forall i b m,
  (best_vehicle_from g nodeId dem vs i b m = b /\
   forall v, v ∈ vs -> candidate v -> (m <= extraCost g v nodeId)%Q)
  \/
  (exists k v,
      vs !! k = Some v /\
      best_vehicle_from g nodeId dem vs i b m = i + Z.of_nat k /\
      candidate v /\ (extraCost g v nodeId < m)%Q /\
      forall j v', vs !! j = Some v' -> candidate v' ->
        (extraCost g v nodeId <= extraCost g v' nodeId)%Q /\
        ((j < k)%nat -> (extraCost g v nodeId < extraCost g v' nodeId)%Q)).
Proof.
  induction vs as [|v0 rest IH]; intros i b m; simpl.
  { left. split; [done|]. intros v Hv. inversion Hv. }
  assert (forall b' m',
    ((candidate v0 -> (m' <= extraCost g v0 nodeId)%Q) -> (m' <= m)%Q ->
     (best_vehicle_from g nodeId dem rest (i + 1) b' m' = b' /\
      forall v, v ∈ v0 :: rest -> candidate v -> (m' <= extraCost g v nodeId)%Q)
     \/
     (exists k v,
        (v0 :: rest) !! k = Some v /\
        best_vehicle_from g nodeId dem rest (i + 1) b' m' = i + Z.of_nat k /\
        candidate v /\ (extraCost g v nodeId < m)%Q /\
        forall j v', (v0 :: rest) !! j = Some v' -> candidate v' ->
          (extraCost g v nodeId <= extraCost g v' nodeId)%Q /\
          ((j < k)%nat -> (extraCost g v nodeId < extraCost g v' nodeId)%Q)))) as Hskip.
  { intros b' m' H0 Hm.
    destruct (IH (i + 1) b' m')
      as [[Hr Hnone] | (k & v & Hk & Hr & Hc & Hlow & Hmin)].
    - left. split; [done|]. intros v Hv Hc.
      apply elem_of_cons in Hv as [->|Hv]; [by apply H0|by apply Hnone].
    - right. exists (S k), v. split; [done|]. split; [lia|]. split; [done|].
      split; [lra|]. intros j v' Hj Hc'.
      destruct j as [|j]; simpl in Hj.
      + inversion Hj; subst v'. specialize (H0 Hc'). split; [lra|intros _; lra].
      + destruct (Hmin j v' Hj Hc') as [H1 H2]. split; [done|].
        intros Hlt. apply H2. lia. }
  destruct (canServe v0 dem) eqn:Hserve; simpl.
  - destruct (Qltb (extraCost g v0 nodeId) m) eqn:Hlt; simpl.
    + destruct (Qltb (extraCost g v0 nodeId) DBL_MAX) eqn:Hfin; simpl.
      * apply Qltb_true in Hlt, Hfin.
        destruct (Hskip i (extraCost g v0 nodeId))
          as [[Hr Hnone] | (k & v & Hk & Hr & Hc & Hlow & Hmin)];
          [intros _; lra|lra| |].
        -- right. exists 0%nat, v0. split; [done|]. split; [lia|].
           split; [done|]. split; [done|]. intros j v' Hj Hc'.
           assert (v' ∈ v0 :: rest) as Hin by (eapply list_elem_of_lookup_2; eauto).
           specialize (Hnone v' Hin Hc'). split; [done|lia].
        -- right. exists k, v. done.
      * apply Qltb_false in Hfin.
        destruct (Hskip b m) as [H|H]; [|lra| |].
        -- intros [_ Hc]. lra.
        -- left. destruct H as [Hr Hnone]. done.
        -- right. done.
    + apply Qltb_false in Hlt.
      destruct (Hskip b m) as [H|H]; [done|lra| |]; [by left|by right].
  - destruct (Hskip b m) as [H|H]; [|lra| |]; [|by left|by right].
    intros [Hc _]. congruence.
Qed.

Lemma best_vehicle_spec vs :
  (best_vehicle g nodeId dem vs = -1 /\ forall v, v ∈ vs -> ~ candidate v)
  \/
  (exists k v,
      vs !! k = Some v /\ best_vehicle g nodeId dem vs = Z.of_nat k /\
      candidate v /\
      forall j v', vs !! j = Some v' -> candidate v' ->
        (extraCost g v nodeId <= extraCost g v' nodeId)%Q /\
        ((j < k)%nat -> (extraCost g v nodeId < extraCost g v' nodeId)%Q)).
Proof.
  unfold best_vehicle.
  destruct (best_vehicle_from_spec vs 0 (-1) DBL_MAX)
    as [[Hr Hnone] | (k & v & Hk & Hr & Hc & Hlow & Hmin)].
  - left. split; [done|]. intros v Hv Hc. specialize (Hnone v Hv Hc).
    destruct Hc. lra.
  - right. exists k, v. split; [done|]. split; [lia|]. split; [done|]. done.
Qed.

End Choice.

(** What one round of the assignment loop does to the vehicle list. *)
Lemma assign_node_cases g vs nodeId :
  assign_node g vs nodeId = vs \/
  exists node k v,
    getNode g nodeId = Some node /\ vs !! k = Some v /\
    canServe v (demand node) = true /\
    assign_node g vs nodeId = alter (vehicle_addNode nodeId (demand node)) k vs.
Proof.
  unfold assign_node. destruct (getNode g nodeId) as [node|]; [|by left].
  destruct (best_vehicle_spec g nodeId (demand node) vs)
    as [[Hr _] | (k & v & Hk & Hr & [Hc _] & _)]; rewrite Hr.
  - by left.
  - right. exists node, k, v. split; [done|]. split; [done|]. split; [done|].
    destruct (Z.leb_spec 0 (Z.of_nat k)); [|lia]. by rewrite Nat2Z.id.
Qed.

(** The distance the allocator reads for a vehicle that stands at [a]: the
    entry of [x] in the table that [dijkstra] makes from [a], [DBL_MAX] when
    the table has none. *)
Definition distance (g : Graph) (a x : Z) : Q :=
  match dijkstra g a !! x with Some d => d | None => DBL_MAX end.

Lemma route_back_last (r : list Z) (a : Z) : last r = Some a -> route_back r = a.
Proof.
  unfold route_back. induction r as [|b r IH]; [done|].
  destruct r as [|c r]; [by intros [= ->]|].
  intros H. change (List.last (c :: r) 0 = a). by apply IH.
Qed.

Lemma last_is_Some (r : list Z) : r <> [] -> exists a, last r = Some a.
Proof.
  intros H. destruct (last r) as [a|] eqn:E; [by exists a|].
  by apply last_None in E.
Qed.

Lemma alter_at {A} (f : A -> A) (l : list A) (k : nat) (x : A) :
  l !! k = Some x -> alter f k l = <[k := f x]> l.
Proof.
  revert k. induction l as [|y l IH]; intros [|k] H; simpl in *; try done.
  - by inversion H.
  - f_equal. by apply IH.
Qed.

(** C5: a location with table entry [node] goes to the vehicle [k] that has
    room for its demand (the load after the addition, as the 32-bit machine
    computes it, is within the capacity) and whose last stop [a] has the
    least [dijkstra] distance to the location among the vehicles with room
    and a distance below [DBL_MAX]; of several equally near vehicles the
    first in list order is taken.  That vehicle gets the demand added to its
    load and the location appended to its route, and no other vehicle
    changes.  When every vehicle with room reads a distance of [DBL_MAX] or
    more, the list of vehicles stays as it is. *)
Theorem assign_node_choice (g : Graph) (vs : list Vehicle) (nodeId : Z) (node : Node) :
  getNode g nodeId = Some node ->
  Forall (fun v => route v <> []) vs ->
  (exists k v a,
      vs !! k = Some v /\ last (route v) = Some a /\
      wrap (currentLoad v + demand node) <= capacity v /\
      (distance g a nodeId < DBL_MAX)%Q /\
      (forall j v' a',
         vs !! j = Some v' -> last (route v') = Some a' ->
         wrap (currentLoad v' + demand node) <= capacity v' ->
         (distance g a' nodeId < DBL_MAX)%Q ->
         (distance g a nodeId <= distance g a' nodeId)%Q /\
         ((j < k)%nat -> (distance g a nodeId < distance g a' nodeId)%Q)) /\
      assign_node g vs nodeId =
        <[k := mkVehicle (vehicle_id v) (capacity v)
                 (wrap (currentLoad v + demand node)) (route v ++ [nodeId])]> vs)
  \/
  ((forall v a, v ∈ vs -> last (route v) = Some a ->
      wrap (currentLoad v + demand node) <= capacity v ->
      (DBL_MAX <= distance g a nodeId)%Q) /\
   assign_node g vs nodeId = vs).
Proof.
  intros Hnode Hne. unfold assign_node. rewrite Hnode.
  destruct (best_vehicle_spec g nodeId (demand node) vs)
    as [[Hr Hnone] | (k & v & Hk & Hr & [Hc1 Hc2] & Hmin)]; rewrite Hr.
  - right. split; [|done]. intros v a Hv Ha Hroom.
    apply Qnot_lt_le. intros Hlt. apply (Hnone v Hv). split.
    + unfold canServe. by apply Z.leb_le.
    + unfold extraCost. by rewrite (route_back_last _ _ Ha).
  - left.
    assert (route v <> []) as Hv
        by (apply (proj1 (Forall_forall _ _) Hne); by eapply list_elem_of_lookup_2).
    destruct (last_is_Some _ Hv) as [a Ha].
    assert (extraCost g v nodeId = distance g a nodeId) as Hd
        by (unfold extraCost; by rewrite (route_back_last _ _ Ha)).
    exists k, v, a. split; [done|]. split; [done|].
    split; [unfold canServe in Hc1; by apply Z.leb_le|].
    split; [by rewrite <- Hd|]. split.
    + intros j v' a' Hj Ha' Hroom Hf.
      assert (extraCost g v' nodeId = distance g a' nodeId) as Hd'
          by (unfold extraCost; by rewrite (route_back_last _ _ Ha')).
      rewrite <- Hd, <- Hd'. apply (Hmin j v' Hj). split.
      * unfold canServe. by apply Z.leb_le.
      * by rewrite Hd'.
    + destruct (Z.leb_spec 0 (Z.of_nat k)); [|lia]. rewrite Nat2Z.id.
      by rewrite (alter_at _ _ _ _ Hk).
Qed.

(** The scenario of the specification: depot 0, locations 1 and 2, three
    roads, and a fleet of two vehicles of capacity 5. *)
Definition relief : Graph :=
  build [OpAddNode (mkNode 0 0 0); OpAddNode (mkNode 1 5 3); OpAddNode (mkNode 2 5 5);
         OpAddEdge (mkEdge 0 1 2 1); OpAddEdge (mkEdge 0 2 3 0.9);
         OpAddEdge (mkEdge 1 2 1 1)].

Definition fleet : list Vehicle := [new_vehicle 1 5; new_vehicle 2 5].

Lemma assign_node_choice_witness :
  getNode relief 2 = Some (mkNode 2 5 5) /\
  Forall (fun v => route v <> []) fleet /\
  ((exists k v a,
      fleet !! k = Some v /\ last (route v) = Some a /\
      wrap (currentLoad v + 5) <= capacity v /\
      (distance relief a 2 < DBL_MAX)%Q /\
      (forall j v' a',
         fleet !! j = Some v' -> last (route v') = Some a' ->
         wrap (currentLoad v' + 5) <= capacity v' ->
         (distance relief a' 2 < DBL_MAX)%Q ->
         (distance relief a 2 <= distance relief a' 2)%Q /\
         ((j < k)%nat -> (distance relief a 2 < distance relief a' 2)%Q)) /\
      assign_node relief fleet 2 =
        <[k := mkVehicle (vehicle_id v) (capacity v)
                 (wrap (currentLoad v + 5)) (route v ++ [2])]> fleet)
   \/
   ((forall v a, v ∈ fleet -> last (route v) = Some a ->
       wrap (currentLoad v + 5) <= capacity v ->
       (DBL_MAX <= distance relief a 2)%Q) /\
    assign_node relief fleet 2 = fleet)).
Proof.
  assert (getNode relief 2 = Some (mkNode 2 5 5)) as H1 by (by vm_compute).
  assert (Forall (fun v => route v <> []) fleet) as H2
      by (constructor; [done|]; constructor; [done|]; constructor).
  split; [exact H1|]. split; [exact H2|].
  exact (assign_node_choice relief fleet 2 (mkNode 2 5 5) H1 H2).
Defined.

(** On [relief] location 2 goes to the first of the two vehicles. *)
Example assign_node_relief :
  assign_node relief fleet 2 = [mkVehicle 1 5 5 [0; 2]; new_vehicle 2 5].
Proof. by vm_compute. Qed.

(** ** The allocator: capacity *)

Definition within_capacity (v : Vehicle) : Prop := currentLoad v <= capacity v.

Lemma assign_node_within g vs nodeId :
  Forall within_capacity vs -> Forall within_capacity (assign_node g vs nodeId).
Proof.
  intros H.
  destruct (assign_node_cases g vs nodeId)
    as [-> | (node & k & v & _ & Hk & Hs & ->)]; [done|].
  apply Forall_alter; [done|]. intros x Hx _.
  rewrite Hk in Hx. inversion Hx; subst x.
  unfold within_capacity, canServe in *. simpl. by apply Z.leb_le.
Qed.

Lemma assign_all_within g order : forall vs,
  Forall within_capacity vs -> Forall within_capacity (assign_all g order vs).
Proof.
  unfold assign_all. induction order as [|n order IH]; intros vs H; simpl; [done|].
  by apply IH, assign_node_within.
Qed.

(** C2: vehicles that start empty with a capacity that is not negative end
    with a load within their capacity, and so do they after any number of
    assignment rounds.  A round that changes the list of vehicles changes one
    vehicle, which passed the capacity check for the demand of the location:
    the sum of load and demand, as the 32-bit machine computes it, is within
    the capacity, and where that sum is in the range of [int] it is the sum
    itself that is within the capacity.  The sum becomes the load and the
    location is appended to the route. *)
Theorem allocate_within_capacity (g : Graph) (vehicles : list Vehicle) :
  Forall (fun v => currentLoad v = 0 /\ 0 <= capacity v) vehicles ->
  Forall (fun v => currentLoad v <= capacity v) (allocateVehicles g vehicles) /\
  (forall order,
     Forall (fun v => currentLoad v <= capacity v) (assign_all g order vehicles)) /\
  (forall vs nodeId,
     assign_node g vs nodeId = vs \/
     exists node k v,
       getNode g nodeId = Some node /\ vs !! k = Some v /\
       wrap (currentLoad v + demand node) <= capacity v /\
       (- 2 ^ 31 <= currentLoad v + demand node < 2 ^ 31 ->
        currentLoad v + demand node <= capacity v) /\
       assign_node g vs nodeId =
         <[k := mkVehicle (vehicle_id v) (capacity v)
                  (wrap (currentLoad v + demand node)) (route v ++ [nodeId])]> vs).
Proof.
  intros H0.
  assert (Forall within_capacity vehicles) as H.
  { eapply Forall_impl; [exact H0|]. intros v [H1 H2]. unfold within_capacity. lia. }
  split; [|split].
  - unfold allocateVehicles. apply Forall_map.
    eapply Forall_impl; [by apply assign_all_within|]. by intros v Hv.
  - intros order. by apply assign_all_within.
  - intros vs nodeId.
    destruct (assign_node_cases g vs nodeId)
      as [Hsame | (node & k & v & Hn & Hk & Hs & Heq)]; [by left|].
    right. exists node, k, v. split; [done|]. split; [done|].
    unfold canServe in Hs. apply Z.leb_le in Hs.
    split; [done|]. split.
    + intros Hrange. by rewrite wrap_id in Hs.
    + by rewrite Heq, (alter_at _ _ _ _ Hk).
Qed.

(** ** The allocator: processing order *)

Definition prio (g : Graph) (a : Z) : Z :=
  match getNode g a with Some n => priority n | None => 0 end.

Definition has_node (g : Graph) (a : Z) : Prop := is_Some (getNode g a).

Lemma priority_before_prio g a b :
  has_node g a -> has_node g b ->
  priority_before g a b = Z.ltb (prio g b) (prio g a).
Proof.
  intros [na Ha] [nb Hb]. unfold priority_before, prio. by rewrite Ha, Hb.
Qed.

Lemma sort_insert_perm before x l : sort_insert before x l ≡ₚ x :: l.
Proof.
  induction l as [|y l IH]; simpl; [done|].
  destruct (before y x); [|done]. rewrite IH. apply perm_swap.
Qed.

Lemma std_sort_perm before l : std_sort before l ≡ₚ l.
Proof.
  induction l as [|x l IH]; simpl; [done|].
  by rewrite sort_insert_perm, IH.
Qed.

Lemma sort_insert_sorted g x l :
  has_node g x -> Forall (has_node g) l ->
  StronglySorted (fun a b => prio g b <= prio g a) l ->
  StronglySorted (fun a b => prio g b <= prio g a) (sort_insert (priority_before g) x l).
Proof.
  intros Hx Hl Hs. induction Hs as [|y l Hs IH Hy]; simpl.
  - repeat constructor.
  - apply Forall_cons in Hl as [Hny Hl].
    rewrite priority_before_prio by done.
    destruct (Z.ltb_spec (prio g x) (prio g y)).
    + constructor; [by apply IH|].
      rewrite sort_insert_perm. constructor; [lia|done].
    + constructor; [by constructor|].
      constructor; [done|]. eapply Forall_impl; [exact Hy|].
      intros b Hb. simpl in Hb. lia.
Qed.

Lemma std_sort_sorted g l :
  Forall (has_node g) l ->
  StronglySorted (fun a b => prio g b <= prio g a) (std_sort (priority_before g) l).
Proof.
  induction l as [|x l IH]; intros Hl; simpl; [constructor|].
  apply Forall_cons in Hl as [Hx Hl].
  apply sort_insert_sorted; [done| |by apply IH].
  by rewrite std_sort_perm.
Qed.

Lemma elem_of_collect_nodes g x :
  x ∈ collect_nodes g <->
  x ∈ getAllNodeIds g /\ x <> 0 /\
  exists node, getNode g x = Some node /\ 0 < demand node.
Proof.
  unfold collect_nodes. rewrite !list_elem_of_In, filter_In, andb_true_iff.
  rewrite negb_true_iff, Z.eqb_neq.
  split.
  - intros (H1 & H2 & H3). split; [done|]. split; [done|].
    destruct (getNode g x) as [node|]; [|done].
    exists node. split; [done|]. by apply Z.ltb_lt.
  - intros (H1 & H2 & node & H3 & H4). split; [done|]. split; [done|].
    rewrite H3. by apply Z.ltb_lt.
Qed.

Lemma collect_nodes_has_node g : Forall (has_node g) (collect_nodes g).
Proof.
  apply Forall_forall. intros x Hx.
  apply elem_of_collect_nodes in Hx as (_ & _ & node & Hn & _).
  by exists node.
Qed.

(** The order C6 words: priority first, then the smaller id. *)
Definition by_priority_then_id (g : Graph) (l : list Z) : Prop :=
  StronglySorted
    (fun a b => prio g b < prio g a \/ (prio g a = prio g b /\ a < b)) l.

(** Two locations of one priority, entered as 1 and then 2, and the same
    two entered as 2 and then 1. *)
Definition tie_graph : Graph :=
  build [OpAddNode (mkNode 0 0 0); OpAddNode (mkNode 1 5 7); OpAddNode (mkNode 2 5 7)].

Definition tie_graph_swapped : Graph :=
  build [OpAddNode (mkNode 0 0 0); OpAddNode (mkNode 2 5 7); OpAddNode (mkNode 1 5 7)].

(** C6 as worded fails: the comparator looks at priorities only.  On
    [tie_graph] the two locations of priority 7 are processed 2 before 1,
    the greater id first; entered the other way round they are processed
    the other way round. *)
Lemma nodesToAssign_not_by_id :
  nodesToAssign tie_graph = [2; 1] /\
  nodesToAssign tie_graph_swapped = [1; 2] /\
  ~ by_priority_then_id tie_graph (nodesToAssign tie_graph).
Proof.
  split; [by vm_compute|]. split; [by vm_compute|].
  change (nodesToAssign tie_graph) with [2; 1].
  intros H. inversion H as [|a l _ Hall]; subst.
  apply Forall_cons in Hall as [Hbad _].
  vm_compute in Hbad. destruct Hbad as [Hbad | [_ Hbad]]; discriminate Hbad.
Qed.

(** C6, amended: the processing order is the collected locations (in the
    table, not the depot, demand above 0) rearranged so that priorities
    never increase along it.  Ties are not broken by id: the comparator
    answers false both ways for two locations of one priority, so that
    their order is left to the sort. *)
Theorem nodesToAssign_order (g : Graph) :
  nodesToAssign g ≡ₚ collect_nodes g /\
  (forall x, x ∈ nodesToAssign g <->
     x ∈ getAllNodeIds g /\ x <> 0 /\
     exists node, getNode g x = Some node /\ 0 < demand node) /\
  StronglySorted (fun a b => prio g b <= prio g a) (nodesToAssign g) /\
  (forall a b, prio g a = prio g b -> priority_before g a b = false).
Proof.
  split; [apply std_sort_perm|]. split; [|split].
  - intros x. unfold nodesToAssign. rewrite std_sort_perm.
    apply elem_of_collect_nodes.
  - apply std_sort_sorted, collect_nodes_has_node.
  - intros a b Hab. unfold priority_before, prio in *.
    destruct (getNode g a), (getNode g b); try done.
    apply Z.ltb_ge. lia.
Qed.

Lemma nodesToAssign_order_witness :
  prio tie_graph 1 = prio tie_graph 2 /\ priority_before tie_graph 1 2 = false.
Proof.
  assert (prio tie_graph 1 = prio tie_graph 2) as H by (by vm_compute).
  split; [exact H|].
  exact (proj2 (proj2 (proj2 (nodesToAssign_order tie_graph))) 1 2 H).
Defined.

(** ** The allocator: a location is served once *)

(** The stops of all routes that are not the depot, route after route. *)
Definition served (vs : list Vehicle) : list Z :=
  filter (fun x => x <> 0) (concat (map route vs)).

Lemma served_cons v vs :
  served (v :: vs) = filter (fun x => x <> 0) (route v) ++ served vs.
Proof. unfold served. simpl. by rewrite filter_app. Qed.

Lemma served_alter nodeId dem k v : forall vs,
  vs !! k = Some v ->
  served (alter (vehicle_addNode nodeId dem) k vs)
  ≡ₚ filter (fun x => x <> 0) [nodeId] ++ served vs.
Proof.
  revert k. induction k as [|k IH]; intros [|v0 vs] Hk; simpl in Hk; try done.
  - inversion Hk; subst v0. simpl. rewrite !served_cons. simpl.
    rewrite filter_app, app_assoc.
    apply Permutation_app_tail, Permutation_app_comm.
  - simpl. rewrite !served_cons, (IH vs Hk).
    rewrite !app_assoc. apply Permutation_app_tail, Permutation_app_comm.
Qed.

Lemma served_finalize vs : served (map finalizeRoute vs) = served vs.
Proof.
  induction vs as [|v vs IH]; [done|]. simpl. rewrite !served_cons, IH. simpl.
  rewrite filter_app, filter_cons, filter_nil. case_decide; [done|].
  by rewrite app_nil_r.
Qed.

Lemma assign_all_served g order : forall vs,
  NoDup order -> NoDup (served vs) ->
  (forall x, x ∈ served vs -> x ∉ order) ->
  NoDup (served (assign_all g order vs)).
Proof.
  unfold assign_all. induction order as [|n order IH]; intros vs Ho Hs Hd; simpl; [done|].
  apply NoDup_cons in Ho as [Hn Ho].
  destruct (assign_node_cases g vs n)
    as [-> | (node & k & v & _ & Hk & _ & ->)].
  - apply IH; [done|done|]. intros x Hx Hin. apply (Hd x Hx). by right.
  - assert (forall x, x ∈ served (alter (vehicle_addNode n (demand node)) k vs) ->
                      x = n \/ x ∈ served vs) as Hsub.
    { intros x. rewrite (served_alter n (demand node) k v vs Hk).
      rewrite elem_of_app, list_elem_of_filter, list_elem_of_singleton. tauto. }
    apply IH; [done| |].
    + rewrite (served_alter n (demand node) k v vs Hk).
      rewrite filter_cons, filter_nil. case_decide; [|done]. simpl.
      apply NoDup_cons. split; [|done]. intros Hin. apply (Hd n Hin). by left.
    + intros x Hx Hin. destruct (Hsub x Hx) as [->|Hx']; [done|].
      apply (Hd x Hx'). by right.
Qed.

Lemma NoDup_concat_parts (P : Z -> Prop) `{!forall x, Decision (P x)} (ls : list (list Z)) :
  NoDup (filter P (concat ls)) ->
  (forall l, l ∈ ls -> NoDup (filter P l)) /\
  (forall i j li lj x,
     ls !! i = Some li -> ls !! j = Some lj -> P x -> x ∈ li -> x ∈ lj -> i = j).
Proof.
  induction ls as [|l ls IH]; simpl; intros Hnd.
  - split; [intros l Hl; inversion Hl|]. intros i j li lj x Hi. by destruct i.
  - rewrite filter_app in Hnd. apply NoDup_app in Hnd as (H1 & H2 & H3).
    destruct (IH H3) as [IH1 IH2]. split.
    + intros l' Hl'. apply elem_of_cons in Hl' as [->|Hl']; [done|by apply IH1].
    + assert (forall j lj x, ls !! j = Some lj -> P x -> x ∈ l -> x ∈ lj -> False)
        as Hcross.
      { intros j lj x Hj HP Hx Hxj. apply (H2 x).
        - by apply list_elem_of_filter.
        - apply list_elem_of_filter. split; [done|].
          apply list_elem_of_In, in_concat. exists lj.
          split; apply list_elem_of_In; [|done].
          eapply list_elem_of_lookup_2; eauto. }
      intros [|i] [|j] li lj x Hi Hj HP Hxi Hxj; simpl in *.
      * done.
      * inversion Hi; subst li. destruct (Hcross j lj x Hj HP Hxi Hxj).
      * inversion Hj; subst lj. destruct (Hcross i li x Hi HP Hxj Hxi).
      * f_equal. by apply (IH2 i j li lj x).
Qed.

(** C3: with a node table whose keys differ pairwise and vehicles that start
    at the depot, the stops other than the depot are pairwise different
    over all returned routes: such a location is on one route at most, and
    once at most on it. *)
Theorem allocate_at_most_once (g : Graph) (vehicles : list Vehicle) :
  NoDup (getAllNodeIds g) ->
  Forall (fun v => route v = [0]) vehicles ->
  NoDup (served (allocateVehicles g vehicles)) /\
  (forall i j vi vj x,
     allocateVehicles g vehicles !! i = Some vi ->
     allocateVehicles g vehicles !! j = Some vj ->
     x <> 0 -> x ∈ route vi -> x ∈ route vj -> i = j) /\
  (forall v, v ∈ allocateVehicles g vehicles ->
     NoDup (filter (fun x => x <> 0) (route v))).
Proof.
  intros Hids Hstart.
  assert (NoDup (served (allocateVehicles g vehicles))) as Hnd.
  { unfold allocateVehicles. rewrite served_finalize.
    assert (served vehicles = []) as Hempty.
    { clear Hids. induction Hstart as [|v vs Hv _ IH]; [done|].
      rewrite served_cons, IH, Hv. rewrite filter_cons, filter_nil.
      by case_decide. }
    apply assign_all_served.
    - unfold nodesToAssign. rewrite std_sort_perm. unfold collect_nodes.
      apply NoDup_ListNoDup, List.NoDup_filter, NoDup_ListNoDup, Hids.
    - rewrite Hempty. constructor.
    - intros x. rewrite Hempty. intros Hx. inversion Hx. }
  split; [done|].
  destruct (NoDup_concat_parts (fun x => x <> 0)
              (map route (allocateVehicles g vehicles)) Hnd) as [H1 H2].
  split.
  - intros i j vi vj x Hi Hj Hx Hxi Hxj.
    apply (H2 i j (route vi) (route vj) x); try done.
    + by rewrite list_lookup_fmap, Hi.
    + by rewrite list_lookup_fmap, Hj.
  - intros v Hv. apply H1. by apply list_elem_of_fmap_2.
Qed.

(** The keys of the node table differ pairwise on every graph made by
    [addNode] and [addEdge] calls. *)
Lemma nodes_find_None k l : nodes_find k l = None -> k ∉ map fst l.
Proof.
  induction l as [|[k' n'] l IH]; simpl; [intros _ H; inversion H|].
  destruct (Z.eqb_spec k' k); [done|]. intros H Hin.
  apply elem_of_cons in Hin as [->|Hin]; [done|]. by apply IH.
Qed.

Lemma nodes_overwrite_keys k n l : map fst (nodes_overwrite k n l) = map fst l.
Proof.
  induction l as [|[k' n'] l IH]; simpl; [done|].
  destruct (Z.eqb k' k); simpl; [done|]. by rewrite IH.
Qed.

Lemma build_nodes_NoDup ops : NoDup (getAllNodeIds (build ops)).
Proof.
  unfold build, getAllNodeIds.
  assert (forall g, NoDup (map fst (nodes g)) ->
                    NoDup (map fst (nodes (fold_left apply_op ops g)))) as H.
  { induction ops as [|[n|e] ops IH]; intros g Hg; simpl; [done| |].
    - apply IH. simpl. unfold nodes_assign.
      destruct (nodes_find (node_id n) (nodes g)) eqn:E.
      + by rewrite nodes_overwrite_keys.
      + simpl. apply NoDup_cons. split; [by apply nodes_find_None|done].
    - by apply IH. }
  apply H. constructor.
Qed.

Lemma allocate_within_capacity_witness :
  Forall (fun v => currentLoad v = 0 /\ 0 <= capacity v) fleet /\
  Forall within_capacity (allocateVehicles relief fleet).
Proof.
  assert (Forall (fun v => currentLoad v = 0 /\ 0 <= capacity v) fleet) as H.
  { repeat constructor; simpl; lia. }
  split; [exact H|].
  exact (proj1 (allocate_within_capacity relief fleet H)).
Defined.

Lemma allocate_at_most_once_witness :
  NoDup (getAllNodeIds relief) /\
  Forall (fun v => route v = [0]) fleet /\
  NoDup (served (allocateVehicles relief fleet)).
Proof.
  assert (NoDup (getAllNodeIds relief)) as H1.
  { apply (bool_decide_unpack _). by vm_compute. }
  assert (Forall (fun v => route v = [0]) fleet) as H2.
  { repeat constructor. }
  split; [exact H1|]. split; [exact H2|].
  exact (proj1 (allocate_at_most_once relief fleet H1 H2)).
Defined.

(** The scenarios of the specification, run on the model. *)
Example allocate_single_vehicle :
  map route (allocateVehicles relief [new_vehicle 1 10]) = [[0; 2; 1; 0]].
Proof. by vm_compute. Qed.

Example allocate_two_vehicles :
  map route (allocateVehicles relief fleet) = [[0; 2; 0]; [0; 1; 0]].
Proof. by vm_compute. Qed.

Example allocate_no_room :
  allocateVehicles relief [new_vehicle 1 4] = [mkVehicle 1 4 0 [0; 0]].
Proof. by vm_compute. Qed.

End Allocation.

(** ** 2-opt *)

Module TwoOpt.

Import CostModel.

(** The route has a cost: no lookup along it gives a negative value. *)
Definition computable (g : Graph) (r : list Z) : Prop :=
  Forall (fun p => (0 <= getEdgeCost g (fst p) (snd p))%Q) (consecutive r).

(** The sum of the lookups along the route. *)
Definition total (g : Graph) (r : list Z) : Q :=
  Qsum (map (fun p => getEdgeCost g (fst p) (snd p)) (consecutive r)).

(** [r'] is valid and strictly cheaper than the valid route [r]. *)
Definition cheaper (g : Graph) (r' r : list Z) : Prop :=
  exists c c', route_cost g r = Some c /\ route_cost g r' = Some c' /\ (c' < c)%Q.

Section Cost.

Variable g : Graph.

Lemma route_cost_from_Some r : forall acc c,
  route_cost_from g acc r = Some c ->
  computable g r /\ (c == acc + total g r)%Q.
Proof.
  unfold computable, total.
  induction r as [|a r IH]; intros acc c H; simpl in H.
  - inversion H; subst. split; [constructor|]. simpl. ring.
  - destruct r as [|b r'].
    + inversion H; subst. split; [constructor|]. simpl. ring.
    + destruct (Qltb (getEdgeCost g a b) 0) eqn:E; [done|].
      apply Qltb_false in E. apply IH in H as [H1 H2].
      change (consecutive (a :: b :: r')) with ((a, b) :: consecutive (b :: r')).
      split; [by constructor|]. simpl. rewrite H2. ring.
Qed.

Lemma route_cost_from_computable r : forall acc,
  computable g r -> is_Some (route_cost_from g acc r).
Proof.
  unfold computable.
  induction r as [|a r IH]; intros acc H; simpl; [done|].
  destruct r as [|b r']; [done|].
  change (consecutive (a :: b :: r')) with ((a, b) :: consecutive (b :: r')) in H.
  apply Forall_cons in H as [H1 H2]. simpl in H1.
  apply Qltb_false in H1. rewrite H1. by apply IH.
Qed.

Lemma route_cost_Some r c :
  route_cost g r = Some c -> computable g r /\ (c == total g r)%Q.
Proof.
  intros H. apply route_cost_from_Some in H as [H1 H2]. split; [done|].
  rewrite H2. ring.
Qed.

Lemma cheaper_trans r1 r2 r3 : cheaper g r1 r2 -> cheaper g r2 r3 -> cheaper g r1 r3.
Proof.
  intros (c2 & c1 & H2 & H1 & Hlt) (c3 & c2' & H3 & H2' & Hlt').
  rewrite H2 in H2'. inversion H2'; subst c2'.
  exists c3, c1. split; [done|]. split; [done|]. lra.
Qed.

Lemma cheaper_irrefl r : ~ cheaper g r r.
Proof.
  intros (c & c' & H & H' & Hlt). rewrite H in H'. inversion H'; subst. lra.
Qed.

End Cost.

(** *** The reversal of an inner segment *)

Lemma reverse_segment_perm i j r : (i <= S j)%nat -> reverse_segment i j r ≡ₚ r.
Proof.
  intros Hij. unfold reverse_segment.
  transitivity (take i r ++ take (S j - i) (drop i r) ++ drop (S j) r).
  - apply Permutation_app_head, Permutation_app_tail.
    symmetry. apply Permutation_rev.
  - replace (drop (S j) r) with (drop (S j - i) (drop i r))
      by (rewrite drop_drop; f_equal; lia).
    by rewrite !take_drop.
Qed.

Lemma reverse_segment_head i j r : (1 <= i)%nat -> head (reverse_segment i j r) = head r.
Proof.
  intros Hi. unfold reverse_segment.
  destruct r as [|x r]; [by rewrite take_nil, !drop_nil, take_nil|].
  destruct i as [|i]; [lia|]. done.
Qed.

Lemma reverse_segment_last i j r :
  (S j < length r)%nat -> last (reverse_segment i j r) = last r.
Proof.
  intros Hj. unfold reverse_segment.
  rewrite <- (take_drop (S j) r) at 4.
  destruct (drop (S j) r) as [|y t] eqn:E.
  - assert (length (drop (S j) r) = 0%nat) as Hl by (by rewrite E).
    rewrite length_drop in Hl. lia.
  - by rewrite app_assoc, !last_app_cons.
Qed.

(** *** One pass *)

Lemma twoOpt_scan_j_Some g r i js r' :
  twoOpt_scan_j g r i js = Some r' ->
  exists j, j ∈ js /\ r' = reverse_segment i j r /\ cheaper g r' r.
Proof.
  induction js as [|j js IH]; simpl; [done|].
  destruct (route_cost g r) as [c|] eqn:Hc.
  - destruct (route_cost g (reverse_segment i j r)) as [c'|] eqn:Hc'.
    + destruct (Qltb c' c) eqn:Hlt.
      * intros H. inversion H; subst r'. exists j. split; [by left|]. split; [done|].
        exists c, c'. apply Qltb_true in Hlt. done.
      * intros H. destruct (IH H) as (j' & Hj' & Hr). exists j'. split; [by right|done].
    + intros H. destruct (IH H) as (j' & Hj' & Hr). exists j'. split; [by right|done].
  - intros H. destruct (IH H) as (j' & Hj' & Hr). exists j'. split; [by right|done].
Qed.

Lemma twoOpt_scan_i_Some g r cuts r' :
  twoOpt_scan_i g r cuts = Some r' ->
  exists i j, i ∈ cuts /\ (S i <= j < length r - 1)%nat /\
              r' = reverse_segment i j r /\ cheaper g r' r.
Proof.
  induction cuts as [|i cuts IH]; simpl; [done|].
  destruct (twoOpt_scan_j g r i (seq (S i) (length r - 2 - i))) as [r1|] eqn:E.
  - intros H. inversion H; subst r1.
    apply twoOpt_scan_j_Some in E as (j & Hj & Hr & Hc).
    exists i, j. split; [by left|]. apply elem_of_seq in Hj. split; [lia|done].
  - intros H. destruct (IH H) as (i' & j & Hi & Hrest).
    exists i', j. split; [by right|done].
Qed.

(** An accepted move reverses an inner segment and strictly lowers the cost. *)
Lemma twoOpt_scan_Some g r r' :
  twoOpt_scan g r = Some r' ->
  exists i j, (1 <= i < j)%nat /\ (j + 1 < length r)%nat /\
              r' = reverse_segment i j r /\ cheaper g r' r.
Proof.
  intros H. apply twoOpt_scan_i_Some in H as (i & j & Hi & Hj & Hr & Hc).
  apply elem_of_seq in Hi. exists i, j. split; [lia|]. split; [lia|done].
Qed.

Lemma twoOpt_scan_keeps g r r' :
  twoOpt_scan g r = Some r' ->
  r' ≡ₚ r /\ head r' = head r /\ last r' = last r /\ cheaper g r' r.
Proof.
  intros H. apply twoOpt_scan_Some in H as (i & j & Hi & Hj & -> & Hc).
  split; [apply reverse_segment_perm; lia|].
  split; [apply reverse_segment_head; lia|].
  split; [apply reverse_segment_last; lia|done].
Qed.

(** *** The improvement loop *)

Lemma twoOpt_loop_keeps g fuel : forall r r',
  twoOpt_loop fuel g r = Some r' ->
  r' ≡ₚ r /\ head r' = head r /\ last r' = last r /\
  (r' = r \/ cheaper g r' r) /\ twoOpt_scan g r' = None.
Proof.
  induction fuel as [|fuel IH]; intros r r'; simpl; [done|].
  destruct (twoOpt_scan g r) as [r1|] eqn:E.
  - intros H. apply IH in H as (H1 & H2 & H3 & H4 & H5).
    apply twoOpt_scan_keeps in E as (E1 & E2 & E3 & E4).
    split; [by rewrite H1|]. split; [congruence|]. split; [congruence|].
    split; [|done]. right. destruct H4 as [->|H4]; [done|].
    by apply (cheaper_trans g r' r1 r).
  - intros [= <-]. split_and!; auto.
Qed.

(** The routes held so far, [seen], were all dearer than the current one;
    with the current one they are different rearrangements of the input. *)
Lemma twoOpt_loop_total g r0 fuel : forall r seen,
  (forall s, s ∈ r :: seen -> r0 ≡ₚ s) ->
  NoDup seen ->
  (forall s, s ∈ seen -> cheaper g r s) ->
  (length (permutations r0) <= fuel + length seen)%nat ->
  is_Some (twoOpt_loop fuel g r).
Proof.
  induction fuel as [|fuel IH]; intros r seen Hperm Hnd Hseen Hfuel.
  - exfalso.
    assert (NoDup (r :: seen)) as Hnd'.
    { apply NoDup_cons. split; [|done]. intros Hin.
      by apply (cheaper_irrefl g r), Hseen. }
    assert (r :: seen ⊆+ permutations r0) as Hsub.
    { apply NoDup_submseteq; [done|]. intros s Hs.
      by apply permutations_Permutation, Hperm. }
    apply submseteq_length in Hsub. simpl in *. lia.
  - simpl. destruct (twoOpt_scan g r) as [r1|] eqn:E; [|done].
    apply twoOpt_scan_keeps in E as (E1 & _ & _ & E4).
    apply (IH r1 (r :: seen)).
    + intros s Hs. apply elem_of_cons in Hs as [->|Hs]; [|by apply Hperm].
      rewrite E1. apply Hperm. by left.
    + apply NoDup_cons. split; [|done]. intros Hin.
      by apply (cheaper_irrefl g r), Hseen.
    + intros s Hs. apply elem_of_cons in Hs as [->|Hs]; [done|].
      apply (cheaper_trans g r1 r s); [done|by apply Hseen].
    + simpl. lia.
Qed.


Lemma twoOpt_run_Some g route :
  twoOpt_run (twoOpt_fuel route) g route = Some (twoOpt g route).
Proof.
  unfold twoOpt, twoOpt_run.
  destruct (length route <=? 3)%nat; [done|].
  destruct (twoOpt_loop_total g route (twoOpt_fuel route) route []) as [r' Hr'].
  - intros s Hs. apply list_elem_of_singleton in Hs. by subst.
  - constructor.
  - intros s Hs. inversion Hs.
  - unfold twoOpt_fuel. simpl. lia.
  - by rewrite Hr'.
Qed.


(** Four places on a ring road with two long diagonals, and a tour that
    crosses itself. *)
Definition ring : Graph :=
  build [OpAddNode (mkNode 0 0 0); OpAddNode (mkNode 1 1 1);
         OpAddNode (mkNode 2 1 1); OpAddNode (mkNode 3 1 1);
         OpAddEdge (mkEdge 0 1 1 1); OpAddEdge (mkEdge 1 2 1 1);
         OpAddEdge (mkEdge 2 3 1 1); OpAddEdge (mkEdge 3 0 1 1);
         OpAddEdge (mkEdge 0 2 5 1); OpAddEdge (mkEdge 1 3 5 1)].

Definition bowtie : list Z := [0; 2; 1; 3; 0].

Example twoOpt_bowtie :
  twoOpt ring bowtie = [0; 1; 2; 3; 0] /\
  route_cost ring bowtie = Some 12%Q /\
  route_cost ring (twoOpt ring bowtie) = Some 4%Q.
Proof. by vm_compute. Qed.


End TwoOpt.

(** ** Walks and their costs *)

Module Walks.

Import CostModel.

Section Walks.

Variable g : Graph.

(** A walk from [x] to [y]: every step [(v, e)] is an entry of the neighbour
    list of the node the step starts from. *)
Fixpoint walk (x : Z) (p : list (Z * Edge)) (y : Z) : Prop :=
  match p with
  | [] => x = y
  | st :: p' => st ∈ getNeighbors g x /\ walk (fst st) p' y
  end.

Definition walk_cost (p : list (Z * Edge)) : Q :=
  Qsum (map (fun st => cost (snd st)) p).

(** The nodes a walk from [x] passes, [x] first. *)
Definition walk_nodes (x : Z) (p : list (Z * Edge)) : list Z := x :: map fst p.

Definition reachable (s v : Z) : Prop := exists p, walk s p v.

(** [d] is the least cost of a walk from [s] to [v], and some walk has it. *)
Definition min_cost (s v : Z) (d : Q) : Prop :=
  (exists p, walk s p v /\ (walk_cost p == d)%Q) /\
  forall p, walk s p v -> (d <= walk_cost p)%Q.

Lemma min_cost_unique s v d1 d2 : min_cost s v d1 -> min_cost s v d2 -> (d1 == d2)%Q.
Proof.
  intros [(p1 & Hp1 & Hc1) Hmin1] [(p2 & Hp2 & Hc2) Hmin2].
  specialize (Hmin1 p2 Hp2). specialize (Hmin2 p1 Hp1). lra.
Qed.

Definition nonneg_costs : Prop :=
  forall u st, st ∈ getNeighbors g u -> (0 <= cost (snd st))%Q.

(** Every neighbour id is a key of the node table. *)
Definition closed_graph : Prop :=
  forall u st, st ∈ getNeighbors g u -> fst st ∈ getAllNodeIds g.

Lemma walk_cost_app p1 p2 : (walk_cost (p1 ++ p2) == walk_cost p1 + walk_cost p2)%Q.
Proof.
  unfold walk_cost. induction p1 as [|st p1 IH]; simpl; [ring|].
  rewrite IH. ring.
Qed.

Lemma walk_cost_cons st p : (walk_cost (st :: p) == cost (snd st) + walk_cost p)%Q.
Proof. unfold walk_cost. simpl. ring. Qed.

Lemma walk_app x p1 y p2 z : walk x p1 y -> walk y p2 z -> walk x (p1 ++ p2) z.
Proof.
  revert x. induction p1 as [|st p1 IH]; intros x; simpl.
  - by intros ->.
  - intros [H1 H2] H3. split; [done|]. by apply IH.
Qed.

Lemma walk_snoc x p y st : walk x p y -> st ∈ getNeighbors g y -> walk x (p ++ [st]) (fst st).
Proof. intros H1 H2. apply (walk_app x p y); [done|]. by split. Qed.

Lemma walk_cost_nonneg x p y : nonneg_costs -> walk x p y -> (0 <= walk_cost p)%Q.
Proof.
  intros Hn. revert x. induction p as [|st p IH]; intros x; simpl.
  - intros _. unfold walk_cost. simpl. lra.
  - intros [H1 H2]. rewrite walk_cost_cons.
    specialize (Hn x st H1). specialize (IH _ H2). lra.
Qed.

(** A heuristic that no road undercuts. *)
Definition consistent (h : Z -> Q) : Prop :=
  forall u st, st ∈ getNeighbors g u -> (h u <= cost (snd st) + h (fst st))%Q.

Lemma consistent_walk h x p y :
  consistent h -> walk x p y -> (h x <= walk_cost p + h y)%Q.
Proof.
  intros Hc. revert x. induction p as [|st p IH]; intros x; simpl.
  - intros ->. unfold walk_cost. simpl. lra.
  - intros [H1 H2]. rewrite walk_cost_cons.
    specialize (Hc x st H1). specialize (IH _ H2). lra.
Qed.

(** On a walk that leaves the visited nodes there is a first step out. *)
Lemma first_unvisited (V : gmap Z bool) p : forall x u,
  visited_at V x = true -> walk x p u -> visited_at V u = false ->
  exists p1 st p2 x',
    p = p1 ++ st :: p2 /\ walk x p1 x' /\ visited_at V x' = true /\
    st ∈ getNeighbors g x' /\ visited_at V (fst st) = false /\ walk (fst st) p2 u.
Proof.
  induction p as [|st p IH]; intros x u Hx Hw Hu; simpl in Hw.
  - subst. congruence.
  - destruct Hw as [H1 H2].
    destruct (visited_at V (fst st)) eqn:E.
    + destruct (IH _ _ E H2 Hu) as (p1 & st' & p2 & x' & -> & Hp1 & Hx' & Hst & Hv & Hp2).
      exists (st :: p1), st', p2, x'. split; [done|]. split; [by split|]. done.
    + exists [], st, p, x. split; [done|]. split; [done|]. done.
Qed.

End Walks.

End Walks.

(** ** The priority queue *)

Module Queue.

Lemma pair_ltb_le x m : pair_ltb x m = true -> (fst x <= fst m)%Q.
Proof.
  unfold pair_ltb. intros H. apply orb_true_iff in H as [H|H].
  - apply Qltb_true in H. lra.
  - apply andb_true_iff in H as [H _]. apply negb_true_iff in H.
    by apply Qltb_false in H.
Qed.

Lemma pair_ltb_ge x m : pair_ltb x m = false -> (fst m <= fst x)%Q.
Proof.
  unfold pair_ltb. intros H. apply orb_false_iff in H as [H _].
  by apply Qltb_false in H.
Qed.

Lemma pq_pop_None pq : pq_pop pq = None -> pq = [].
Proof.
  destruct pq as [|x pq]; [done|]. simpl.
  destruct (pq_pop pq) as [[m rest]|]; [|done]. by destruct (pair_ltb x m).
Qed.

(** [pq_pop] takes one entry out, and no entry has a smaller key. *)
Lemma pq_pop_Some pq : forall m rest,
  pq_pop pq = Some (m, rest) ->
  pq ≡ₚ m :: rest /\ forall x, x ∈ pq -> (fst m <= fst x)%Q.
Proof.
  induction pq as [|x pq IH]; intros m rest; simpl; [done|].
  destruct (pq_pop pq) as [[m' rest']|] eqn:E.
  - destruct (IH m' rest' eq_refl) as [Hp Hmin].
    destruct (pair_ltb x m') eqn:Hlt; intros [= <- <-].
    + split; [done|]. intros y Hy. apply elem_of_cons in Hy as [->|Hy]; [lra|].
      apply pair_ltb_le in Hlt. specialize (Hmin y Hy). lra.
    + split; [rewrite Hp; apply perm_swap|].
      intros y Hy. apply elem_of_cons in Hy as [->|Hy]; [|by apply Hmin].
      by apply pair_ltb_ge.
  - apply pq_pop_None in E. subst pq. intros [= <- <-].
    split; [done|]. intros y Hy. apply list_elem_of_singleton in Hy. subst. lra.
Qed.

End Queue.

(** ** The search loop shared by [dijkstra] and [astar] *)

Module Search.

Import Walks Queue.

(** The neighbour loop both searches run once the guards they differ in are
    out of the way: lower the tentative cost of [v] to that of the way over
    [u], and push [v] with the key of the new cost. *)
Fixpoint relax (key : Z -> Q -> Q) (u : Z) (nbrs : list (Z * Edge))
    (G : gmap Z Q) (pq : list (Q * Z)) : gmap Z Q * list (Q * Z) :=
  match nbrs with
  | [] => (G, pq)
  | (v, e) :: rest =>
      let t := (at_key G u + cost e)%Q in
      if Qltb t (at_key G v)
      then relax key u rest (<[v := t]> G) ((key v t, v) :: pq)
      else relax key u rest G pq
  end.

Lemma at_key_Some G v d : G !! v = Some d -> at_key G v = d.
Proof. unfold at_key. by intros ->. Qed.

Lemma at_key_insert G v d w :
  at_key (<[v := d]> G) w = if decide (v = w) then d else at_key G w.
Proof. unfold at_key. rewrite lookup_insert. by case_decide. Qed.

Lemma touch_id G k : is_Some (G !! k) -> touch k G = G.
Proof. intros [d Hd]. unfold touch. by rewrite Hd. Qed.

Lemma relax_length key u nbrs : forall G pq,
  (length (snd (relax key u nbrs G pq)) <= length pq + length nbrs)%nat.
Proof.
  induction nbrs as [|[v e] nbrs IH]; intros G pq; simpl; [lia|].
  destruct (Qltb _ _).
  - etransitivity; [apply IH|]. simpl. lia.
  - etransitivity; [apply IH|]. lia.
Qed.

Section Invariant.

Variable g : Graph.
Variable source : Z.
Variable h : Z -> Q.
Variable key : Z -> Q -> Q.

Hypothesis nonneg : nonneg_costs g.
Hypothesis closed : closed_graph g.
Hypothesis h_consistent : consistent g h.
Hypothesis key_spec : forall v d, (key v d == d + h v)%Q.

(** The state of a search: tentative costs [G], visited flags [V], queue
    [pq], and the roads [R] that have been relaxed. *)
Record Inv (G : gmap Z Q) (V : gmap Z bool) (pq : list (Q * Z))
    (R : Z -> Z * Edge -> Prop) : Prop := mkInv {
  inv_dom : forall v, is_Some (G !! v) <-> v ∈ getAllNodeIds g;
  inv_src : G !! source = Some 0%Q;
  inv_val : forall v d, G !! v = Some d ->
      d = DBL_MAX \/
      ((d < DBL_MAX)%Q /\ exists p, walk g source p v /\ (walk_cost p == d)%Q);
  inv_vis : forall u, visited_at V u = true ->
      exists d, G !! u = Some d /\ (d < DBL_MAX)%Q /\
                forall p, walk g source p u -> (d <= walk_cost p)%Q;
  inv_rel : forall u st, R u st ->
      visited_at V u = true /\ st ∈ getNeighbors g u /\
      (at_key G (fst st) <= at_key G u + cost (snd st))%Q;
  inv_pq : forall v d, G !! v = Some d -> (d < DBL_MAX)%Q ->
      visited_at V v = false -> exists k, (k, v) ∈ pq /\ (k == d + h v)%Q;
  inv_key : forall k v, (k, v) ∈ pq ->
      exists d, G !! v = Some d /\ (d < DBL_MAX)%Q /\ (d + h v <= k)%Q
}.

(** All roads out of visited nodes are relaxed. *)
Definition settled (V : gmap Z bool) (u : Z) (st : Z * Edge) : Prop :=
  visited_at V u = true /\ st ∈ getNeighbors g u.

Lemma inv_nonneg G V pq R v d : Inv G V pq R -> G !! v = Some d -> (0 <= d)%Q.
Proof.
  intros HI Hv. destruct (inv_val _ _ _ _ HI v d Hv) as [->|(_ & p & Hp & Hc)].
  - pose proof DBL_MAX_pos. lra.
  - pose proof (walk_cost_nonneg g _ _ _ nonneg Hp). lra.
Qed.

Lemma inv_le_max G V pq R v d : Inv G V pq R -> G !! v = Some d -> (d <= DBL_MAX)%Q.
Proof.
  intros HI Hv. destruct (inv_val _ _ _ _ HI v d Hv) as [->|(Hlt & _)]; lra.
Qed.

(** The node popped from the queue, if not yet visited, carries its least
    cost. *)
Lemma pop_optimal G V pq k u rest :
  Inv G V pq (settled V) ->
  pq_pop pq = Some ((k, u), rest) -> visited_at V u = false ->
  exists d, G !! u = Some d /\ (d < DBL_MAX)%Q /\
            forall p, walk g source p u -> (d <= walk_cost p)%Q.
Proof.
  intros HI Hpop Hu. apply pq_pop_Some in Hpop as [Hperm Hmin].
  assert ((k, u) ∈ pq) as Hin by (rewrite Hperm; by left).
  destruct (inv_key _ _ _ _ HI k u Hin) as (d & Hd & Hfin & Hk).
  exists d. split; [done|]. split; [done|]. intros p Hp.
  destruct (inv_pq _ _ _ _ HI u d Hd Hfin Hu) as (k' & Hk' & Hk'eq).
  pose proof (Hmin _ Hk') as Hle. simpl in Hle.
  destruct (visited_at V source) eqn:Hs.
  - destruct (first_unvisited g V p source u Hs Hp Hu)
      as (p1 & st & p2 & x' & -> & Hp1 & Hx' & Hst & Hy & Hp2).
    destruct (inv_vis _ _ _ _ HI x' Hx') as (dx & Hdx & _ & Hopt).
    specialize (Hopt p1 Hp1).
    destruct (inv_rel _ _ _ _ HI x' st (conj Hx' Hst)) as (_ & _ & Hrel).
    rewrite (at_key_Some _ _ _ Hdx) in Hrel.
    assert (is_Some (G !! fst st)) as [dy Hdy].
    { apply (inv_dom _ _ _ _ HI). by apply (closed x'). }
    rewrite (at_key_Some _ _ _ Hdy) in Hrel.
    rewrite walk_cost_app, walk_cost_cons.
    pose proof (walk_cost_nonneg g _ _ _ nonneg Hp2) as Hp2n.
    pose proof (consistent_walk g h _ _ _ h_consistent Hp2) as Hh.
    destruct (inv_val _ _ _ _ HI _ _ Hdy) as [->|(Hyfin & _)]; [lra|].
    destruct (inv_pq _ _ _ _ HI _ _ Hdy Hyfin Hy) as (ky & Hky & Hkyeq).
    pose proof (Hmin _ Hky) as Hle'. simpl in Hle'. lra.
  - destruct (inv_pq _ _ _ _ HI source 0%Q (inv_src _ _ _ _ HI) DBL_MAX_pos Hs)
      as (ks & Hks & Hkseq).
    pose proof (Hmin _ Hks) as Hle'. simpl in Hle'.
    pose proof (consistent_walk g h _ _ _ h_consistent Hp) as Hh. lra.
Qed.

(** Dropping a queue entry of a visited node. *)
Lemma inv_pop_visited G V pq k u rest :
  Inv G V pq (settled V) ->
  pq_pop pq = Some ((k, u), rest) -> visited_at V u = true ->
  Inv G V rest (settled V).
Proof.
  intros HI Hpop Hu. apply pq_pop_Some in Hpop as [Hperm _].
  destruct HI as [H1 H2 H3 H4 H5 H6 H7]. split; try done.
  - intros v d Hv Hfin Hvis. destruct (H6 v d Hv Hfin Hvis) as (k' & Hk' & Heq).
    exists k'. split; [|done]. rewrite Hperm in Hk'.
    apply elem_of_cons in Hk' as [Hk'|Hk']; [|done]. inversion Hk'; congruence.
  - intros k' v Hin. apply H7. rewrite Hperm. by right.
Qed.

Lemma visited_at_insert V u w :
  visited_at (<[u := true]> V) w = if decide (u = w) then true else visited_at V w.
Proof. unfold visited_at. rewrite lookup_insert. by case_decide. Qed.

(** Marking the popped node as visited, before its roads are relaxed. *)
Lemma inv_visit G V pq k u rest :
  Inv G V pq (settled V) ->
  pq_pop pq = Some ((k, u), rest) -> visited_at V u = false ->
  Inv G (<[u := true]> V) rest (settled V).
Proof.
  intros HI Hpop Hu.
  pose proof (pop_optimal _ _ _ _ _ _ HI Hpop Hu) as Hopt.
  apply pq_pop_Some in Hpop as [Hperm _].
  destruct HI as [H1 H2 H3 H4 H5 H6 H7]. split; try done.
  - intros w. rewrite visited_at_insert. case_decide; [by subst|apply H4].
  - intros w st Hr. destruct (H5 w st Hr) as (Hw & Hst & Hle).
    split; [|done]. rewrite visited_at_insert. by case_decide.
  - intros v d Hv Hfin. rewrite visited_at_insert. case_decide; [done|].
    intros Hvis. destruct (H6 v d Hv Hfin Hvis) as (k' & Hk' & Heq).
    exists k'. split; [|done]. rewrite Hperm in Hk'.
    apply elem_of_cons in Hk' as [Hk'|Hk']; [|done]. inversion Hk'; congruence.
  - intros k' v Hin. apply H7. rewrite Hperm. by right.
Qed.

(** One road out of the visited node [u]. *)
Lemma relax_step G V pq R u v e :
  Inv G V pq R -> visited_at V u = true -> (v, e) ∈ getNeighbors g u ->
  let t := (at_key G u + cost e)%Q in
  (Qltb t (at_key G v) = true ->
     visited_at V v = false /\
     Inv (<[v := t]> G) V ((key v t, v) :: pq)
         (fun w st => R w st \/ (w = u /\ st = (v, e)))) /\
  (Qltb t (at_key G v) = false ->
     Inv G V pq (fun w st => R w st \/ (w = u /\ st = (v, e)))).
Proof.
  intros HI Hu Hin t.
  destruct (inv_vis _ _ _ _ HI u Hu) as (du & Hdu & Hufin & Huopt).
  assert (is_Some (G !! v)) as [dv Hdv].
  { apply (inv_dom _ _ _ _ HI). by apply (closed u (v, e)). }
  assert (0 <= cost e)%Q as Hc by apply (nonneg u (v, e) Hin).
  pose proof (inv_nonneg _ _ _ _ _ _ HI Hdu) as Hdu0.
  assert (t = (du + cost e)%Q) as Ht by (unfold t; by rewrite (at_key_Some _ _ _ Hdu)).
  clearbody t. subst t.
  destruct (inv_val _ _ _ _ HI u du Hdu) as [->|(_ & pu & Hpu & Hpuc)]; [lra|].
  assert (walk g source (pu ++ [(v, e)]) v) as Hpv by apply (walk_snoc g _ _ _ (v, e) Hpu Hin).
  assert (walk_cost (pu ++ [(v, e)]) == du + cost e)%Q as Hpvc.
  { rewrite walk_cost_app, walk_cost_cons.
    change (walk_cost []) with 0%Q. simpl. lra. }
  rewrite (at_key_Some _ _ _ Hdv).
  split.
  - intros Hlt. apply Qltb_true in Hlt.
    assert (visited_at V v = false) as Hv.
    { destruct (visited_at V v) eqn:E; [|done].
      destruct (inv_vis _ _ _ _ HI v E) as (dv' & Hdv' & _ & Hvopt).
      rewrite Hdv in Hdv'. inversion Hdv'; subst dv'.
      specialize (Hvopt _ Hpv). lra. }
    split; [done|].
    assert (u <> v) as Huv by (intros ->; congruence).
    assert (v <> source) as Hvs.
    { intros ->. rewrite (inv_src _ _ _ _ HI) in Hdv. inversion Hdv; subst. lra. }
    pose proof (inv_le_max _ _ _ _ _ _ HI Hdv) as Hdvmax.
    destruct HI as [H1 H2 H3 H4 H5 H6 H7]. split.
    + intros w. rewrite lookup_insert. case_decide; [|apply H1].
      subst w. split; [intros _|done]. apply H1. by exists dv.
    + by rewrite lookup_insert_ne.
    + intros w d. rewrite lookup_insert. case_decide; [|apply H3].
      subst w. intros [= <-]. right. split; [lra|]. by exists (pu ++ [(v, e)]).
    + intros w Hw. rewrite lookup_insert. case_decide; [congruence|by apply H4].
    + intros w st [Hr|[-> ->]].
      * destruct (H5 w st Hr) as (Hw & Hst & Hle). split; [done|]. split; [done|].
        rewrite (at_key_insert G v _ w), (at_key_insert G v _ (fst st)).
        destruct (decide (v = w)) as [->|]; [congruence|].
        destruct (decide (v = fst st)) as [Heq|]; [|done].
        rewrite <- Heq in Hle. rewrite (at_key_Some _ _ _ Hdv) in Hle. lra.
      * split; [done|]. split; [done|]. simpl.
        rewrite (at_key_insert G v _ v), (at_key_insert G v _ u).
        destruct (decide (v = v)); [|done]. destruct (decide (v = u)); [congruence|].
        rewrite (at_key_Some _ _ _ Hdu). lra.
    + intros w d. rewrite lookup_insert. case_decide.
      * subst w. intros [= <-] _ _. exists (key v (du + cost e)%Q).
        split; [by left|apply key_spec].
      * intros Hw Hfin Hvis. destruct (H6 w d Hw Hfin Hvis) as (k' & Hk' & Heq).
        exists k'. split; [by right|done].
    + intros k' w Hk'. apply elem_of_cons in Hk' as [Hk'|Hk'].
      * inversion Hk'; subst. exists (du + cost e)%Q. rewrite lookup_insert_eq.
        split; [done|]. split; [lra|]. rewrite key_spec. lra.
      * destruct (H7 k' w Hk') as (d & Hd & Hfin & Hle).
        rewrite lookup_insert. case_decide; [|by exists d].
        subst w. rewrite Hdv in Hd. inversion Hd; subst d.
        exists (du + cost e)%Q. split; [done|]. split; lra.
  - intros Hge. apply Qltb_false in Hge.
    destruct HI as [H1 H2 H3 H4 H5 H6 H7]. split; try done.
    intros w st [Hr|[-> ->]]; [by apply H5|].
    split; [done|]. split; [done|]. simpl.
    rewrite (at_key_Some _ _ _ Hdv), (at_key_Some _ _ _ Hdu). lra.
Qed.

Lemma Inv_ext G V pq R R' :
  Inv G V pq R -> (forall w st, R' w st -> R w st) -> Inv G V pq R'.
Proof.
  intros [H1 H2 H3 H4 H5 H6 H7] HR. split; try done.
  intros w st Hr. by apply H5, HR.
Qed.

(** All roads out of [u], in the order of its neighbour list. *)
Lemma relax_inv V u nbrs : forall G pq R,
  Inv G V pq R -> visited_at V u = true ->
  (forall st, st ∈ nbrs -> st ∈ getNeighbors g u) ->
  Inv (fst (relax key u nbrs G pq)) V (snd (relax key u nbrs G pq))
      (fun w st => R w st \/ (w = u /\ st ∈ nbrs)).
Proof.
  induction nbrs as [|[v e] nbrs IH]; intros G pq R HI Hu Hsub; simpl.
  - eapply Inv_ext; [exact HI|]. intros w st [Hr|[_ Hin]]; [done|inversion Hin].
  - assert ((v, e) ∈ getNeighbors g u) as Hin by (apply Hsub; by left).
    destruct (relax_step G V pq R u v e HI Hu Hin) as [Hup Hkeep].
    destruct (Qltb _ _) eqn:E.
    + destruct (Hup eq_refl) as [_ HI'].
      eapply Inv_ext; [apply (IH _ _ _ HI' Hu)|].
      * intros st Hst. apply Hsub. by right.
      * intros w st [Hr|[-> Hst]]; [by left; left|].
        apply elem_of_cons in Hst as [->|Hst]; [left; right; done|right; done].
    + specialize (Hkeep eq_refl).
      eapply Inv_ext; [apply (IH _ _ _ Hkeep Hu)|].
      * intros st Hst. apply Hsub. by right.
      * intros w st [Hr|[-> Hst]]; [by left; left|].
        apply elem_of_cons in Hst as [->|Hst]; [left; right; done|right; done].
Qed.

(** A whole round of the search on a node not yet visited. *)
Lemma inv_round G V pq k u rest :
  Inv G V pq (settled V) ->
  pq_pop pq = Some ((k, u), rest) -> visited_at V u = false ->
  Inv (fst (relax key u (getNeighbors g u) G rest)) (<[u := true]> V)
      (snd (relax key u (getNeighbors g u) G rest)) (settled (<[u := true]> V)).
Proof.
  intros HI Hpop Hu.
  pose proof (inv_visit _ _ _ _ _ _ HI Hpop Hu) as HI'.
  eapply Inv_ext.
  - apply (relax_inv (<[u := true]> V) u (getNeighbors g u) _ _ _ HI').
    + rewrite visited_at_insert. by case_decide.
    + done.
  - intros w st [Hw Hst]. rewrite visited_at_insert in Hw.
    case_decide; [subst; by right|]. by left.
Qed.

(** What the invariant says once the queue is empty. *)
Lemma final_state G V :
  Inv G V [] (settled V) ->
  (forall v, v ∈ getAllNodeIds g <-> is_Some (G !! v)) /\
  G !! source = Some 0%Q /\
  (forall v d, G !! v = Some d -> (0 <= d)%Q) /\
  (forall v d, G !! v = Some d -> (d < DBL_MAX)%Q -> min_cost g source v d) /\
  (forall v, G !! v = Some DBL_MAX ->
     forall p, walk g source p v -> (DBL_MAX <= walk_cost p)%Q).
Proof.
  intros HI.
  assert (forall v d, G !! v = Some d -> (d < DBL_MAX)%Q -> visited_at V v = true)
    as Hvis.
  { intros v d Hv Hlt. destruct (visited_at V v) eqn:E; [done|].
    destruct (inv_pq _ _ _ _ HI v d Hv Hlt E) as (k & Hk & _).
    inversion Hk. }
  split; [intros v; symmetry; apply (inv_dom _ _ _ _ HI)|].
  split; [apply (inv_src _ _ _ _ HI)|].
  split; [intros v d Hv; by apply (inv_nonneg G V [] _ v d HI)|].
  split.
  - intros v d Hv Hlt. split.
    + destruct (inv_val _ _ _ _ HI v d Hv) as [->|(_ & p & Hp)]; [lra|].
      by exists p.
    + destruct (inv_vis _ _ _ _ HI v (Hvis v d Hv Hlt)) as (d' & Hd' & _ & Hopt).
      rewrite Hv in Hd'. by inversion Hd'; subst.
  - intros v Hv p Hp.
    assert (visited_at V v = false) as Hv'.
    { destruct (visited_at V v) eqn:E; [|done].
      destruct (inv_vis _ _ _ _ HI v E) as (d' & Hd' & Hlt & _).
      rewrite Hv in Hd'. inversion Hd'; subst. lra. }
    assert (visited_at V source = true) as Hs.
    { apply (Hvis source 0%Q); [apply (inv_src _ _ _ _ HI)|apply DBL_MAX_pos]. }
    destruct (first_unvisited g V p source v Hs Hp Hv')
      as (p1 & st & p2 & x' & -> & Hp1 & Hx' & Hst & Hy & Hp2).
    destruct (inv_vis _ _ _ _ HI x' Hx') as (dx & Hdx & _ & Hopt).
    specialize (Hopt p1 Hp1).
    destruct (inv_rel _ _ _ _ HI x' st (conj Hx' Hst)) as (_ & _ & Hrel).
    rewrite (at_key_Some _ _ _ Hdx) in Hrel.
    assert (is_Some (G !! fst st)) as [dy Hdy].
    { apply (inv_dom _ _ _ _ HI). by apply (closed x'). }
    rewrite (at_key_Some _ _ _ Hdy) in Hrel.
    rewrite walk_cost_app, walk_cost_cons.
    pose proof (walk_cost_nonneg g _ _ _ nonneg Hp2) as Hp2n.
    destruct (inv_val _ _ _ _ HI _ _ Hdy) as [->|(Hyfin & _)]; [lra|].
    rewrite (Hvis _ _ Hdy Hyfin) in Hy. done.
Qed.

End Invariant.

End Search.

(** ** The rounds of a search are bounded *)

Module Fuel.

Import Search.

Section Weight.

Variable g : Graph.

(** Neighbour entries of the nodes not yet visited: the pushes still to come. *)
Definition weight (V : gmap Z bool) : nat :=
  sum_list (map (fun kv => if visited_at V (fst kv) then 0%nat else length (snd kv))
                (map_to_list (adjacencyList g))).

Lemma sum_list_perm (l1 l2 : list nat) : l1 ≡ₚ l2 -> sum_list l1 = sum_list l2.
Proof. induction 1; simpl; lia. Qed.

Lemma weight_le_total V : (weight V <= adj_total g)%nat.
Proof.
  unfold weight, adj_total.
  induction (map_to_list (adjacencyList g)) as [|kv l IH]; simpl; [done|].
  destruct (visited_at V (fst kv)); lia.
Qed.

Lemma weight_visit V u :
  visited_at V u = false ->
  (weight (<[u := true]> V) + length (getNeighbors g u))%nat = weight V.
Proof.
  intros Hu. unfold weight, getNeighbors.
  assert (forall l : list (Z * list (Z * Edge)),
            Forall (fun kv => fst kv <> u) l ->
            map (fun kv => if visited_at (<[u := true]> V) (fst kv)
                           then 0%nat else length (snd kv)) l =
            map (fun kv => if visited_at V (fst kv)
                           then 0%nat else length (snd kv)) l) as Hrest.
  { intros l Hl. induction Hl as [|kv l Hkv _ IH]; simpl; [done|].
    rewrite IH, visited_at_insert. by case_decide. }
  destruct (adjacencyList g !! u) as [nb|] eqn:E.
  - pose proof (map_to_list_delete _ _ _ E) as Hperm.
    rewrite <- (sum_list_perm _ _ (Permutation_map _ Hperm)).
    rewrite <- (sum_list_perm _ _ (Permutation_map _ Hperm)).
    simpl. rewrite visited_at_insert, Hu. case_decide; [|done].
    rewrite Hrest; [lia|].
    apply Forall_forall. intros [k x] Hin. apply elem_of_map_to_list in Hin.
    simpl. intros ->. by rewrite lookup_delete_eq in Hin.
  - rewrite Hrest; [simpl; lia|].
    apply Forall_forall. intros [k x] Hin. apply elem_of_map_to_list in Hin.
    simpl. intros ->. congruence.
Qed.

(** A round on a node not yet visited lowers weight plus queue length. *)
Lemma round_measure key V pq k u rest G :
  pq_pop pq = Some ((k, u), rest) -> visited_at V u = false ->
  (weight (<[u := true]> V)
   + length (snd (relax key u (getNeighbors g u) G rest)) < weight V + length pq)%nat.
Proof.
  intros Hpop Hu. apply Queue.pq_pop_Some in Hpop as [Hperm _].
  apply Permutation_length in Hperm. simpl in Hperm.
  pose proof (relax_length key u (getNeighbors g u) G rest).
  pose proof (weight_visit V u Hu). lia.
Qed.

Lemma skip_measure (pq : list (Q * Z)) k u rest :
  pq_pop pq = Some ((k, u), rest) -> (length rest < length pq)%nat.
Proof.
  intros Hpop. apply Queue.pq_pop_Some in Hpop as [Hperm _].
  apply Permutation_length in Hperm. simpl in Hperm. lia.
Qed.

End Weight.

End Fuel.

(** ** dijkstra *)

Module Dijkstra.

Import Walks Queue Search Fuel.

Definition zero_h : Z -> Q := fun _ => 0%Q.
Definition dist_key : Z -> Q -> Q := fun _ d => d.

Section Correct.

Variable g : Graph.
Variable source : Z.

Hypothesis nonneg : nonneg_costs g.
Hypothesis closed : closed_graph g.
Hypothesis source_node : source ∈ getAllNodeIds g.

Lemma zero_h_consistent : consistent g zero_h.
Proof. intros u st Hst. specialize (nonneg u st Hst). unfold zero_h. lra. Qed.

Lemma dist_key_spec v d : (dist_key v d == d + zero_h v)%Q.
Proof. unfold dist_key, zero_h. ring. Qed.

Local Abbreviation DInv := (Inv g source zero_h).

(** With the invariant, the guard on [visited[v]] and the map entries that
    the reads make change nothing: the neighbour loop is [relax]. *)
Lemma dijkstra_relax_eq V u nbrs : forall G pq R,
  DInv G V pq R -> visited_at V u = true ->
  (forall st, st ∈ nbrs -> st ∈ getNeighbors g u) ->
  dijkstra_relax u nbrs V G pq = relax dist_key u nbrs G pq.
Proof.
  induction nbrs as [|[v e] nbrs IH]; intros G pq R HI Hu Hsub; simpl; [done|].
  assert ((v, e) ∈ getNeighbors g u) as Hin by (apply Hsub; by left).
  destruct (relax_step g source zero_h dist_key nonneg closed dist_key_spec
              G V pq R u v e HI Hu Hin) as [Hup Hkeep].
  assert (forall st, st ∈ nbrs -> st ∈ getNeighbors g u) as Hsub'.
  { intros st Hst. apply Hsub. by right. }
  destruct (visited_at V v) eqn:Hv.
  - destruct (Qltb (at_key G u + cost e) (at_key G v)) eqn:E.
    + destruct (Hup eq_refl). congruence.
    + by apply (IH _ _ _ (Hkeep eq_refl)).
  - assert (touch u G = G) as ->.
    { apply touch_id. destruct (inv_vis _ _ _ _ _ _ _ HI u Hu) as (d & Hd & _).
      by exists d. }
    assert (touch v G = G) as ->.
    { apply touch_id, (inv_dom _ _ _ _ _ _ _ HI). by apply (closed u (v, e)). }
    destruct (Qltb (at_key G u + cost e) (at_key G v)) eqn:E.
    + destruct (Hup eq_refl) as [_ HI'].
      rewrite at_key_insert. destruct (decide (v = v)); [|done].
      by apply (IH _ _ _ HI').
    + by apply (IH _ _ _ (Hkeep eq_refl)).
Qed.

(** The loop returns, in a state where the queue is empty. *)
Lemma dijkstra_loop_inv fuel : forall G V pq,
  DInv G V pq (settled g V) ->
  (weight g V + length pq < fuel)%nat ->
  exists G' V', dijkstra_loop fuel g G V pq = Some G' /\ DInv G' V' [] (settled g V').
Proof.
  induction fuel as [|fuel IH]; intros G V pq HI Hfuel; [lia|]. simpl.
  destruct (pq_pop pq) as [[[k u] rest]|] eqn:Hpop.
  - destruct (visited_at V u) eqn:Hu.
    + apply IH.
      * by apply (inv_pop_visited g source zero_h G V pq k u rest).
      * pose proof (skip_measure pq k u rest Hpop). lia.
    + rewrite (dijkstra_relax_eq (<[u := true]> V) u (getNeighbors g u) G rest
                 (settled g V)).
      * pose proof (inv_round g source zero_h dist_key nonneg closed zero_h_consistent
                      dist_key_spec G V pq k u rest HI Hpop Hu) as HI'.
        pose proof (round_measure g dist_key V pq k u rest G Hpop Hu) as Hm.
        destruct (relax dist_key u (getNeighbors g u) G rest) as [G1 pq1].
        apply IH; [done|]. simpl in Hm. lia.
      * by apply (inv_visit g source zero_h nonneg closed zero_h_consistent
                    G V pq k u rest).
      * rewrite visited_at_insert. by case_decide.
      * done.
  - apply pq_pop_None in Hpop. subst pq. by exists G, V.
Qed.

Lemma dijkstra_init_spec ids : forall (G : gmap Z Q) (V : gmap Z bool),
  let r := fold_left
             (fun st nodeId =>
                (<[nodeId := DBL_MAX]> (fst st), <[nodeId := false]> (snd st)))
             ids (G, V) in
  (forall v, fst r !! v = if decide (v ∈ ids) then Some DBL_MAX else G !! v) /\
  (forall v, visited_at (snd r) v = if decide (v ∈ ids) then false else visited_at V v).
Proof.
  induction ids as [|i ids IH]; intros G V; simpl.
  - split; intros v; by rewrite ?decide_False by apply not_elem_of_nil.
  - destruct (IH (<[i := DBL_MAX]> G) (<[i := false]> V)) as [H1 H2].
    split; intros v.
    + rewrite H1. destruct (decide (v ∈ ids)) as [Hin|Hin].
      * rewrite decide_True; [done|by right].
      * rewrite lookup_insert. destruct (decide (i = v)) as [->|Hne].
        -- rewrite decide_True; [done|by left].
        -- rewrite decide_False; [done|]. intros Hc.
           apply elem_of_cons in Hc as [->|Hc]; done.
    + rewrite H2. destruct (decide (v ∈ ids)) as [Hin|Hin].
      * rewrite decide_True; [done|by right].
      * unfold visited_at at 1. rewrite lookup_insert.
        destruct (decide (i = v)) as [->|Hne].
        -- rewrite decide_True; [done|by left].
        -- rewrite decide_False; [done|]. intros Hc.
           apply elem_of_cons in Hc as [->|Hc]; done.
Qed.

Lemma dijkstra_start G V :
  dijkstra_init (getAllNodeIds g) = (G, V) ->
  DInv (<[source := 0%Q]> G) V [(0%Q, source)] (settled g V).
Proof.
  intros Hinit.
  destruct (dijkstra_init_spec (getAllNodeIds g) ∅ ∅) as [H1 H2].
  unfold dijkstra_init in Hinit. rewrite Hinit in H1, H2. simpl in H1, H2.
  assert (forall v, visited_at V v = false) as Hnone.
  { intros v. rewrite H2. by case_decide. }
  split.
  - intros v. rewrite lookup_insert. case_decide; [by subst|].
    rewrite H1. case_decide; [done|]. rewrite lookup_empty. split; [|done].
    by intros [? ?].
  - by rewrite lookup_insert_eq.
  - intros v d. rewrite lookup_insert. case_decide.
    + intros [= <-]. right. split; [apply DBL_MAX_pos|]. exists []. subst. by split.
    + rewrite H1. case_decide; [|by rewrite lookup_empty]. intros [= <-]. by left.
  - intros u Hu. by rewrite Hnone in Hu.
  - intros u st [Hu _]. by rewrite Hnone in Hu.
  - intros v d. rewrite lookup_insert. case_decide.
    + subst v. intros [= <-] _ _. exists 0%Q. split; [by left|]. unfold zero_h. ring.
    + rewrite H1. case_decide; [|by rewrite lookup_empty].
      intros [= <-] Hlt. lra.
  - intros k v Hin. apply list_elem_of_singleton in Hin. inversion Hin; subst.
    exists 0%Q. rewrite lookup_insert_eq. split; [done|].
    split; [apply DBL_MAX_pos|]. unfold zero_h. lra.
Qed.

Lemma dijkstra_run_inv :
  exists G V, dijkstra_run g source = Some G /\ DInv G V [] (settled g V).
Proof.
  unfold dijkstra_run.
  destruct (dijkstra_init (getAllNodeIds g)) as [G0 V0] eqn:Hinit.
  pose proof (dijkstra_start G0 V0 Hinit) as HI.
  apply dijkstra_loop_inv; [done|].
  unfold search_fuel, pq_push. pose proof (weight_le_total g V0). simpl. lia.
Qed.

End Correct.


(** *** Checks of the two conditions on a given graph *)

Definition all_entries (g : Graph) (P : Z -> Z * Edge -> bool) : bool :=
  forallb (fun kv => forallb (P (fst kv)) (snd kv)) (map_to_list (adjacencyList g)).

Lemma all_entries_spec g P u st :
  all_entries g P = true -> st ∈ getNeighbors g u -> P u st = true.
Proof.
  unfold all_entries, getNeighbors. intros H Hst.
  destruct (adjacencyList g !! u) as [l|] eqn:E; [|inversion Hst].
  rewrite forallb_forall in H.
  assert (In (u, l) (map_to_list (adjacencyList g))) as Hin.
  { apply list_elem_of_In. by apply elem_of_map_to_list. }
  specialize (H _ Hin). simpl in H. rewrite forallb_forall in H.
  apply H. by apply list_elem_of_In.
Qed.

Definition nonneg_check (g : Graph) : bool :=
  all_entries g (fun _ st => Qle_bool 0 (cost (snd st))).

Definition closed_check (g : Graph) : bool :=
  all_entries g (fun _ st => bool_decide (fst st ∈ getAllNodeIds g)).

Lemma nonneg_check_spec g : nonneg_check g = true -> nonneg_costs g.
Proof.
  intros H u st Hst. apply Qle_bool_iff.
  by apply (all_entries_spec g (fun _ st => Qle_bool 0 (cost (snd st))) u st H).
Qed.

Lemma closed_check_spec g : closed_check g = true -> closed_graph g.
Proof.
  intros H u st Hst.
  apply (bool_decide_eq_true (fst st ∈ getAllNodeIds g)).
  by apply (all_entries_spec g
              (fun _ st => bool_decide (fst st ∈ getAllNodeIds g)) u st H).
Qed.

(** *** The run always returns *)

Lemma dijkstra_relax_length u nbrs V : forall G pq,
  (length (snd (dijkstra_relax u nbrs V G pq)) <= length pq + length nbrs)%nat.
Proof.
  induction nbrs as [|[v e] nbrs IH]; intros G pq; simpl; [lia|].
  destruct (visited_at V v); [etransitivity; [apply IH|]; lia|].
  destruct (Qltb _ _); (etransitivity; [apply IH|]); simpl; lia.
Qed.

Lemma dijkstra_loop_total g fuel : forall G V pq,
  (weight g V + length pq < fuel)%nat -> is_Some (dijkstra_loop fuel g G V pq).
Proof.
  induction fuel as [|fuel IH]; intros G V pq Hfuel; [lia|]. simpl.
  destruct (pq_pop pq) as [[[k u] rest]|] eqn:Hpop; [|done].
  pose proof (skip_measure pq k u rest Hpop) as Hskip.
  destruct (visited_at V u) eqn:Hu; [apply IH; lia|].
  pose proof (dijkstra_relax_length u (getNeighbors g u) (<[u := true]> V) G rest) as Hl.
  pose proof (weight_visit g V u Hu) as Hw.
  destruct (dijkstra_relax u (getNeighbors g u) (<[u := true]> V) G rest) as [G1 pq1].
  apply IH. simpl in Hl. lia.
Qed.

Lemma dijkstra_run_total g source : dijkstra_run g source = Some (dijkstra g source).
Proof.
  unfold dijkstra. destruct (dijkstra_run g source) as [D|] eqn:E; [done|].
  unfold dijkstra_run in E.
  destruct (dijkstra_init (getAllNodeIds g)) as [G0 V0].
  destruct (dijkstra_loop_total g (search_fuel g) (<[source := 0%Q]> G0) V0
              (pq_push (0%Q, source) [])) as [D HD]; [|congruence].
  unfold search_fuel, pq_push. pose proof (weight_le_total g V0). simpl. lia.
Qed.

(** *** C4 *)

Lemma walk_step g x st p y :
  st ∈ getNeighbors g x -> walk g (fst st) p y -> walk g x (st :: p) y.
Proof. intros H1 H2. by split. Qed.

(** C4 as worded, for a graph and a source. *)
Definition shortest_for_all (g : Graph) (s : Z) : Prop :=
  (forall v, v ∈ getAllNodeIds g -> is_Some (dijkstra g s !! v)) /\
  dijkstra g s !! s = Some 0%Q /\
  (forall v d, dijkstra g s !! v = Some d -> (0 <= d)%Q) /\
  (forall v, v ∈ getAllNodeIds g -> ~ reachable g s v ->
     dijkstra g s !! v = Some DBL_MAX) /\
  (forall v, v ∈ getAllNodeIds g -> reachable g s v ->
     exists d, dijkstra g s !! v = Some d /\ min_cost g s v d).

(** A road over a place that is in no [addNode] call: 0 - 1 - 2 with 1
    missing from the table. *)
Definition e01 : Edge := mkEdge 0 1 1 1.
Definition e12 : Edge := mkEdge 1 2 1 1.

Definition over_1 : list (Z * Edge) := [(1, e01); (2, e12)].

Definition phantom : Graph :=
  build [OpAddNode (mkNode 0 0 0); OpAddNode (mkNode 2 0 0);
         OpAddEdge e01; OpAddEdge e12].

(** Two roads that are each below the sentinel and together above it. *)
Definition long_road : Q := inject_Z (2 ^ 1023).
Definition f01 : Edge := mkEdge 0 1 long_road 1.
Definition f12 : Edge := mkEdge 1 2 long_road 1.

Definition far : Graph :=
  build [OpAddNode (mkNode 0 0 0); OpAddNode (mkNode 1 0 0); OpAddNode (mkNode 2 0 0);
         OpAddEdge f01; OpAddEdge f12].

(** On [phantom] node 2 is two roads away from 0 and is mapped to the
    sentinel (and the missing id 1 to 0): a neighbour id without a table
    entry reads as distance 0 and is never expanded.  On [far] node 2 is
    reachable at a cost above the sentinel and is mapped to the sentinel. *)
Lemma phantom_and_far :
  (nonneg_costs phantom /\ 0 ∈ getAllNodeIds phantom /\
   dijkstra phantom 0 !! 2 = Some DBL_MAX /\ dijkstra phantom 0 !! 1 = Some 0%Q /\
   ~ shortest_for_all phantom 0) /\
  (nonneg_costs far /\ closed_graph far /\ 0 ∈ getAllNodeIds far /\
   dijkstra far 0 !! 2 = Some DBL_MAX /\ ~ shortest_for_all far 0).
Proof.
  split.
  - split; [by apply nonneg_check_spec; vm_compute|].
    split; [by apply (bool_decide_unpack _); vm_compute|].
    assert (dijkstra phantom 0 !! 2 = Some DBL_MAX) as H2 by (by vm_compute).
    split; [done|]. split; [by vm_compute|].
    assert (walk phantom 0 over_1 2) as Hw.
    { apply walk_step.
      - assert (getNeighbors phantom 0 = [(1, e01)]) as -> by (by vm_compute). by left.
      - apply walk_step; [|done]. simpl.
        assert (getNeighbors phantom 1 = [(0, e01); (2, e12)]) as -> by (by vm_compute).
        right. by left. }
    intros (_ & _ & _ & _ & Hmin).
    destruct (Hmin 2) as (d & Hd & _ & Hle).
    + by apply (bool_decide_unpack _); vm_compute.
    + by exists over_1.
    + rewrite H2 in Hd. inversion Hd; subst d.
      specialize (Hle over_1 Hw).
      assert (walk_cost over_1 < DBL_MAX)%Q as Hn by (by vm_compute).
      lra.
  - split; [by apply nonneg_check_spec; vm_compute|].
    split; [by apply closed_check_spec; vm_compute|].
    split; [by apply (bool_decide_unpack _); vm_compute|].
    assert (dijkstra far 0 !! 2 = Some DBL_MAX) as H2 by (by vm_compute).
    split; [done|].
    intros (_ & _ & _ & _ & Hmin).
    destruct (Hmin 2) as (d & Hd & (p & Hp & Hc) & Hle).
    + by apply (bool_decide_unpack _); vm_compute.
    + exists [(1, f01); (2, f12)]. apply walk_step.
      * assert (getNeighbors far 0 = [(1, f01)]) as -> by (by vm_compute). by left.
      * apply walk_step; [|done]. simpl.
        assert (getNeighbors far 1 = [(0, f01); (2, f12)]) as -> by (by vm_compute).
        right. by left.
    + rewrite H2 in Hd. inversion Hd; subst d. clear Hd Hle Hmin H2.
      assert (nonneg_costs far) as Hnn by (by apply nonneg_check_spec; vm_compute).
      assert (forall u st, st ∈ getNeighbors far u -> (cost (snd st) == long_road)%Q)
        as Hall.
      { intros u st Hst. apply Qeq_bool_iff.
        by apply (all_entries_spec far
                    (fun _ st => Qeq_bool (cost (snd st)) long_road) u st). }
      assert (long_road < DBL_MAX)%Q as Hsmall by (by vm_compute).
      assert (DBL_MAX < long_road + long_road)%Q as Hbig by (by vm_compute).
      pose proof DBL_MAX_pos as Hpos.
      destruct p as [|st1 [|st2 p]].
      * change (walk_cost []) with 0%Q in Hc. lra.
      * destruct Hp as [H1 _]. rewrite walk_cost_cons in Hc.
        change (walk_cost []) with 0%Q in Hc.
        pose proof (Hall _ _ H1). lra.
      * destruct Hp as (H1 & H2 & H3).
        pose proof (walk_cost_nonneg far _ _ _ Hnn H3) as Hrest.
        rewrite !walk_cost_cons in Hc.
        pose proof (Hall _ _ H1). pose proof (Hall _ _ H2). lra.
Qed.

Lemma walk_end_node g :
  closed_graph g ->
  forall p x y, x ∈ getAllNodeIds g -> walk g x p y -> y ∈ getAllNodeIds g.
Proof.
  intros Hcl. induction p as [|st p IH]; intros x y Hx; simpl.
  - by intros <-.
  - intros [Hst Hrest]. apply (IH (fst st)); [|done]. by apply (Hcl x).
Qed.

(** The distances of a run on a graph with no negative cost and no
    neighbour id outside the node table. *)
Lemma dijkstra_distances (g : Graph) (s : Z) :
  nonneg_costs g -> closed_graph g -> s ∈ getAllNodeIds g ->
  dijkstra_run g s = Some (dijkstra g s) /\
  (forall v, v ∈ getAllNodeIds g <-> is_Some (dijkstra g s !! v)) /\
  dijkstra g s !! s = Some 0%Q /\
  (forall v d, dijkstra g s !! v = Some d -> (0 <= d)%Q) /\
  (forall v, v ∈ getAllNodeIds g -> ~ reachable g s v ->
     dijkstra g s !! v = Some DBL_MAX) /\
  (forall v d, dijkstra g s !! v = Some d -> (d < DBL_MAX)%Q -> min_cost g s v d) /\
  (forall v p, walk g s p v -> (walk_cost p < DBL_MAX)%Q ->
     exists d, dijkstra g s !! v = Some d /\ min_cost g s v d).
Proof.
  intros Hnn Hcl Hs.
  destruct (dijkstra_run_inv g s Hnn Hcl Hs) as (G & V & Hrun & HI).
  pose proof (dijkstra_run_total g s) as Htot.
  rewrite Hrun in Htot. inversion Htot as [HG]. rewrite <- HG.
  destruct (final_state g s zero_h Hnn Hcl G V HI) as (H1 & H2 & H3 & H4 & H5).
  split; [done|]. split; [done|]. split; [done|]. split; [done|].
  assert (forall v d, G !! v = Some d -> d = DBL_MAX \/ (d < DBL_MAX)%Q) as Hcase.
  { intros v d Hv. destruct (inv_val _ _ _ _ _ _ _ HI v d Hv) as [->|[Hlt _]]; auto. }
  split; [|split; [done|]].
  - intros v Hv Hnr. apply H1 in Hv as [d Hd].
    destruct (Hcase v d Hd) as [->|Hlt]; [done|].
    destruct (H4 v d Hd Hlt) as [(p & Hp & _) _]. destruct Hnr. by exists p.
  - intros v p Hp Hlt.
    assert (v ∈ getAllNodeIds g) as Hv by apply (walk_end_node g Hcl p s v Hs Hp).
    apply H1 in Hv as [d Hd]. exists d. split; [done|].
    destruct (Hcase v d Hd) as [->|Hd']; [|by apply H4].
    specialize (H5 v Hd p Hp). lra.
Qed.

End Dijkstra.

(** ** astar *)

Module AStar.

Import Walks Queue Search Fuel.

(** *** The predecessor chain and its reconstruction *)

(** [chain cf v l]: following [cf] back from [v] ends at a node without
    predecessor, and [l] lists the nodes met, that node first and [v] last. *)
Inductive chain (cf : gmap Z Z) : Z -> list Z -> Prop :=
| chain_root v : cf !! v = None -> chain cf v [v]
| chain_step v p l :
    cf !! v = Some p -> chain cf p l -> v ∉ l -> chain cf v (l ++ [v]).

Lemma chain_insert cf v l x u :
  chain cf v l -> x ∉ l -> chain (<[x := u]> cf) v l.
Proof.
  induction 1 as [v Hv|v p l Hv Hp IH Hnot]; intros Hx.
  - apply chain_root. rewrite lookup_insert_ne; [done|].
    intros ->. apply Hx. by left.
  - apply not_elem_of_app in Hx as [Hx1 Hx2].
    apply (chain_step _ v p l); [|by apply IH|done].
    rewrite lookup_insert_ne; [done|]. intros ->. apply Hx2. by left.
Qed.

Lemma chain_last cf v l : chain cf v l -> last l = Some v.
Proof. destruct 1; [done|]. by rewrite last_snoc. Qed.

Lemma chain_shape cf v l :
  chain cf v l ->
  NoDup l /\ exists r rest, l = r :: rest /\ forall x, x ∈ rest -> is_Some (cf !! x).
Proof.
  induction 1 as [v Hv|v p l Hv Hp IH Hnot].
  - split; [apply NoDup_singleton|]. exists v, []. split; [done|].
    intros x Hx. inversion Hx.
  - destruct IH as (Hnd & r & rest & -> & Hrest). split.
    + apply NoDup_app. split; [done|]. split; [|apply NoDup_singleton].
      intros x Hx Hx'. apply list_elem_of_singleton in Hx'. by subst.
    + exists r, (rest ++ [v]). split; [done|]. intros x Hx.
      apply elem_of_app in Hx as [Hx|Hx]; [by apply Hrest|].
      apply list_elem_of_singleton in Hx. subst. by exists p.
Qed.

Lemma chain_length cf v l : chain cf v l -> (length l <= S (size cf))%nat.
Proof.
  intros H. apply chain_shape in H as (Hnd & r & rest & -> & Hrest).
  apply NoDup_cons in Hnd as [_ Hnd]. simpl.
  assert (rest ⊆+ map fst (map_to_list cf)) as Hsub.
  { apply NoDup_submseteq; [done|]. intros x Hx.
    destruct (Hrest x Hx) as [p Hp].
    apply list_elem_of_fmap. exists (x, p). split; [done|].
    by apply elem_of_map_to_list. }
  apply submseteq_length in Hsub.
  rewrite length_map, length_map_to_list in Hsub. lia.
Qed.

Lemma reconstruct_chain cf v l :
  chain cf v l -> -1 ∉ l ->
  forall fuel acc, (length l <= fuel)%nat ->
    reconstruct fuel cf v acc = Some (acc ++ rev l).
Proof.
  induction 1 as [v Hv|v p l Hv Hp IH Hnot]; intros Hneg fuel acc Hfuel.
  - assert (v <> -1) as Hne by (intros ->; apply Hneg; by left).
    destruct fuel as [|fuel]; [simpl in Hfuel; lia|]. simpl.
    destruct (Z.eqb_spec v (-1)); [done|]. rewrite Hv.
    by destruct fuel.
  - apply not_elem_of_app in Hneg as [Hneg1 Hneg2].
    assert (v <> -1) as Hne by (intros ->; apply Hneg2; by left).
    rewrite length_app in Hfuel. simpl in Hfuel.
    destruct fuel as [|fuel]; [lia|]. simpl.
    destruct (Z.eqb_spec v (-1)); [done|]. rewrite Hv.
    rewrite IH; [|done|lia]. rewrite rev_app_distr. simpl.
    by rewrite <- app_assoc.
Qed.

Section Correct.

Variable g : Graph.
Variables source target : Z.

Hypothesis nonneg : nonneg_costs g.
Hypothesis closed : closed_graph g.
Hypothesis source_node : source ∈ getAllNodeIds g.
Hypothesis no_minus_one : -1 ∉ getAllNodeIds g.

Definition astar_h : Z -> Q := fun v => heuristic v target.
Definition astar_key : Z -> Q -> Q := fun v d => (d + heuristic v target)%Q.

Hypothesis h_consistent : consistent g astar_h.

Lemma astar_key_spec v d : (astar_key v d == d + astar_h v)%Q.
Proof. unfold astar_key, astar_h. ring. Qed.

Local Abbreviation AInv := (Inv g source astar_h).

(** What [cameFrom] holds, next to the invariant on the costs. *)
Record CF (G : gmap Z Q) (V : gmap Z bool) (cf : gmap Z Z) : Prop := mkCF {
  cf_src : cf !! source = None;
  cf_edge : forall v p, cf !! v = Some p ->
      visited_at V p = true /\
      exists e, (v, e) ∈ getNeighbors g p /\
                (at_key G v == at_key G p + cost e)%Q;
  cf_some : forall v d, G !! v = Some d -> (d < DBL_MAX)%Q -> v <> source ->
      is_Some (cf !! v);
  cf_chain : forall v, visited_at V v = true ->
      exists l, chain cf v l /\ Forall (fun x => visited_at V x = true) l
}.

(** The chain of a node with a cost below the sentinel is a walk from the
    source of that cost. *)
Lemma chain_walk G V pq R cf :
  AInv G V pq R -> CF G V cf ->
  forall v l, chain cf v l ->
    (exists d, G !! v = Some d /\ (d < DBL_MAX)%Q) ->
    exists p, walk g source p v /\ walk_nodes source p = l /\
              (walk_cost p == at_key G v)%Q.
Proof.
  intros HI HC. induction 1 as [v Hv|v x l Hv Hx IH Hnot]; intros (d & Hd & Hfin).
  - assert (v = source) as ->.
    { destruct (decide (v = source)) as [|Hne]; [done|].
      destruct (cf_some _ _ _ HC v d Hd Hfin Hne) as [p Hp]. congruence. }
    exists []. split; [done|]. split; [done|].
    rewrite (at_key_Some _ _ _ (inv_src _ _ _ _ _ _ _ HI)).
    change (walk_cost []) with 0%Q. lra.
  - destruct (cf_edge _ _ _ HC v x Hv) as (Hxv & e & He & Hcost).
    destruct (inv_vis _ _ _ _ _ _ _ HI x Hxv) as (dx & Hdx & Hdxfin & _).
    destruct IH as (p & Hp & Hnodes & Hpc); [by exists dx|].
    exists (p ++ [(v, e)]). split; [apply (walk_snoc g _ _ _ (v, e) Hp He)|].
    split.
    + unfold walk_nodes in *. rewrite map_app. simpl. by rewrite <- Hnodes.
    + rewrite walk_cost_app, walk_cost_cons. change (walk_cost []) with 0%Q.
      simpl. lra.
Qed.

(** Marking the popped node as visited keeps the chains, and gives the
    node its own. *)
Lemma cf_visit G V pq k u rest cf :
  AInv G V pq (settled g V) -> CF G V cf ->
  pq_pop pq = Some ((k, u), rest) -> visited_at V u = false ->
  CF G (<[u := true]> V) cf.
Proof.
  intros HI HC Hpop Hu.
  destruct (pop_optimal g source astar_h nonneg closed h_consistent
              G V pq k u rest HI Hpop Hu) as (d & Hd & Hfin & _).
  destruct HC as [C1 C2 C3 C4]. split; [done| |done|].
  - intros v p Hv. destruct (C2 v p Hv) as [Hp He]. split; [|done].
    rewrite visited_at_insert. by case_decide.
  - assert (forall l, Forall (fun x => visited_at V x = true) l ->
                      Forall (fun x => visited_at (<[u := true]> V) x = true) l) as Hmono.
    { intros l Hl. eapply Forall_impl; [exact Hl|]. intros x Hx.
      rewrite visited_at_insert. by case_decide. }
    intros v. rewrite visited_at_insert. case_decide as Huv; [subst v; intros _|].
    + destruct (decide (u = source)) as [->|Hne].
      * exists [source]. split; [by apply chain_root|].
        constructor; [|done]. rewrite visited_at_insert. by case_decide.
      * destruct (C3 u d Hd Hfin Hne) as [p Hp].
        destruct (C2 u p Hp) as [Hpv _].
        destruct (C4 p Hpv) as (l & Hl & Hlv).
        exists (l ++ [u]). split.
        -- apply (chain_step cf u p l Hp Hl). intros Hin.
           rewrite Forall_forall in Hlv. specialize (Hlv u Hin). congruence.
        -- apply Forall_app. split; [by apply Hmono|].
           constructor; [|done]. rewrite visited_at_insert. by case_decide.
    + intros Hv. destruct (C4 v Hv) as (l & Hl & Hlv). exists l.
      split; [done|by apply Hmono].
Qed.

(** A lowered cost comes with a new predecessor. *)
Lemma cf_update G V pq R cf u v e :
  AInv G V pq R -> CF G V cf ->
  visited_at V u = true -> visited_at V v = false ->
  (v, e) ∈ getNeighbors g u ->
  (at_key G u + cost e < at_key G v)%Q ->
  CF (<[v := (at_key G u + cost e)%Q]> G) V (<[v := u]> cf).
Proof.
  intros HI HC Hu Hv Hin Hlt.
  assert (u <> v) as Huv by (intros ->; congruence).
  assert (v <> source) as Hvs.
  { intros ->. rewrite (at_key_Some _ _ _ (inv_src _ _ _ _ _ _ _ HI)) in Hlt.
    destruct (inv_vis _ _ _ _ _ _ _ HI u Hu) as (du & Hdu & _).
    pose proof (inv_nonneg g source astar_h nonneg _ _ _ _ _ _ HI Hdu).
    pose proof (nonneg u (source, e) Hin). simpl in *.
    rewrite (at_key_Some _ _ _ Hdu) in Hlt. lra. }
  destruct HC as [C1 C2 C3 C4]. split.
  - by rewrite lookup_insert_ne.
  - intros w p. rewrite lookup_insert. case_decide as Hvw.
    + subst w. intros [= <-]. split; [done|]. exists e. split; [done|].
      rewrite (at_key_insert G v _ v), (at_key_insert G v _ u).
      destruct (decide (v = v)); [|done]. destruct (decide (v = u)); [congruence|].
      lra.
    + intros Hw. destruct (C2 w p Hw) as (Hp & e' & He' & Hc).
      split; [done|]. exists e'. split; [done|].
      rewrite (at_key_insert G v _ w), (at_key_insert G v _ p).
      destruct (decide (v = w)); [done|].
      destruct (decide (v = p)); [congruence|done].
  - intros w d. rewrite !lookup_insert. case_decide; [done|]. apply C3.
  - intros w Hw. destruct (C4 w Hw) as (l & Hl & Hlv). exists l.
    split; [|done]. apply chain_insert; [done|]. intros Hin'.
    rewrite Forall_forall in Hlv. specialize (Hlv v Hin'). congruence.
Qed.

(** The neighbour loop of [astar] is [relax], and keeps [CF]. *)
Lemma astar_relax_spec V u nbrs : forall st R,
  AInv (gScore st) V (open_pq st) R -> CF (gScore st) V (cameFrom st) ->
  visited_at V u = true ->
  (forall x, x ∈ nbrs -> x ∈ getNeighbors g u) ->
  gScore (astar_relax u target nbrs st)
    = fst (relax astar_key u nbrs (gScore st) (open_pq st)) /\
  open_pq (astar_relax u target nbrs st)
    = snd (relax astar_key u nbrs (gScore st) (open_pq st)) /\
  CF (gScore (astar_relax u target nbrs st)) V (cameFrom (astar_relax u target nbrs st)).
Proof.
  induction nbrs as [|[v e] nbrs IH]; intros st R HI HC Hu Hsub; [done|].
  assert ((v, e) ∈ getNeighbors g u) as Hin by (apply Hsub; by left).
  assert (forall x, x ∈ nbrs -> x ∈ getNeighbors g u) as Hsub'.
  { intros x Hx. apply Hsub. by right. }
  destruct (relax_step g source astar_h astar_key nonneg closed astar_key_spec
              (gScore st) V (open_pq st) R u v e HI Hu Hin) as [Hup Hkeep].
  assert (touch u (gScore st) = gScore st) as Htu.
  { apply touch_id. destruct (inv_vis _ _ _ _ _ _ _ HI u Hu) as (d & Hd & _).
    by exists d. }
  assert (touch v (gScore st) = gScore st) as Htv.
  { apply touch_id, (inv_dom _ _ _ _ _ _ _ HI). by apply (closed u (v, e)). }
  cbn [astar_relax relax]. rewrite Htu, Htv.
  destruct (Qltb (at_key (gScore st) u + cost e) (at_key (gScore st) v)) eqn:E.
  - destruct (Hup eq_refl) as [Hv HI'].
    rewrite !at_key_insert. destruct (decide (v = v)); [|done].
    apply (IH (mkAStar _ _ _ _) _ HI'); [|done|done].
    simpl. apply Qltb_true in E.
    apply (cf_update (gScore st) V (open_pq st) R (cameFrom st) u v e HI HC Hu Hv Hin E).
  - destruct st as [G fS cf pq]. simpl in *.
    by apply (IH (mkAStar G fS cf pq) _ (Hkeep eq_refl)).
Qed.

(** The path the search returns: the nodes of a walk of least cost. *)
Definition optimal_path (path : list Z) : Prop :=
  exists p d, walk g source p target /\ walk_nodes source p = path /\
              (walk_cost p == d)%Q /\ min_cost g source target d.

Lemma astar_loop_spec fuel : forall V st,
  AInv (gScore st) V (open_pq st) (settled g V) -> CF (gScore st) V (cameFrom st) ->
  visited_at V target = false ->
  (weight g V + length (open_pq st) < fuel)%nat ->
  (exists path, astar_loop fuel g target V st = Some path /\ optimal_path path) \/
  (exists G' V', AInv G' V' [] (settled g V') /\ visited_at V' target = false).
Proof.
  induction fuel as [|fuel IH]; intros V st HI HC Ht Hfuel; [lia|].
  cbn [astar_loop].
  destruct (pq_pop (open_pq st)) as [[[k u] rest]|] eqn:Hpop.
  - destruct (visited_at V u) eqn:Hu.
    + apply (IH V (mkAStar _ _ _ _)); simpl; [|done|done|].
      * apply (inv_pop_visited g source astar_h (gScore st) V (open_pq st)
                 k u rest HI Hpop Hu).
      * pose proof (skip_measure _ k u rest Hpop). lia.
    + destruct (Z.eqb_spec u target) as [->|Hne].
      * left.
        destruct (pop_optimal g source astar_h nonneg closed h_consistent
                    _ V _ k target rest HI Hpop Hu) as (d & Hd & Hfin & Hopt).
        pose proof (cf_visit _ _ _ _ _ _ _ HI HC Hpop Hu) as HC'.
        destruct (cf_chain _ _ _ HC' target) as (l & Hl & Hlv).
        { rewrite visited_at_insert. by case_decide. }
        pose proof (inv_visit g source astar_h nonneg closed h_consistent
                      _ V _ k target rest HI Hpop Hu) as HI'.
        assert (-1 ∉ l) as Hneg.
        { intros Hin. rewrite Forall_forall in Hlv. specialize (Hlv _ Hin).
          destruct (inv_vis _ _ _ _ _ _ _ HI' (-1) Hlv) as (d' & Hd' & _).
          apply no_minus_one, (inv_dom _ _ _ _ _ _ _ HI'). by exists d'. }
        rewrite (reconstruct_chain _ _ _ Hl Hneg _ [] (chain_length _ _ _ Hl)).
        simpl. rewrite rev_involutive. exists l. split; [done|].
        destruct (chain_walk _ _ _ _ _ HI' HC' target l Hl) as (p & Hp & Hnodes & Hpc);
          [by exists d|].
        exists p, d. split; [done|]. split; [done|].
        rewrite (at_key_Some _ _ _ Hd) in Hpc. split; [done|].
        split; [by exists p|done].
      * pose proof (inv_visit g source astar_h nonneg closed h_consistent
                      _ V _ k u rest HI Hpop Hu) as HI'.
        pose proof (cf_visit _ _ _ _ _ _ _ HI HC Hpop Hu) as HC'.
        pose proof (inv_round g source astar_h astar_key nonneg closed h_consistent
                      astar_key_spec _ V _ k u rest HI Hpop Hu) as HI2.
        pose proof (round_measure g astar_key V _ k u rest (gScore st) Hpop Hu) as Hm.
        destruct (astar_relax_spec (<[u := true]> V) u (getNeighbors g u)
                    (mkAStar (gScore st) (fScore st) (cameFrom st) rest)
                    (settled g V) HI' HC') as (HG & Hpq & HC2).
        { rewrite visited_at_insert. by case_decide. }
        { done. }
        simpl in HG, Hpq.
        apply IH.
        -- by rewrite HG, Hpq.
        -- done.
        -- rewrite visited_at_insert. by case_decide.
        -- rewrite Hpq. lia.
  - right. apply pq_pop_None in Hpop. exists (gScore st), V.
    rewrite Hpop in HI. done.
Qed.

End Correct.


(** *** The main loop never runs out of rounds *)

Lemma astar_relax_length u target nbrs : forall st,
  (length (open_pq (astar_relax u target nbrs st))
   <= length (open_pq st) + length nbrs)%nat.
Proof.
  induction nbrs as [|[v e] nbrs IH]; intros st; cbn [astar_relax]; [simpl; lia|].
  destruct (Qltb _ _); (etransitivity; [apply IH|]); simpl; lia.
Qed.

(** A run of the main loop that gives no result has reached the target and
    failed to walk the predecessors back. *)
Lemma astar_loop_None g target fuel : forall V st,
  (weight g V + length (open_pq st) < fuel)%nat ->
  astar_loop fuel g target V st = None ->
  exists cf, reconstruct (S (size cf)) cf target [] = None.
Proof.
  induction fuel as [|fuel IH]; intros V st Hfuel; [lia|]. cbn [astar_loop].
  destruct (pq_pop (open_pq st)) as [[[k u] rest]|] eqn:Hpop; [|done].
  pose proof (skip_measure _ k u rest Hpop) as Hskip.
  destruct (visited_at V u) eqn:Hu.
  - apply IH. simpl. lia.
  - destruct (Z.eqb u target).
    + destruct (reconstruct (S (size (cameFrom st))) (cameFrom st) target []) eqn:E;
        [done|]. intros _. by exists (cameFrom st).
    + apply IH.
      pose proof (astar_relax_length u target (getNeighbors g u)
                    (mkAStar (gScore st) (fScore st) (cameFrom st) rest)) as Hl.
      pose proof (weight_visit g V u Hu). simpl in Hl. lia.
Qed.

(** *** The initial state *)

Lemma astar_init_spec ids : forall (G F : gmap Z Q) (V : gmap Z bool),
  let r := fold_left
             (fun st nodeId =>
                (<[nodeId := DBL_MAX]> (fst (fst st)),
                 <[nodeId := DBL_MAX]> (snd (fst st)),
                 <[nodeId := false]> (snd st)))
             ids (G, F, V) in
  (forall v, fst (fst r) !! v = if decide (v ∈ ids) then Some DBL_MAX else G !! v) /\
  (forall v, visited_at (snd r) v = if decide (v ∈ ids) then false else visited_at V v).
Proof.
  induction ids as [|i ids IH]; intros G F V; simpl.
  - split; intros v; by rewrite ?decide_False by apply not_elem_of_nil.
  - destruct (IH (<[i := DBL_MAX]> G) (<[i := DBL_MAX]> F) (<[i := false]> V)) as [H1 H2].
    split; intros v.
    + rewrite H1. destruct (decide (v ∈ ids)) as [Hin|Hin].
      * rewrite decide_True; [done|by right].
      * rewrite lookup_insert. destruct (decide (i = v)) as [->|Hne].
        -- rewrite decide_True; [done|by left].
        -- rewrite decide_False; [done|]. intros Hc.
           apply elem_of_cons in Hc as [->|Hc]; done.
    + rewrite H2. destruct (decide (v ∈ ids)) as [Hin|Hin].
      * rewrite decide_True; [done|by right].
      * unfold visited_at at 1. rewrite lookup_insert.
        destruct (decide (i = v)) as [->|Hne].
        -- rewrite decide_True; [done|by left].
        -- rewrite decide_False; [done|]. intros Hc.
           apply elem_of_cons in Hc as [->|Hc]; done.
Qed.

Lemma astar_start g source target G F V :
  source ∈ getAllNodeIds g ->
  astar_init (getAllNodeIds g) = (G, F, V) ->
  Inv g source (astar_h target) (<[source := 0%Q]> G) V
      [(heuristic source target, source)] (settled g V) /\
  CF g source (<[source := 0%Q]> G) V ∅ /\
  forall v, visited_at V v = false.
Proof.
  intros Hs Hinit.
  destruct (astar_init_spec (getAllNodeIds g) ∅ ∅ ∅) as [H1 H2].
  unfold astar_init in Hinit. rewrite Hinit in H1, H2. simpl in H1, H2.
  assert (forall v, visited_at V v = false) as Hnone.
  { intros v. rewrite H2. by case_decide. }
  split; [|split; [|done]].
  - split.
    + intros v. rewrite lookup_insert. case_decide; [by subst|].
      rewrite H1. case_decide; [done|]. rewrite lookup_empty. split; [|done].
      by intros [? ?].
    + by rewrite lookup_insert_eq.
    + intros v d. rewrite lookup_insert. case_decide.
      * intros [= <-]. right. split; [apply DBL_MAX_pos|]. exists []. subst. by split.
      * rewrite H1. case_decide; [|by rewrite lookup_empty]. intros [= <-]. by left.
    + intros u Hu. by rewrite Hnone in Hu.
    + intros u st [Hu _]. by rewrite Hnone in Hu.
    + intros v d. rewrite lookup_insert. case_decide.
      * subst v. intros [= <-] _ _. exists (heuristic source target).
        split; [by left|]. unfold astar_h. ring.
      * rewrite H1. case_decide; [|by rewrite lookup_empty].
        intros [= <-] Hlt. lra.
    + intros k v Hin. apply list_elem_of_singleton in Hin. inversion Hin; subst.
      exists 0%Q. rewrite lookup_insert_eq. split; [done|].
      split; [apply DBL_MAX_pos|]. unfold astar_h. lra.
  - split.
    + apply lookup_empty.
    + intros v p Hv. by rewrite lookup_empty in Hv.
    + intros v d. rewrite lookup_insert. case_decide; [done|].
      rewrite H1. case_decide; [|by rewrite lookup_empty].
      intros [= <-] Hlt. lra.
    + intros v Hv. by rewrite Hnone in Hv.
Qed.

(** *** C8 *)

(** The heuristic never overestimates the cost that remains to [t]. *)
Definition admissible (g : Graph) (t : Z) : Prop :=
  forall v p, walk g v p t -> (heuristic v t <= walk_cost p)%Q.

(** C8 as worded: the cost of the returned path, read with
    [getEdgeCost] along the path, is the distance [dijkstra] gives. *)
Definition path_cost_matches (g : Graph) (s t : Z) : Prop :=
  exists path c d,
    astar g s t = Some path /\ route_cost g path = Some c /\
    dijkstra g s !! t = Some d /\ (c == d)%Q.

(** From 3 the target 0 is 12 away over 4 and 1, and 12.5 away over 2; the
    road from 3 to 1 costs 3. *)
Definition detour : Graph :=
  build [OpAddNode (mkNode 0 0 0); OpAddNode (mkNode 1 0 0); OpAddNode (mkNode 2 0 0);
         OpAddNode (mkNode 3 0 0); OpAddNode (mkNode 4 0 0);
         OpAddEdge (mkEdge 3 1 3 1); OpAddEdge (mkEdge 3 4 1 1);
         OpAddEdge (mkEdge 4 1 1 1); OpAddEdge (mkEdge 1 0 10 1);
         OpAddEdge (mkEdge 3 2 2.5 1); OpAddEdge (mkEdge 2 0 10 1)].

Lemma walk_last_step g :
  nonneg_costs g ->
  forall p x y, walk g x p y -> p <> [] ->
    exists z st, st ∈ getNeighbors g z /\ fst st = y /\
                 (cost (snd st) <= walk_cost p)%Q.
Proof.
  intros Hnn. induction p as [|st p IH]; intros x y Hw Hne; [done|].
  destruct Hw as [Hst Hrest]. destruct p as [|st' p].
  - simpl in Hrest. exists x, st. split; [done|]. split; [done|].
    rewrite walk_cost_cons. change (walk_cost []) with 0%Q. lra.
  - destruct (IH _ _ Hrest) as (z & stl & Hl & Hy & Hc); [done|].
    exists z, stl. split; [done|]. split; [done|].
    rewrite walk_cost_cons. pose proof (Hnn x st Hst). lra.
Qed.

(** On [detour] the heuristic is admissible for target 0, yet the search
    from 3 closes node 1 at cost 3 before the way over 4 lowers it to 2,
    does not expand it again, and returns the path over 2 of cost 12.5,
    while the distance is 12. *)
Lemma detour_not_optimal :
  nonneg_costs detour /\ closed_graph detour /\
  3 ∈ getAllNodeIds detour /\ 0 ∈ getAllNodeIds detour /\
  admissible detour 0 /\
  astar detour 3 0 = Some [3; 2; 0] /\
  route_cost detour [3; 2; 0] = Some 12.5%Q /\
  dijkstra detour 3 !! 0 = Some 12%Q /\
  ~ path_cost_matches detour 3 0.
Proof.
  assert (nonneg_costs detour) as Hnn
    by (by apply Dijkstra.nonneg_check_spec; vm_compute).
  split; [done|].
  split; [by apply Dijkstra.closed_check_spec; vm_compute|].
  split; [by apply (bool_decide_unpack _); vm_compute|].
  split; [by apply (bool_decide_unpack _); vm_compute|].
  assert (astar detour 3 0 = Some [3; 2; 0]) as Ha by (by vm_compute).
  assert (route_cost detour [3; 2; 0] = Some 12.5%Q) as Hr by (by vm_compute).
  assert (dijkstra detour 3 !! 0 = Some 12%Q) as Hd by (by vm_compute).
  split; [|split; [done|split; [done|split; [done|]]]].
  - intros v p Hp. destruct p as [|st0 p0].
    + simpl in Hp. subst v. by vm_compute.
    + destruct (walk_last_step detour Hnn _ _ _ Hp) as (z & stl & Hl & Hy & Hc); [done|].
      destruct Hp as [Hst0 _].
      assert ((Z.abs v <=? 4) = true) as Hv.
      { by apply (Dijkstra.all_entries_spec detour
                    (fun u _ => Z.abs u <=? 4) v st0). }
      assert ((negb (fst stl =? 0) || Qle_bool 10 (cost (snd stl))) = true) as Hten.
      { by apply (Dijkstra.all_entries_spec detour
                    (fun _ st => negb (fst st =? 0) || Qle_bool 10 (cost (snd st)))
                    z stl). }
      rewrite Hy in Hten. simpl in Hten. apply Qle_bool_iff in Hten.
      apply Z.leb_le in Hv.
      assert (heuristic v 0 <= 4)%Q as Hh.
      { unfold heuristic. rewrite Z.sub_0_r, (wrap_id v), wrap_id by lia.
        change 4%Q with (inject_Z 4). rewrite <- Zle_Qle. lia. }
      lra.
  - intros (path & c & d & Ha' & Hr' & Hd' & Hcd).
    rewrite Ha in Ha'. inversion Ha'; subst path.
    rewrite Hr in Hr'. inversion Hr'; subst c.
    rewrite Hd in Hd'. inversion Hd'; subst d.
    by vm_compute in Hcd.
Qed.

(** Two more ways for the path and the distance to differ, with a
    heuristic that is consistent.  A target out of reach: the empty path of
    cost 0 against the sentinel.  A target whose id is -1: the reconstruction
    loop takes the id for its end mark and returns the empty path. *)
Definition apart : Graph :=
  build [OpAddNode (mkNode 0 0 0); OpAddNode (mkNode 1 0 0)].

Definition minus_one : Graph :=
  build [OpAddNode (mkNode 0 0 0); OpAddNode (mkNode (-1) 0 0);
         OpAddEdge (mkEdge 0 (-1) 1 1)].

Example astar_empty_paths :
  (astar apart 0 1 = Some [] /\ route_cost apart [] = Some 0%Q /\
   dijkstra apart 0 !! 1 = Some DBL_MAX) /\
  (astar minus_one 0 (-1) = Some [] /\ dijkstra minus_one 0 !! (-1) = Some 1%Q).
Proof. by vm_compute. Qed.

Definition consistent_check (g : Graph) (t : Z) : bool :=
  Dijkstra.all_entries g
    (fun u st => Qle_bool (heuristic u t) (cost (snd st) + heuristic (fst st) t)).

Lemma consistent_check_spec g t :
  consistent_check g t = true -> consistent g (fun v => heuristic v t).
Proof.
  intros H u st Hst. apply Qle_bool_iff.
  by apply (Dijkstra.all_entries_spec g
              (fun u st => Qle_bool (heuristic u t)
                                    (cost (snd st) + heuristic (fst st) t)) u st H).
Qed.

(** With no negative cost, every neighbour id in the node table, -1 not in
    it, the source in it and a consistent heuristic, [astar] returns for a
    target at a distance below the sentinel the nodes of a walk whose roads
    cost that distance in total. *)
Lemma astar_least_walk (g : Graph) (source target : Z) (d : Q) :
  nonneg_costs g -> closed_graph g ->
  source ∈ getAllNodeIds g -> -1 ∉ getAllNodeIds g ->
  consistent g (fun v => heuristic v target) ->
  dijkstra g source !! target = Some d -> (d < DBL_MAX)%Q ->
  exists path p,
    astar g source target = Some path /\
    walk g source p target /\ walk_nodes source p = path /\
    (walk_cost p == d)%Q.
Proof.
  intros Hnn Hcl Hs Hneg Hcon Hd Hfin.
  destruct (Dijkstra.dijkstra_distances g source Hnn Hcl Hs)
    as (_ & Hdom & _ & _ & _ & Hmin & _).
  pose proof (Hmin target d Hd Hfin) as Hmc.
  unfold astar.
  destruct (astar_init (getAllNodeIds g)) as [[G0 F0] V0] eqn:Hinit.
  destruct (astar_start g source target G0 F0 V0 Hs Hinit) as (HI & HC & Hnone).
  rewrite at_key_insert. destruct (decide (source = source)); [|done].
  destruct (astar_loop_spec g source target Hnn Hcl Hneg Hcon (search_fuel g) V0
              (mkAStar (<[source := 0%Q]> G0)
                       (<[source := heuristic source target]> F0) ∅
                       (pq_push (heuristic source target, source) [])))
    as [(path & Hrun & p & d' & Hp & Hnodes & Hc & Hmc')
       |(G' & V' & HI' & Ht')].
  - done.
  - done.
  - apply Hnone.
  - unfold search_fuel, pq_push. pose proof (weight_le_total g V0). simpl. lia.
  - exists path, p. split; [done|]. split; [done|]. split; [done|].
    rewrite Hc. apply (min_cost_unique g source target); done.
  - exfalso. destruct Hmc as [(p0 & Hp0 & Hc0) _].
    assert (is_Some (G' !! target)) as [dt Hdt].
    { apply (inv_dom _ _ _ _ _ _ _ HI'), Hdom. by exists d. }
    destruct (final_state g source (astar_h target) Hnn Hcl G' V' HI')
      as (_ & _ & _ & _ & H5).
    destruct (inv_val _ _ _ _ _ _ _ HI' target dt Hdt) as [->|[Hlt _]].
    + specialize (H5 target Hdt p0 Hp0). lra.
    + destruct (inv_pq _ _ _ _ _ _ _ HI' target dt Hdt Hlt Ht') as (k & Hk & _).
      inversion Hk.
Qed.

End AStar.

(** * Further properties of the code *)

(** ** graph.h: the node table and the adjacency lists *)

Module GraphFacts.

(** *** Node table *)

Lemma nodes_find_overwrite k n l j :
  nodes_find j (nodes_overwrite k n l) =
  if Z.eqb k j
  then match nodes_find k l with Some _ => Some n | None => None end
  else nodes_find j l.
Proof.
  induction l as [|[k' n'] l IH]; simpl.
  - by destruct (Z.eqb k j).
  - destruct (Z.eqb_spec k' k) as [->|Hne]; simpl.
    + rewrite ?Z.eqb_refl. by destruct (Z.eqb k j).
    + rewrite IH. destruct (Z.eqb_spec k j) as [->|Hkj]; [|done].
      by destruct (Z.eqb_spec k' j).
Qed.

Lemma getNode_addNode n g j :
  getNode (addNode n g) j = if Z.eqb (node_id n) j then Some n else getNode g j.
Proof.
  unfold getNode, addNode, nodes_assign. simpl.
  destruct (nodes_find (node_id n) (nodes g)) eqn:E.
  - by rewrite nodes_find_overwrite, E.
  - simpl. done.
Qed.

(** The node of the last [addNode] call for the id [j], if any. *)
Definition last_added (j : Z) (ops : list GraphOp) : option Node :=
  fold_left
    (fun acc op =>
       match op with
       | OpAddNode n => if Z.eqb (node_id n) j then Some n else acc
       | OpAddEdge _ => acc
       end)
    ops None.

Lemma getNode_fold j ops : forall g acc,
  getNode g j = acc ->
  getNode (fold_left apply_op ops g) j =
  fold_left
    (fun acc op =>
       match op with
       | OpAddNode n => if Z.eqb (node_id n) j then Some n else acc
       | OpAddEdge _ => acc
       end)
    ops acc.
Proof.
  induction ops as [|[n|e] ops IH]; intros g acc Hg; simpl; [done| |].
  - apply IH. rewrite getNode_addNode. by rewrite Hg.
  - by apply IH.
Qed.

Lemma last_added_None j ops :
  (forall m, OpAddNode m ∈ ops -> node_id m <> j) -> last_added j ops = None.
Proof.
  unfold last_added.
  assert (forall acc, acc = None ->
            (forall m, OpAddNode m ∈ ops -> node_id m <> j) ->
            fold_left
              (fun acc op =>
                 match op with
                 | OpAddNode n => if Z.eqb (node_id n) j then Some n else acc
                 | OpAddEdge _ => acc
                 end) ops acc = None) as H.
  { induction ops as [|[m|e] ops IH]; intros acc -> Hnone; simpl; [done| |].
    - apply IH.
      + destruct (Z.eqb_spec (node_id m) j) as [Heq|]; [|done].
        destruct (Hnone m); [by left|done].
      + intros m' Hm'. apply Hnone. by right.
    - apply IH; [done|]. intros m' Hm'. apply Hnone. by right. }
  by apply H.
Qed.

(** X1: a lookup after [addNode] gives the new node for its id and the old
    answer for every other id; on a graph made by calls, [getNode] gives the
    node of the last [addNode] call for the id, and nothing for an id that no
    call added. *)
Theorem getNode_last_write (n : Node) (g : Graph) (ops : list GraphOp) (j : Z) :
  getNode (addNode n g) (node_id n) = Some n /\
  (j <> node_id n -> getNode (addNode n g) j = getNode g j) /\
  getNode (build ops) j = last_added j ops /\
  ((forall m, OpAddNode m ∈ ops -> node_id m <> j) -> getNode (build ops) j = None).
Proof.
  split; [by rewrite getNode_addNode, Z.eqb_refl|]. split.
  - intros Hj. rewrite getNode_addNode. by destruct (Z.eqb_spec (node_id n) j).
  - assert (getNode (build ops) j = last_added j ops) as Hb
      by (by apply getNode_fold).
    split; [done|]. intros Hnone. rewrite Hb. by apply last_added_None.
Qed.

Definition three_calls : list GraphOp :=
  [OpAddNode (mkNode 4 1 1); OpAddEdge (mkEdge 4 9 2 1); OpAddNode (mkNode 4 7 3)].

Lemma getNode_last_write_witness :
  5 <> node_id (mkNode 4 7 3) /\
  getNode (addNode (mkNode 4 7 3) empty_graph) 5 = getNode empty_graph 5 /\
  (forall m, OpAddNode m ∈ three_calls -> node_id m <> 9) /\
  getNode (build three_calls) 9 = None.
Proof.
  assert (5 <> node_id (mkNode 4 7 3)) as H1 by (simpl; lia).
  assert (forall m, OpAddNode m ∈ three_calls -> node_id m <> 9) as H2.
  { intros m Hm. unfold three_calls in Hm.
    repeat (apply elem_of_cons in Hm as [Hm|Hm]; [inversion Hm; simpl; lia|]).
    inversion Hm. }
  split; [exact H1|].
  destruct (getNode_last_write (mkNode 4 7 3) empty_graph three_calls 5)
    as (_ & Hother & _).
  split; [exact (Hother H1)|]. split; [exact H2|].
  exact (proj2 (proj2 (proj2
           (getNode_last_write (mkNode 4 7 3) empty_graph three_calls 9))) H2).
Defined.

(** Ids in the table of a graph made by calls: those of the [addNode] calls. *)
Lemma ids_addNode n g x :
  x ∈ getAllNodeIds (addNode n g) <-> x = node_id n \/ x ∈ getAllNodeIds g.
Proof.
  unfold getAllNodeIds, addNode, nodes_assign. simpl.
  destruct (nodes_find (node_id n) (nodes g)) eqn:E.
  - rewrite Allocation.nodes_overwrite_keys. split; [by right|].
    intros [->|H]; [|done].
    clear -E. induction (nodes g) as [|[k' n'] l IH]; simpl in *; [done|].
    destruct (Z.eqb_spec k' (node_id n)) as [->|]; [by left|].
    right. by apply IH.
  - simpl. by rewrite elem_of_cons.
Qed.

Lemma ids_build ops x :
  x ∈ getAllNodeIds (build ops) <-> exists n, OpAddNode n ∈ ops /\ node_id n = x.
Proof.
  unfold build.
  assert (forall g,
            x ∈ getAllNodeIds (fold_left apply_op ops g) <->
            x ∈ getAllNodeIds g \/ exists n, OpAddNode n ∈ ops /\ node_id n = x) as H.
  { induction ops as [|[n|e] ops IH]; intros g; simpl.
    - split; [by left|]. intros [H|(n & Hn & _)]; [done|inversion Hn].
    - rewrite IH, ids_addNode. split.
      + intros [[->|H]|(m & Hm & Hx)].
        * right. exists n. split; [by left|done].
        * by left.
        * right. exists m. split; [by right|done].
      + intros [H|(m & Hm & Hx)]; [left; by right|].
        apply elem_of_cons in Hm as [Hm|Hm].
        * inversion Hm; subst. left. by left.
        * right. by exists m.
    - rewrite IH. split.
      + intros [H|(m & Hm & Hx)]; [by left|]. right. exists m. split; [by right|done].
      + intros [H|(m & Hm & Hx)]; [by left|].
        apply elem_of_cons in Hm as [Hm|Hm]; [inversion Hm|].
        right. by exists m. }
  rewrite H. split; [|by right]. intros [Hx|Hx]; [inversion Hx|done].
Qed.

(** The ids of the [addNode] calls, in call order. *)
Definition added_ids (ops : list GraphOp) : list Z :=
  omap (fun op => match op with OpAddNode n => Some (node_id n) | _ => None end) ops.

(** X2: the node count of a graph made by calls is the number of different
    ids among the [addNode] calls: adding an id again overwrites and does not
    grow the table, and [addEdge] never changes the count. *)
Theorem numNodes_distinct_ids (ops : list GraphOp) (n : Node) (e : Edge) (g : Graph) :
  numNodes (build ops) = Z.of_nat (length (remove_dups (added_ids ops))) /\
  numNodes (addNode n g) =
    (match getNode g (node_id n) with Some _ => numNodes g | None => numNodes g + 1 end) /\
  numNodes (addEdge e g) = numNodes g.
Proof.
  split; [|split; [|done]].
  - unfold numNodes. f_equal.
    replace (length (nodes (build ops))) with (length (getAllNodeIds (build ops)))
      by (unfold getAllNodeIds; by rewrite length_map).
    apply Permutation_length, NoDup_Permutation.
    + apply Allocation.build_nodes_NoDup.
    + apply NoDup_remove_dups.
    + intros x. rewrite elem_of_remove_dups, ids_build. unfold added_ids.
      rewrite list_elem_of_omap. split.
      * intros (m & Hm & <-). by exists (OpAddNode m).
      * intros ([m|e'] & Hop & Hx); [|done]. exists m. by inversion Hx.
  - unfold numNodes, getNode, addNode, nodes_assign. simpl.
    destruct (nodes_find (node_id n) (nodes g)) eqn:E.
    + f_equal. rewrite <- !(length_map fst). by rewrite Allocation.nodes_overwrite_keys.
    + simpl. lia.
Qed.

End GraphFacts.

(** ** graph.h: edges *)

Module EdgeFacts.

Import Walks.

(** Some entry of [u]'s neighbour list names [v]. *)
Definition has_edge (g : Graph) (u v : Z) : Prop :=
  exists e, (v, e) ∈ getNeighbors g u.

Lemma elem_of_matches v l e : e ∈ matches v l <-> (v, e) ∈ l.
Proof.
  unfold matches. rewrite list_elem_of_fmap. split.
  - intros ([w e'] & -> & Hin). apply list_elem_of_filter in Hin as [Hw Hin].
    simpl in *. by subst.
  - intros Hin. exists (v, e). split; [done|]. by apply list_elem_of_filter.
Qed.

Lemma has_edge_matches g u v : has_edge g u v <-> matches v (getNeighbors g u) <> [].
Proof.
  split.
  - intros [e He] Hnil. apply elem_of_matches in He. rewrite Hnil in He. inversion He.
  - intros Hne. destruct (matches v (getNeighbors g u)) as [|e l] eqn:E; [done|].
    exists e. apply elem_of_matches. rewrite E. by left.
Qed.

(** The first entry for [v], if any, answers both lookups. *)
Lemma lookups_first g u v :
  match matches v (getNeighbors g u) with
  | [] => getEdgeCost g u v = (-1)%Q /\ getEdgeReliability g u v = 0%Q
  | e :: _ => getEdgeCost g u v = cost e /\ getEdgeReliability g u v = reliability e
  end.
Proof.
  unfold getEdgeCost, getEdgeReliability.
  rewrite scan_cost_matches, scan_reliability_matches.
  by destruct (matches v (getNeighbors g u)).
Qed.

Lemma getNeighbors_addNode n g u : getNeighbors (addNode n g) u = getNeighbors g u.
Proof.
  unfold getNeighbors, addNode. simpl.
  destruct (adjacencyList g !! node_id n) eqn:E; [done|].
  rewrite lookup_insert. case_decide; [|done]. subst. by rewrite E.
Qed.

Lemma getNeighbors_addEdge e g w :
  getNeighbors (addEdge e g) w =
  getNeighbors g w
  ++ (if decide (edge_u e = w) then [(edge_v e, e)] else [])
  ++ (if decide (edge_v e = w) then [(edge_u e, e)] else []).
Proof.
  rewrite !getNeighbors_default. unfold addEdge. simpl.
  rewrite !adj_push_lookup.
  destruct (decide (edge_v e = w)), (decide (edge_u e = w));
    by rewrite <- ?app_assoc, ?app_nil_r.
Qed.

(** X3: locations and roads are kept apart.  Adding a location, also one
    that was added before or that roads already lead to, keeps every
    neighbour list, every edge lookup and the edge list as they are; adding
    a road changes no location and not the list of ids. *)
Theorem nodes_and_edges_independent (n : Node) (e : Edge) (g : Graph) (u v : Z) :
  getNeighbors (addNode n g) u = getNeighbors g u /\
  getEdgeCost (addNode n g) u v = getEdgeCost g u v /\
  getEdgeReliability (addNode n g) u v = getEdgeReliability g u v /\
  getEdges (addNode n g) = getEdges g /\
  getNode (addEdge e g) u = getNode g u /\
  getAllNodeIds (addEdge e g) = getAllNodeIds g.
Proof.
  unfold getEdgeCost, getEdgeReliability. by rewrite getNeighbors_addNode.
Qed.

(** X4: the first road between two places answers the lookups for good.  A
    lookup that finds an entry is not changed by any later [addEdge]; a road
    between places with no entry yet answers the lookups in both directions;
    and lookups for other pairs are not changed. *)
Theorem first_edge_wins (e : Edge) (g : Graph) (u v : Z) :
  (has_edge g u v ->
     getEdgeCost (addEdge e g) u v = getEdgeCost g u v /\
     getEdgeReliability (addEdge e g) u v = getEdgeReliability g u v) /\
  (~ has_edge g (edge_u e) (edge_v e) ->
     getEdgeCost (addEdge e g) (edge_u e) (edge_v e) = cost e /\
     getEdgeReliability (addEdge e g) (edge_u e) (edge_v e) = reliability e) /\
  (~ has_edge g (edge_v e) (edge_u e) ->
     getEdgeCost (addEdge e g) (edge_v e) (edge_u e) = cost e /\
     getEdgeReliability (addEdge e g) (edge_v e) (edge_u e) = reliability e) /\
  (~ (u = edge_u e /\ v = edge_v e) -> ~ (u = edge_v e /\ v = edge_u e) ->
     getEdgeCost (addEdge e g) u v = getEdgeCost g u v /\
     getEdgeReliability (addEdge e g) u v = getEdgeReliability g u v).
Proof.
  assert (forall a b,
            matches b (getNeighbors (addEdge e g) a) =
            matches b (getNeighbors g a)
            ++ (if decide (edge_u e = a /\ edge_v e = b) then [e] else [])
            ++ (if decide (edge_v e = a /\ edge_u e = b) then [e] else [])) as Hm.
  { intros a b. rewrite getNeighbors_addEdge, !matches_app.
    f_equal. f_equal.
    - destruct (decide (edge_u e = a)) as [Ha|Ha].
      + rewrite matches_one.
        destruct (decide (edge_v e = b)) as [Hb|Hb].
        * by rewrite decide_True.
        * by rewrite decide_False by tauto.
      + by rewrite decide_False by tauto.
    - destruct (decide (edge_v e = a)) as [Ha|Ha].
      + rewrite matches_one.
        destruct (decide (edge_u e = b)) as [Hb|Hb].
        * by rewrite decide_True.
        * by rewrite decide_False by tauto.
      + by rewrite decide_False by tauto. }
  split; [|split; [|split]].
  - intros Hhas. apply has_edge_matches in Hhas.
    pose proof (lookups_first g u v) as H1.
    pose proof (lookups_first (addEdge e g) u v) as H2.
    rewrite Hm in H2.
    destruct (matches v (getNeighbors g u)) as [|e0 l]; [done|].
    simpl in H2. destruct H1 as [-> ->]. done.
  - intros Hno.
    assert (matches (edge_v e) (getNeighbors g (edge_u e)) = []) as Hnil.
    { destruct (matches (edge_v e) (getNeighbors g (edge_u e))) eqn:E; [done|].
      destruct Hno. apply has_edge_matches. by rewrite E. }
    pose proof (lookups_first (addEdge e g) (edge_u e) (edge_v e)) as H2.
    rewrite Hm, Hnil in H2. rewrite decide_True in H2 by done. done.
  - intros Hno.
    assert (matches (edge_u e) (getNeighbors g (edge_v e)) = []) as Hnil.
    { destruct (matches (edge_u e) (getNeighbors g (edge_v e))) eqn:E; [done|].
      destruct Hno. apply has_edge_matches. by rewrite E. }
    pose proof (lookups_first (addEdge e g) (edge_v e) (edge_u e)) as H2.
    rewrite Hm, Hnil in H2.
    destruct (decide (edge_u e = edge_v e /\ edge_v e = edge_u e));
      [done|]. rewrite decide_True in H2 by done. done.
  - intros H1 H2.
    pose proof (lookups_first g u v) as L1.
    pose proof (lookups_first (addEdge e g) u v) as L2.
    rewrite Hm in L2.
    rewrite decide_False in L2 by (intros [? ?]; apply H1; by split).
    rewrite decide_False in L2 by (intros [? ?]; apply H2; by split).
    rewrite !app_nil_r in L2.
    destruct (matches v (getNeighbors g u)); destruct L1 as [-> ->]; done.
Qed.

Definition one_road : Graph := addEdge (mkEdge 1 2 5 0.5) empty_graph.

Lemma first_edge_wins_witness :
  has_edge one_road 1 2 /\
  getEdgeCost (addEdge (mkEdge 2 1 9 1) one_road) 1 2 = getEdgeCost one_road 1 2 /\
  ~ has_edge one_road 3 4 /\
  getEdgeCost (addEdge (mkEdge 3 4 9 1) one_road) 3 4 = 9%Q /\
  ~ has_edge one_road 4 3 /\
  getEdgeCost (addEdge (mkEdge 3 4 9 1) one_road) 4 3 = 9%Q /\
  getEdgeCost (addEdge (mkEdge 3 4 9 1) one_road) 7 8 = getEdgeCost one_road 7 8.
Proof.
  assert (has_edge one_road 1 2) as H1.
  { exists (mkEdge 1 2 5 0.5).
    assert (getNeighbors one_road 1 = [(2, mkEdge 1 2 5 0.5)]) as -> by (by vm_compute).
    by left. }
  assert (~ has_edge one_road 3 4) as H2.
  { intros [e He].
    assert (getNeighbors one_road 3 = []) as Hn by (by vm_compute).
    rewrite Hn in He. inversion He. }
  assert (~ has_edge one_road 4 3) as H3.
  { intros [e He].
    assert (getNeighbors one_road 4 = []) as Hn by (by vm_compute).
    rewrite Hn in He. inversion He. }
  split; [exact H1|].
  split; [exact (proj1 (proj1 (first_edge_wins (mkEdge 2 1 9 1) one_road 1 2) H1))|].
  split; [exact H2|].
  destruct (first_edge_wins (mkEdge 3 4 9 1) one_road 7 8) as (_ & Ha & Hb & Hc).
  split; [exact (proj1 (Ha H2))|]. split; [exact H3|].
  split; [exact (proj1 (Hb H3))|].
  refine (proj1 (Hc _ _)); simpl; lia.
Defined.

(** X5: what the two lookups mean.  With no entry for [v] in [u]'s list they
    give -1 and 0; otherwise both read one and the same entry of the list;
    and when no road has a negative cost, a negative cost lookup is exactly
    the absence of an entry. *)
Theorem edge_lookup_meaning (g : Graph) (u v : Z) :
  (~ has_edge g u v ->
     getEdgeCost g u v = (-1)%Q /\ getEdgeReliability g u v = 0%Q) /\
  (has_edge g u v ->
     exists e, (v, e) ∈ getNeighbors g u /\
               getEdgeCost g u v = cost e /\
               getEdgeReliability g u v = reliability e) /\
  (nonneg_costs g -> ((getEdgeCost g u v < 0)%Q <-> ~ has_edge g u v)).
Proof.
  pose proof (lookups_first g u v) as L.
  pose proof (has_edge_matches g u v) as Hm.
  assert (forall e l, matches v (getNeighbors g u) = e :: l ->
                      (v, e) ∈ getNeighbors g u) as Hfirst.
  { intros e l E. apply elem_of_matches. rewrite E. by left. }
  destruct (matches v (getNeighbors g u)) as [|e l] eqn:E.
  - assert (~ has_edge g u v) as Hno by (rewrite Hm; by intros H).
    split; [done|]. split; [done|]. intros _. destruct L as [-> _].
    split; [done|]. intros _. by vm_compute.
  - assert (has_edge g u v) as Hyes by (by apply Hm).
    split; [done|]. split.
    + intros _. exists e. split; [by apply (Hfirst e l)|done].
    + intros Hnn. destruct L as [-> _].
      pose proof (Hnn u (v, e) (Hfirst e l eq_refl)) as Hc. simpl in Hc.
      split; [lra|done].
Qed.

Lemma edge_lookup_meaning_witness :
  ~ has_edge one_road 3 4 /\ getEdgeCost one_road 3 4 = (-1)%Q /\
  has_edge one_road 1 2 /\
  nonneg_costs one_road /\ ((getEdgeCost one_road 3 4 < 0)%Q <-> ~ has_edge one_road 3 4).
Proof.
  assert (~ has_edge one_road 3 4) as H2.
  { intros [e He].
    assert (getNeighbors one_road 3 = []) as Hn by (by vm_compute).
    rewrite Hn in He. inversion He. }
  assert (has_edge one_road 1 2) as H1.
  { exists (mkEdge 1 2 5 0.5).
    assert (getNeighbors one_road 1 = [(2, mkEdge 1 2 5 0.5)]) as -> by (by vm_compute).
    by left. }
  assert (nonneg_costs one_road) as H3
    by (by apply Dijkstra.nonneg_check_spec; vm_compute).
  destruct (edge_lookup_meaning one_road 3 4) as (Ha & _ & Hc).
  split; [exact H2|]. split; [exact (proj1 (Ha H2))|]. split; [exact H1|].
  split; [exact H3|exact (Hc H3)].
Defined.

End EdgeFacts.

(** ** graph.h: the adjacency lists and the edge list *)

Module Adjacency.

Definition entry_count (adj : gmap Z (list (Z * Edge))) : nat :=
  sum_list (map (fun kv => length (snd kv)) (map_to_list adj)).

Lemma entry_count_insert k l (adj : gmap Z (list (Z * Edge))) :
  adj !! k = None -> entry_count (<[k := l]> adj) = (length l + entry_count adj)%nat.
Proof.
  intros Hk. unfold entry_count.
  rewrite (Fuel.sum_list_perm _ _
             (fmap_Permutation _ _ _ (map_to_list_insert adj k l Hk))).
  done.
Qed.

Lemma entry_count_delete k l (adj : gmap Z (list (Z * Edge))) :
  adj !! k = Some l -> entry_count adj = (length l + entry_count (delete k adj))%nat.
Proof.
  intros Hk.
  rewrite <- (entry_count_insert k l (delete k adj)) by apply lookup_delete_eq.
  by rewrite insert_delete_id.
Qed.

Lemma entry_count_push k x adj : entry_count (adj_push k x adj) = S (entry_count adj).
Proof.
  unfold adj_push. destruct (adj !! k) as [l|] eqn:E.
  - rewrite <- insert_delete_eq.
    rewrite entry_count_insert by apply lookup_delete_eq.
    rewrite (entry_count_delete k l adj E), length_app. simpl. lia.
  - by rewrite entry_count_insert.
Qed.

Lemma adj_total_addEdge e g : adj_total (addEdge e g) = S (S (adj_total g)).
Proof.
  change (entry_count (adjacencyList (addEdge e g)) = S (S (entry_count (adjacencyList g)))).
  unfold addEdge. simpl. by rewrite !entry_count_push.
Qed.

Lemma adj_total_addNode n g : adj_total (addNode n g) = adj_total g.
Proof.
  change (entry_count (adjacencyList (addNode n g)) = entry_count (adjacencyList g)).
  unfold addNode. simpl. destruct (adjacencyList g !! node_id n) eqn:E; [done|].
  by rewrite entry_count_insert.
Qed.

(** The edges of the [addEdge] calls, in call order. *)
Definition added_edges (ops : list GraphOp) : list Edge :=
  omap (fun op => match op with OpAddEdge e => Some e | OpAddNode _ => None end) ops.

Lemma edges_fold ops g :
  getEdges (fold_left apply_op ops g) = getEdges g ++ added_edges ops /\
  adj_total (fold_left apply_op ops g) =
    (adj_total g + 2 * length (added_edges ops))%nat.
Proof.
  revert g. induction ops as [|[n|e] ops IH]; intros g; simpl.
  - rewrite app_nil_r. split; [done|lia].
  - destruct (IH (addNode n g)) as [-> ->]. rewrite adj_total_addNode.
    split; done.
  - destruct (IH (addEdge e g)) as [-> ->]. rewrite adj_total_addEdge.
    unfold getEdges, added_edges. simpl. rewrite <- app_assoc. split; [done|].
    fold added_edges. lia.
Qed.

(** X6: a graph made by [addNode] and [addEdge] calls lists the roads of the
    [addEdge] calls in call order, duplicates and loops included;
    [numEdges] counts the calls; and the neighbour lists hold two entries
    for every road. *)
Theorem edges_of_build (ops : list GraphOp) :
  getEdges (build ops) = added_edges ops /\
  numEdges (build ops) = Z.of_nat (length (added_edges ops)) /\
  Z.of_nat (adj_total (build ops)) = (2 * numEdges (build ops))%Z.
Proof.
  destruct (edges_fold ops empty_graph) as [He Ht].
  fold (build ops) in He, Ht. simpl in He.
  unfold numEdges. change (edges (build ops)) with (getEdges (build ops)).
  rewrite He, Ht. split; [done|]. split; [done|].
  assert (adj_total empty_graph = 0%nat) as -> by (by vm_compute). lia.
Qed.

(** Both ends of every listed road name each other, and every neighbour
    entry is a listed road between the two places. *)
Definition linked (g : Graph) : Prop :=
  (forall e, e ∈ getEdges g ->
     (edge_v e, e) ∈ getNeighbors g (edge_u e) /\
     (edge_u e, e) ∈ getNeighbors g (edge_v e)) /\
  (forall u v e, (v, e) ∈ getNeighbors g u ->
     e ∈ getEdges g /\
     ((edge_u e = u /\ edge_v e = v) \/ (edge_v e = u /\ edge_u e = v))).

Lemma linked_empty : linked empty_graph.
Proof.
  split.
  - intros e He. inversion He.
  - intros u v e He. unfold getNeighbors, empty_graph in He. simpl in He.
    rewrite lookup_empty in He. inversion He.
Qed.

Lemma linked_addNode n g : linked g -> linked (addNode n g).
Proof.
  intros [H1 H2]. split.
  - intros e He. rewrite !EdgeFacts.getNeighbors_addNode. by apply H1.
  - intros u v e He. rewrite EdgeFacts.getNeighbors_addNode in He. by apply H2.
Qed.

Lemma linked_addEdge e0 g : linked g -> linked (addEdge e0 g).
Proof.
  intros [H1 H2]. split.
  - intros e He. unfold getEdges, addEdge in He. simpl in He.
    rewrite !EdgeFacts.getNeighbors_addEdge, !elem_of_app.
    apply elem_of_app in He as [He|He].
    + destruct (H1 e He). by split; left.
    + apply list_elem_of_singleton in He as ->. split.
      * right. left. rewrite decide_True by done. by left.
      * right. right. rewrite decide_True by done. by left.
  - intros u v e He. rewrite EdgeFacts.getNeighbors_addEdge, !elem_of_app in He.
    unfold getEdges, addEdge. simpl. rewrite elem_of_app.
    destruct He as [He|[He|He]].
    + destruct (H2 u v e He) as [Hin Hends]. split; [by left|done].
    + destruct (decide (edge_u e0 = u)) as [<-|]; [|inversion He].
      apply list_elem_of_singleton in He. injection He as -> ->.
      split; [right; by left|by left].
    + destruct (decide (edge_v e0 = u)) as [<-|]; [|inversion He].
      apply list_elem_of_singleton in He. injection He as -> ->.
      split; [right; by left|by right].
Qed.

Lemma linked_fold ops g : linked g -> linked (fold_left apply_op ops g).
Proof.
  revert g. induction ops as [|[n|e] ops IH]; intros g Hg; simpl; [done| |].
  - by apply IH, linked_addNode.
  - by apply IH, linked_addEdge.
Qed.

Lemma linked_build ops : linked (build ops).
Proof. apply linked_fold, linked_empty. Qed.

Lemma neighbours_mirror ops u v e :
  (v, e) ∈ getNeighbors (build ops) u <-> (u, e) ∈ getNeighbors (build ops) v.
Proof.
  rewrite <- !EdgeFacts.elem_of_matches, !getNeighbors_default.
  by rewrite (adj_mirror_build ops u v).
Qed.

(** X7: a graph made by [addNode] and [addEdge] calls is undirected.  [v] is
    in [u]'s neighbour list with road [e] exactly when [u] is in [v]'s with
    the same road; every neighbour entry is a road of the edge list that
    joins the two places; and every road of the edge list is entered at
    both of its ends, whether or not the ends were added as locations. *)
Theorem neighbours_undirected (ops : list GraphOp) (u v : Z) (e : Edge) :
  ((v, e) ∈ getNeighbors (build ops) u <-> (u, e) ∈ getNeighbors (build ops) v) /\
  ((v, e) ∈ getNeighbors (build ops) u ->
     e ∈ getEdges (build ops) /\
     ((edge_u e = u /\ edge_v e = v) \/ (edge_v e = u /\ edge_u e = v))) /\
  (e ∈ getEdges (build ops) ->
     (edge_v e, e) ∈ getNeighbors (build ops) (edge_u e) /\
     (edge_u e, e) ∈ getNeighbors (build ops) (edge_v e)).
Proof.
  destruct (linked_build ops) as [H1 H2].
  split; [apply neighbours_mirror|]. split; [apply H2|apply H1].
Qed.

Definition two_roads : list GraphOp :=
  [OpAddNode (mkNode 0 0 0); OpAddEdge (mkEdge 0 1 5 0.5); OpAddEdge (mkEdge 1 2 3 1)].

Lemma neighbours_undirected_witness :
  (2, mkEdge 1 2 3 1) ∈ getNeighbors (build two_roads) 1 /\
  (1, mkEdge 1 2 3 1) ∈ getNeighbors (build two_roads) 2 /\
  mkEdge 1 2 3 1 ∈ getEdges (build two_roads).
Proof.
  assert ((2, mkEdge 1 2 3 1) ∈ getNeighbors (build two_roads) 1) as H.
  { assert (getNeighbors (build two_roads) 1 =
            [(0, mkEdge 0 1 5 0.5); (2, mkEdge 1 2 3 1)]) as -> by (by vm_compute).
    right. by left. }
  destruct (neighbours_undirected two_roads 1 2 (mkEdge 1 2 3 1)) as (Ha & Hb & _).
  split; [exact H|]. split; [exact (proj1 Ha H)|exact (proj1 (Hb H))].
Defined.

End Adjacency.

(** ** algorithms.h: dijkstra on any graph *)

Module DijkstraAny.

Import Walks Queue Search Fuel.

Section Any.

Variable g : Graph.
Variable s : Z.

(** [d] is the cost of some walk from the source to [v]. *)
Definition real (v : Z) (d : Q) : Prop :=
  exists p, walk g s p v /\ (walk_cost p == d)%Q.

(** What an entry of the table can be. *)
Definition entry_ok (v : Z) (d : Q) : Prop :=
  d = DBL_MAX \/ ((v ∉ getAllNodeIds g) /\ d = 0%Q) \/ real v d.

Record Sound (G : gmap Z Q) (pq : list (Q * Z)) : Prop := {
  snd_ids : forall v, v ∈ getAllNodeIds g -> is_Some (G !! v);
  snd_src : G !! s = Some 0%Q;
  snd_val : forall v d, G !! v = Some d -> entry_ok v d;
  snd_pq : forall k u, (k, u) ∈ pq -> exists d, G !! u = Some d /\ real u d
}.

Lemma sound_touch G pq v : Sound G pq -> Sound (touch v G) pq.
Proof.
  intros HS. unfold touch. destruct (G !! v) eqn:E; [done|].
  destruct HS as [H1 H2 H3 H4]. split.
  - intros w Hw. rewrite lookup_insert. case_decide; [done|]. by apply H1.
  - rewrite lookup_insert. case_decide; [congruence|done].
  - intros w d. rewrite lookup_insert. case_decide.
    + intros [= <-]. subst. right. left. split; [|done].
      intros Hin. destruct (H1 _ Hin). congruence.
    + apply H3.
  - intros k u Hin. destruct (H4 k u Hin) as (d & Hd & Hr).
    exists d. split; [|done]. rewrite lookup_insert. case_decide; [congruence|done].
Qed.

Lemma sound_relax V u du nbrs : forall G pq,
  visited_at V s = true -> visited_at V u = true ->
  (forall st, st ∈ nbrs -> st ∈ getNeighbors g u) ->
  Sound G pq -> G !! u = Some du -> real u du ->
  let r := dijkstra_relax u nbrs V G pq in
  Sound (fst r) (snd r).
Proof.
  induction nbrs as [|[v e] nbrs IH]; intros G pq Hs Hu Hsub HS HGu Hr;
    cbn [dijkstra_relax]; [done|].
  assert (forall st, st ∈ nbrs -> st ∈ getNeighbors g u) as Hsub'
      by (intros st Hst; apply Hsub; by right).
  destruct (visited_at V v) eqn:Hv; [by apply IH|].
  assert (u <> v) as Huv by congruence.
  assert (s <> v) as Hsv by congruence.
  rewrite (touch_id G u) by by rewrite HGu.
  pose proof (sound_touch G pq v HS) as HS1.
  assert (touch v G !! u = Some du) as HGu1.
  { unfold touch. destruct (G !! v); [done|].
    rewrite lookup_insert. by rewrite decide_False by congruence. }
  rewrite (at_key_Some _ u du HGu1).
  destruct (Qltb (du + cost e) (at_key (touch v G) v)) eqn:Hlt; [|by apply (IH _ _ Hs Hu)].
  assert (real v (du + cost e)) as Hreal.
  { destruct Hr as (p & Hp & Hc). exists (p ++ [(v, e)]). split.
    - apply (walk_snoc g s p u (v, e) Hp). apply Hsub. by left.
    - rewrite walk_cost_app, walk_cost_cons. simpl.
      change (walk_cost []) with 0%Q. lra. }
  apply (IH _ _ Hs Hu Hsub'); [|by rewrite lookup_insert, decide_False by congruence|done].
  destruct HS1 as [H1 H2 H3 H4]. split.
  - intros w Hw. rewrite lookup_insert. case_decide; [done|]. by apply H1.
  - rewrite lookup_insert. by rewrite decide_False by congruence.
  - intros w d. rewrite lookup_insert. case_decide.
    + intros [= <-]. subst. right. by right.
    + apply H3.
  - intros k w Hin. rewrite lookup_insert.
    destruct (decide (v = w)) as [<-|Hne]; [by exists (du + cost e)%Q|].
    apply elem_of_cons in Hin as [[= _ ->]|Hin]; [done|].
    by apply (H4 k w).
Qed.

Lemma sound_loop fuel : forall G V pq D,
  Sound G pq ->
  (visited_at V s = true \/ exists k, pq = [(k, s)]) ->
  dijkstra_loop fuel g G V pq = Some D ->
  Sound D [].
Proof.
  induction fuel as [|fuel IH]; intros G V pq D HS Hfirst; [done|].
  cbn [dijkstra_loop].
  destruct (pq_pop pq) as [[[k u] rest]|] eqn:Hpop.
  - destruct (pq_pop_Some pq _ _ Hpop) as [Hperm _].
    assert (forall x, x ∈ rest -> x ∈ pq) as Hrest
        by (intros x Hx; rewrite Hperm; by right).
    assert ((k, u) ∈ pq) as Hin by (rewrite Hperm; by left).
    assert (Sound G rest) as HS'.
    { destruct HS as [H1 H2 H3 H4]. split; try done.
      intros k' u' Hin'. apply (H4 k' u'). by apply Hrest. }
    destruct (visited_at V u) eqn:Hu.
    + apply IH; [done|]. destruct Hfirst as [Hv|[k' ->]]; [by left|].
      simpl in Hpop. injection Hpop as <- <- <-. by left.
    + destruct (snd_pq G pq HS k u Hin) as (du & HGu & Hr).
      assert (visited_at (<[u := true]> V) s = true) as Hs'.
      { rewrite visited_at_insert. case_decide; [done|].
        destruct Hfirst as [Hv|[k' ->]]; [done|].
        simpl in Hpop. injection Hpop as <- <- <-. done. }
      assert (visited_at (<[u := true]> V) u = true) as Hu'
          by (rewrite visited_at_insert; by rewrite decide_True).
      pose proof (sound_relax (<[u := true]> V) u du (getNeighbors g u) G rest
                    Hs' Hu' (fun st H => H) HS' HGu Hr) as Hrel.
      destruct (dijkstra_relax u (getNeighbors g u) (<[u := true]> V) G rest)
        as [G1 pq1].
      simpl in Hrel. intros Hloop. apply (IH G1 (<[u := true]> V) pq1 D Hrel); [by left|done].
  - intros [= <-]. destruct HS as [H1 H2 H3 H4]. split; try done.
    intros k u Hin. inversion Hin.
Qed.

Lemma sound_start G V :
  dijkstra_init (getAllNodeIds g) = (G, V) ->
  Sound (<[s := 0%Q]> G) (pq_push (0%Q, s) []).
Proof.
  intros Hinit.
  destruct (Dijkstra.dijkstra_init_spec (getAllNodeIds g) ∅ ∅) as [HG _].
  fold (dijkstra_init (getAllNodeIds g)) in HG. rewrite Hinit in HG. simpl in HG.
  assert (real s 0%Q) as Hr by (by exists []).
  split.
  - intros v Hv. rewrite lookup_insert. case_decide; [done|].
    rewrite HG. by rewrite decide_True.
  - by rewrite lookup_insert, decide_True.
  - intros v d. rewrite lookup_insert. case_decide.
    + intros [= <-]. subst. right. by right.
    + rewrite HG. case_decide; [|by rewrite lookup_empty].
      intros [= <-]. by left.
  - intros k u Hin. apply list_elem_of_singleton in Hin as [= -> ->].
    exists 0%Q. by rewrite lookup_insert, decide_True.
Qed.

Lemma dijkstra_sound : Sound (dijkstra g s) [].
Proof.
  pose proof (Dijkstra.dijkstra_run_total g s) as Hrun.
  unfold dijkstra_run in Hrun.
  destruct (dijkstra_init (getAllNodeIds g)) as [G V] eqn:Hinit.
  apply (sound_loop _ _ _ _ _ (sound_start G V Hinit)) in Hrun; [done|].
  right. by exists 0%Q.
Qed.

End Any.

(** X8: [dijkstra] on any graph and from any source, roads of negative cost
    and roads to ids that are no locations included.  The loop ends within
    the fuel of the model; the source is at distance 0; every location has
    an entry; and every entry is [DBL_MAX], or the 0.0 that reading a
    missing key leaves behind for an id that is no location, or the entry
    of an id that can be reached from the source along the roads. *)
Theorem dijkstra_any_graph (g : Graph) (s : Z) :
  dijkstra_run g s = Some (dijkstra g s) /\
  dijkstra g s !! s = Some 0%Q /\
  (forall v, v ∈ getAllNodeIds g -> is_Some (dijkstra g s !! v)) /\
  (forall v d, dijkstra g s !! v = Some d ->
     d = DBL_MAX \/ ((v ∉ getAllNodeIds g) /\ d = 0%Q) \/ reachable g s v).
Proof.
  destruct (dijkstra_sound g s) as [H1 H2 H3 H4].
  split; [apply Dijkstra.dijkstra_run_total|]. split; [done|]. split; [done|].
  intros v d Hd.
  destruct (H3 v d Hd) as [?|[?|(p & Hp & _)]]; [by left|right; by left|].
  right. right. by exists p.
Qed.

End DijkstraAny.

(** ** algorithms.h: twoOpt, further *)

Module TwoOptMore.

Import CostModel TwoOpt.

Lemma route_cost_None g r : ~ computable g r -> route_cost g r = None.
Proof.
  intros Hn. destruct (route_cost g r) as [c|] eqn:E; [|done].
  destruct Hn. by apply (route_cost_Some g r c).
Qed.

(** The returned route is the input, or a valid route strictly cheaper than
    the valid input. *)
Lemma twoOpt_result g route :
  twoOpt g route = route \/ cheaper g (twoOpt g route) route.
Proof.
  pose proof (twoOpt_run_Some g route) as Hrun. unfold twoOpt_run in Hrun.
  destruct (length route <=? 3)%nat; [left; congruence|].
  by destruct (twoOpt_loop_keeps g _ _ _ Hrun) as (_ & _ & _ & H & _).
Qed.

Lemma twoOpt_scan_short g r : (length r <= 3)%nat -> twoOpt_scan g r = None.
Proof.
  intros Hl. unfold twoOpt_scan.
  by replace (length r - 3)%nat with 0%nat by lia.
Qed.

(** No pass finds a move in the returned route. *)
Lemma twoOpt_settled g route : twoOpt_scan g (twoOpt g route) = None.
Proof.
  pose proof (twoOpt_run_Some g route) as Hrun. unfold twoOpt_run in Hrun.
  destruct (length route <=? 3)%nat eqn:E.
  - injection Hrun as <-. apply twoOpt_scan_short. by apply Nat.leb_le.
  - by destruct (twoOpt_loop_keeps g _ _ _ Hrun) as (_ & _ & _ & _ & H).
Qed.




(** X10: a route with a missing road (a pair of consecutive stops whose cost
    lookup is negative) is returned as it is. *)
Theorem twoOpt_invalid_unchanged (g : Graph) (route : list Z) :
  ~ computable g route -> twoOpt g route = route.
Proof.
  intros Hn. destruct (twoOpt_result g route) as [H|(c & c' & Hc & _)]; [done|].
  by rewrite (route_cost_None g route Hn) in Hc.
Qed.

Lemma twoOpt_invalid_unchanged_witness :
  ~ computable island [0; 2; 1; 2; 0] /\
  twoOpt island [0; 2; 1; 2; 0] = [0; 2; 1; 2; 0].
Proof.
  assert (~ computable island [0; 2; 1; 2; 0]) as H.
  { intros Hc. apply Forall_cons in Hc as [Hc _]. vm_compute in Hc. by apply Hc. }
  split; [exact H|exact (twoOpt_invalid_unchanged island [0; 2; 1; 2; 0] H)].
Defined.



(** X12: optimising an optimised route changes nothing. *)
Theorem twoOpt_idempotent (g : Graph) (route : list Z) :
  twoOpt g (twoOpt g route) = twoOpt g route.
Proof.
  pose proof (twoOpt_settled g route) as Hs.
  pose proof (twoOpt_run_Some g (twoOpt g route)) as Hrun.
  unfold twoOpt_run in Hrun.
  destruct (length (twoOpt g route) <=? 3)%nat; [congruence|].
  unfold twoOpt_fuel in Hrun.
  pose proof (permutations_refl (twoOpt g route)) as Hin.
  destruct (permutations (twoOpt g route)) as [|x l]; [inversion Hin|].
  cbn [length twoOpt_loop] in Hrun. rewrite Hs in Hrun. congruence.
Qed.

Lemma computable_traversed g r : computable g r -> traversed g r = consecutive r.
Proof.
  unfold computable, traversed. induction 1 as [|p l Hp _ IH]; [done|].
  simpl. rewrite IH.
  assert (Qltb (getEdgeCost g (fst p) (snd p)) 0 = false) as ->
      by (by apply Qltb_false).
  done.
Qed.

Lemma totalTime_computable g r cap load :
  computable g r ->
  (totalTime (calculateRouteCost g r cap load) == total g r)%Q.
Proof.
  intros Hc.
  destruct (calculateRouteCost_refines g r cap load) as [-> _].
  unfold spec_routeCost, total.
  destruct (length r <? 2)%nat eqn:E; simpl.
  - apply Nat.ltb_lt in E. destruct r as [|a [|b r]]; simpl in *; [done|done|lia].
  - unfold spec_totalTime. by rewrite computable_traversed.
Qed.

(** X13: [twoOpt] followed by [calculateRouteCost], as [main] runs them: for
    every graph, route, capacity and load, the optimised route has a total
    time no higher than the route it was made from, and the same idle
    time. *)
Theorem twoOpt_never_slower (g : Graph) (route : list Z) (cap load : Z) :
  (totalTime (calculateRouteCost g (twoOpt g route) cap load)
   <= totalTime (calculateRouteCost g route cap load))%Q /\
  idleTime (calculateRouteCost g (twoOpt g route) cap load)
  = idleTime (calculateRouteCost g route cap load).
Proof.
  destruct (twoOpt_result g route) as [->|(c & c' & Hc & Hc' & Hlt)].
  - split; [lra|done].
  - apply route_cost_Some in Hc as [Hv Hc], Hc' as [Hv' Hc'].
    split.
    + rewrite !totalTime_computable by done. lra.
    + assert (length (twoOpt g route) = length route) as Hlen.
      { pose proof (twoOpt_run_Some g route) as Hrun. unfold twoOpt_run in Hrun.
        destruct (length route <=? 3)%nat; [congruence|].
        destruct (twoOpt_loop_keeps g _ _ _ Hrun) as (Hp & _).
        by rewrite Hp. }
      unfold calculateRouteCost. rewrite Hlen.
      destruct (length route <? 2)%nat; [done|].
      destruct (cost_loop g (twoOpt g route) (0%Q, 1%Q)).
      by destruct (cost_loop g route (0%Q, 1%Q)).
Qed.

End TwoOptMore.

(** ** Allocation.h: what the routes are made of *)

Module Routes.

Import Walks Allocation.

(** The demand of a location, 0 for an id with no table entry. *)
Definition demand_of (g : Graph) (x : Z) : Z :=
  match getNode g x with Some node => demand node | None => 0 end.

Definition load_of (g : Graph) (stops : list Z) : Z :=
  foldr (fun x acc => demand_of g x + acc) 0 stops.

(** The load after [addNode] took the demands of [stops] one by one, every
    addition as the 32-bit machine computes it. *)
Definition load_after (g : Graph) (load : Z) (stops : list Z) : Z :=
  fold_left (fun acc x => wrap (acc + demand_of g x)) stops load.

(** [b] can be reached from [a] along the roads, and the distance that
    [dijkstra] gives from [a] to [b] is below the sentinel. *)
Definition hop (g : Graph) (a b : Z) : Prop :=
  reachable g a b /\ (distance g a b < DBL_MAX)%Q.

Fixpoint hops (g : Graph) (a : Z) (stops : list Z) : Prop :=
  match stops with
  | [] => True
  | b :: l => hop g a b /\ hops g b l
  end.

(** No addition of a demand of the processing list to a load within the
    capacity leaves the range of [int]. *)
Definition calm (g : Graph) (v : Vehicle) : Prop :=
  0 <= currentLoad v <= capacity v /\
  Forall (fun y => capacity v + demand_of g y < 2 ^ 31) (nodesToAssign g).

(** What the assignment loop can do to one vehicle: the stops it appends
    come from the processing list, each within reach of the one before, and
    the load takes their demands. *)
Definition grows (g : Graph) (v v' : Vehicle) : Prop :=
  vehicle_id v' = vehicle_id v /\ capacity v' = capacity v /\
  (exists stops,
    route v' = route v ++ stops /\
    Forall (fun x => x ∈ nodesToAssign g) stops /\
    currentLoad v' = load_after g (currentLoad v) stops /\
    hops g (route_back (route v)) stops) /\
  (calm g v -> calm g v' /\ currentLoad v <= currentLoad v').

Lemma last_cons_default (l : list Z) a d d' :
  List.last (a :: l) d = List.last (a :: l) d'.
Proof.
  revert a. induction l as [|b l IH]; intros a; [done|].
  change (List.last (b :: l) d = List.last (b :: l) d'). apply IH.
Qed.

Lemma last_app_default (l1 l2 : list Z) d :
  List.last (l1 ++ l2) d = List.last l2 (List.last l1 d).
Proof.
  induction l1 as [|a l1 IH]; [done|].
  destruct l1 as [|b l1].
  - destruct l2 as [|c l2]; [done|].
    change (List.last (c :: l2) d = List.last (c :: l2) a).
    apply last_cons_default.
  - change (List.last ((b :: l1) ++ l2) d = List.last l2 (List.last (b :: l1) d)).
    apply IH.
Qed.

Lemma hops_app g a l1 l2 :
  hops g a l1 -> hops g (List.last l1 a) l2 -> hops g a (l1 ++ l2).
Proof.
  revert a. induction l1 as [|b l1 IH]; intros a; simpl; [done|].
  intros [Hab Hl1] Hl2. split; [done|]. apply IH; [done|].
  destruct l1 as [|c l1]; [done|].
  change (hops g (List.last (c :: l1) a) l2) in Hl2.
  by rewrite (last_cons_default l1 c b a).
Qed.

Lemma load_of_app g l1 l2 : load_of g (l1 ++ l2) = load_of g l1 + load_of g l2.
Proof. induction l1 as [|a l1 IH]; simpl; lia. Qed.

Lemma load_after_app g l l1 l2 :
  load_after g l (l1 ++ l2) = load_after g (load_after g l l1) l2.
Proof. unfold load_after. by rewrite fold_left_app. Qed.

Lemma load_of_nonneg g stops :
  Forall (fun y => 0 < demand_of g y) stops -> 0 <= load_of g stops.
Proof. induction 1 as [|y l Hy _ IH]; simpl; lia. Qed.

(** Where the sum stays in the range of [int], the load is the sum. *)
Lemma load_after_sum g stops : forall l,
  Forall (fun y => 0 < demand_of g y) stops ->
  0 <= l -> l + load_of g stops < 2 ^ 31 ->
  load_after g l stops = l + load_of g stops.
Proof.
  induction stops as [|x stops IH]; intros l Hpos Hl Hsum; simpl in *; [lia|].
  apply Forall_cons in Hpos as [Hx Hpos].
  pose proof (load_of_nonneg g stops Hpos).
  rewrite wrap_id by lia. rewrite IH by (done || lia). lia.
Qed.

Lemma nodesToAssign_demand g y : y ∈ nodesToAssign g -> 0 < demand_of g y.
Proof.
  intros Hy.
  assert (y ∈ collect_nodes g) as Hc
      by (by rewrite <- (std_sort_perm (priority_before g))).
  apply elem_of_collect_nodes in Hc as (_ & _ & n & Hn & Hpos).
  unfold demand_of. by rewrite Hn.
Qed.

Lemma grows_refl g v : grows g v v.
Proof.
  split; [done|]. split; [done|]. split.
  - exists []. rewrite app_nil_r. simpl. done.
  - intros H. split; [done|lia].
Qed.

Lemma grows_trans g v1 v2 v3 : grows g v1 v2 -> grows g v2 v3 -> grows g v1 v3.
Proof.
  intros (Hi1 & Hc1 & (l1 & Hr1 & Hin1 & Hl1 & Hh1) & Hk1)
         (Hi2 & Hc2 & (l2 & Hr2 & Hin2 & Hl2 & Hh2) & Hk2).
  split; [congruence|]. split; [congruence|]. split.
  - exists (l1 ++ l2).
    split; [by rewrite Hr2, Hr1, app_assoc|].
    split; [by apply Forall_app|].
    split; [by rewrite load_after_app, <- Hl1|].
    apply hops_app; [done|].
    unfold route_back in Hh2. by rewrite Hr1, last_app_default in Hh2.
  - intros H1. destruct (Hk1 H1) as [H2 Hle1]. destruct (Hk2 H2) as [H3 Hle2].
    split; [done|lia].
Qed.

Lemma nodes_find_Some k l n : nodes_find k l = Some n -> k ∈ map fst l.
Proof.
  induction l as [|[k' n'] l IH]; simpl; [done|].
  destruct (Z.eqb_spec k' k) as [->|]; [by left|]. intros H. right. by apply IH.
Qed.

Lemma getNode_id g x node : getNode g x = Some node -> x ∈ getAllNodeIds g.
Proof. apply nodes_find_Some. Qed.

Lemma extraCost_distance g v x : extraCost g v x = distance g (route_back (route v)) x.
Proof. done. Qed.

(** A distance below the sentinel to a location of the table comes with a
    walk. *)
Lemma distance_hop g a x :
  x ∈ getAllNodeIds g -> (distance g a x < DBL_MAX)%Q -> hop g a x.
Proof.
  intros Hx Hlt. split; [|done]. unfold distance in *.
  destruct (dijkstra g a !! x) as [d|] eqn:E; [|lra].
  destruct (DijkstraAny.snd_val g a _ _ (DijkstraAny.dijkstra_sound g a) x d E)
    as [->|[[Hno _]|(p & Hp & Hc)]]; [lra|done|].
  by exists p.
Qed.

(** One round of the assignment loop, with the reason for its outcome. *)
Lemma assign_node_outcome g vs x :
  (assign_node g vs x = vs /\
   forall node, getNode g x = Some node ->
     forall v, v ∈ vs -> ~ candidate g x (demand node) v) \/
  (exists node k v,
     getNode g x = Some node /\ vs !! k = Some v /\
     candidate g x (demand node) v /\
     assign_node g vs x = alter (vehicle_addNode x (demand node)) k vs).
Proof.
  unfold assign_node. destruct (getNode g x) as [node|]; [|left; by split].
  destruct (best_vehicle_spec g x (demand node) vs)
    as [[Hr Hno] | (k & v & Hk & Hr & Hc & _)]; rewrite Hr.
  - left. split; [done|]. by intros ? [= <-].
  - right. exists node, k, v. split; [done|]. split; [done|]. split; [done|].
    destruct (Z.leb_spec 0 (Z.of_nat k)); [|lia]. by rewrite Nat2Z.id.
Qed.

(** The capacity check on a vehicle whose additions stay in range. *)
Lemma canServe_calm g v y :
  calm g v -> y ∈ nodesToAssign g ->
  canServe v (demand_of g y) = (currentLoad v + demand_of g y <=? capacity v) /\
  wrap (currentLoad v + demand_of g y) = currentLoad v + demand_of g y.
Proof.
  intros [Hl Hb] Hy. pose proof (nodesToAssign_demand g y Hy) as Hpos.
  pose proof (proj1 (Forall_forall _ _) Hb y Hy) as Hy'. simpl in Hy'.
  unfold canServe. rewrite wrap_id by lia. done.
Qed.

Lemma Forall2_diag (R : Vehicle -> Vehicle -> Prop) vs :
  (forall v, R v v) -> Forall2 R vs vs.
Proof. intros HR. induction vs; by constructor. Qed.

Lemma assign_node_grows g vs x :
  x ∈ nodesToAssign g -> Forall2 (grows g) vs (assign_node g vs x).
Proof.
  intros Hx.
  destruct (assign_node_outcome g vs x)
    as [[-> _]|(node & k & v & Hnode & Hk & [Hserve Hnear] & ->)].
  - apply Forall2_diag, grows_refl.
  - apply Forall2_alter_r; [apply Forall2_diag, grows_refl|].
    intros v1 v2 H1 H2 _. assert (v2 = v1) as -> by congruence.
    assert (v1 = v) as -> by congruence.
    assert (demand_of g x = demand node) as Hdem
        by (unfold demand_of; by rewrite Hnode).
    split; [done|]. split; [done|]. split.
    + exists [x]. simpl.
      split; [done|]. split; [by constructor|].
      split; [by rewrite Hdem|].
      split; [|done].
      apply distance_hop; [by apply (getNode_id g x node)|done].
    + intros Hcalm. destruct (canServe_calm g v x Hcalm Hx) as [Hs Hw].
      rewrite Hdem in Hs, Hw. rewrite Hs in Hserve. apply Z.leb_le in Hserve.
      pose proof (nodesToAssign_demand g x Hx) as Hpos. rewrite Hdem in Hpos.
      destruct Hcalm as [Hl Hb]. simpl. rewrite Hw.
      split; [|lia]. split; [simpl; lia|done].
Qed.

Lemma assign_all_grows g order : forall vs,
  (forall x, x ∈ order -> x ∈ nodesToAssign g) ->
  Forall2 (grows g) vs (assign_all g order vs).
Proof.
  induction order as [|x order IH]; intros vs Hsub; simpl.
  - apply Forall2_diag, grows_refl.
  - eapply Forall2_trans; [apply grows_trans| |].
    + apply assign_node_grows. apply Hsub. by left.
    + apply IH. intros y Hy. apply Hsub. by right.
Qed.

(** What [allocateVehicles] does to one vehicle. *)
Definition allocated (g : Graph) (v v' : Vehicle) : Prop :=
  vehicle_id v' = vehicle_id v /\ capacity v' = capacity v /\
  exists stops,
    route v' = route v ++ stops ++ [0] /\
    Forall (fun x => x ∈ nodesToAssign g) stops /\
    currentLoad v' = load_after g (currentLoad v) stops /\
    hops g (route_back (route v)) stops.

Lemma allocate_allocated g vehicles :
  Forall2 (allocated g) vehicles (allocateVehicles g vehicles).
Proof.
  unfold allocateVehicles. apply Forall2_fmap_r.
  eapply Forall2_impl; [apply (assign_all_grows g (nodesToAssign g)); auto|].
  intros v v' (Hi & Hc & (stops & Hr & Hin & Hl & Hh) & _).
  split; [done|]. split; [done|]. exists stops. simpl.
  rewrite Hr, <- app_assoc. done.
Qed.

Lemma hops_reach g a stops :
  hops g a stops -> forall x, x ∈ stops -> reachable g a x.
Proof.
  revert a. induction stops as [|b l IH]; intros a; simpl; [by intros _ x Hx; inversion Hx|].
  intros [[[p Hp] _] Hl] x Hx. apply elem_of_cons in Hx as [->|Hx]; [by exists p|].
  destruct (IH b Hl x Hx) as [q Hq]. exists (p ++ q). by apply (walk_app g a p b).
Qed.

(** X14: what [allocateVehicles] gives back.  The vehicles come back in the
    same number and order with their ids and capacities; each route is the
    route the vehicle came with, then the stops it was given, then the
    depot 0; the stops are locations of the processing list; and the load
    is the load the vehicle came with after the demands of its stops were
    added one by one in 32-bit arithmetic, which is the plain sum where the
    plain sum is below 2^31. *)
Theorem allocate_routes_and_loads (g : Graph) (vehicles : list Vehicle) :
  Forall (fun v => route v <> []) vehicles ->
  length (allocateVehicles g vehicles) = length vehicles /\
  Forall2 (fun v v' =>
             vehicle_id v' = vehicle_id v /\ capacity v' = capacity v /\
             exists stops,
               route v' = route v ++ stops ++ [0] /\
               Forall (fun x => x ∈ nodesToAssign g) stops /\
               currentLoad v' = load_after g (currentLoad v) stops /\
               (0 <= currentLoad v ->
                currentLoad v + load_of g stops < 2 ^ 31 ->
                currentLoad v' = currentLoad v + load_of g stops))
          vehicles (allocateVehicles g vehicles).
Proof.
  intros _. pose proof (allocate_allocated g vehicles) as H.
  split; [symmetry; by apply (Forall2_length (allocated g))|].
  eapply Forall2_impl; [exact H|].
  intros v v' (Hi & Hc & stops & Hr & Hin & Hl & _).
  split; [done|]. split; [done|]. exists stops.
  split; [done|]. split; [done|]. split; [done|].
  intros H0 Hsum. rewrite Hl. apply load_after_sum; [|done|done].
  eapply Forall_impl; [exact Hin|]. intros y Hy. by apply nodesToAssign_demand.
Qed.

Lemma allocate_routes_and_loads_witness :
  Forall (fun v => route v <> []) fleet /\
  length (allocateVehicles relief fleet) = length fleet.
Proof.
  assert (Forall (fun v => route v <> []) fleet) as H
      by (constructor; [done|]; constructor; [done|]; constructor).
  split; [exact H|exact (proj1 (allocate_routes_and_loads relief fleet H))].
Defined.

(** X15: a vehicle is only sent where it can get.  Every stop given to a
    vehicle can be reached along the roads from the stop before it (the
    last stop of the route the vehicle came with, for the first one), and
    the distance [dijkstra] gave between the two is below [DBL_MAX]; so
    every stop can be reached from where the vehicle stood at the start.
    This holds on every graph. *)
Theorem allocate_stops_reachable (g : Graph) (vehicles : list Vehicle) :
  Forall (fun v => route v <> []) vehicles ->
  Forall2 (fun v v' =>
             exists stops,
               route v' = route v ++ stops ++ [0] /\
               hops g (route_back (route v)) stops /\
               forall x, x ∈ stops -> reachable g (route_back (route v)) x)
          vehicles (allocateVehicles g vehicles).
Proof.
  intros _. eapply Forall2_impl; [exact (allocate_allocated g vehicles)|].
  intros v v' (_ & _ & stops & Hr & _ & _ & Hh).
  exists stops. split; [done|]. split; [done|]. by apply hops_reach.
Qed.

Lemma allocate_stops_reachable_witness :
  Forall (fun v => route v <> []) fleet /\
  Forall2 (fun v v' =>
             exists stops,
               route v' = route v ++ stops ++ [0] /\
               hops relief (route_back (route v)) stops /\
               forall x, x ∈ stops -> reachable relief (route_back (route v)) x)
          fleet (allocateVehicles relief fleet).
Proof.
  assert (Forall (fun v => route v <> []) fleet) as H
      by (constructor; [done|]; constructor; [done|]; constructor).
  split; [exact H|exact (allocate_stops_reachable relief fleet H)].
Defined.

(** X16: a location that no vehicle has room for is in no route.  The
    vehicles start with a load between 0 and their capacity, and no
    capacity plus a demand of the processing list reaches 2^31, so that no
    addition leaves the range of [int].  If the demand of [x] is then more
    than what is left in every vehicle at the start, no route of the result
    holds [x]. *)
Theorem allocate_too_big (g : Graph) (vehicles : list Vehicle) (x : Z) (node : Node) :
  getNode g x = Some node -> x <> 0 ->
  Forall (fun v => route v <> [] /\ (x ∉ route v) /\
                   0 <= currentLoad v <= capacity v /\
                   Forall (fun y => capacity v + demand_of g y < 2 ^ 31)
                          (nodesToAssign g) /\
                   capacity v < currentLoad v + demand node) vehicles ->
  Forall (fun v' => x ∉ route v') (allocateVehicles g vehicles).
Proof.
  intros Hnode Hx0 Hall.
  assert (forall order vs,
            (forall y, y ∈ order -> y ∈ nodesToAssign g) ->
            Forall (fun v => (x ∉ route v) /\ calm g v /\
                             capacity v < currentLoad v + demand node) vs ->
            Forall (fun v => (x ∉ route v) /\ calm g v /\
                             capacity v < currentLoad v + demand node)
                   (assign_all g order vs)) as Hfold.
  { induction order as [|y order IH]; intros vs Hsub Hvs; simpl; [done|].
    apply IH; [intros z Hz; apply Hsub; by right|].
    assert (y ∈ nodesToAssign g) as Hy by (apply Hsub; by left).
    destruct (assign_node_outcome g vs y)
      as [[-> _]|(node' & k & v & Hnode' & Hk & [Hserve _] & ->)]; [done|].
    apply Forall_alter; [done|]. intros v0 Hv0 (Hnot & Hcalm & Hfull).
    assert (v0 = v) as -> by congruence.
    assert (demand_of g y = demand node') as Hdem
        by (unfold demand_of; by rewrite Hnode').
    destruct (canServe_calm g v y Hcalm Hy) as [Hs Hw].
    rewrite Hdem in Hs, Hw. rewrite Hs in Hserve. apply Z.leb_le in Hserve.
    pose proof (nodesToAssign_demand g y Hy) as Hpos. rewrite Hdem in Hpos.
    assert (y <> x) as Hne.
    { intros ->. assert (node' = node) as -> by congruence. lia. }
    destruct Hcalm as [Hl Hb]. simpl. rewrite Hw.
    split; [|split; [split; [simpl; lia|done]|lia]].
    rewrite elem_of_app, list_elem_of_singleton. intros [?|?]; [done|congruence]. }
  unfold allocateVehicles. apply Forall_fmap.
  eapply Forall_impl.
  - apply (Hfold (nodesToAssign g) vehicles); [done|].
    eapply Forall_impl; [exact Hall|]. intros v (_ & ? & ? & ? & ?). by split.
  - intros v [Hnot _]. simpl.
    rewrite elem_of_app, list_elem_of_singleton. intros [?|?]; [done|congruence].
Qed.

Lemma nodesToAssign_relief : nodesToAssign relief = [2; 1].
Proof. by vm_compute. Qed.

Lemma allocate_too_big_witness :
  getNode relief 2 = Some (mkNode 2 5 5) /\ 2 <> 0 /\
  Forall (fun v => route v <> [] /\ (2 ∉ route v) /\
                   0 <= currentLoad v <= capacity v /\
                   Forall (fun y => capacity v + demand_of relief y < 2 ^ 31)
                          (nodesToAssign relief) /\
                   capacity v < currentLoad v + demand (mkNode 2 5 5))
         [new_vehicle 1 4] /\
  Forall (fun v' => 2 ∉ route v') (allocateVehicles relief [new_vehicle 1 4]).
Proof.
  assert (getNode relief 2 = Some (mkNode 2 5 5)) as H1 by (by vm_compute).
  assert (Forall (fun v => route v <> [] /\ (2 ∉ route v) /\
                           0 <= currentLoad v <= capacity v /\
                           Forall (fun y => capacity v + demand_of relief y < 2 ^ 31)
                                  (nodesToAssign relief) /\
                           capacity v < currentLoad v + demand (mkNode 2 5 5))
                 [new_vehicle 1 4]) as H2.
  { constructor; [|constructor]. simpl. split; [done|]. split.
    { intros H. apply list_elem_of_singleton in H. lia. }
    split; [lia|]. split; [|lia].
    rewrite nodesToAssign_relief.
    constructor; [by vm_compute|]. constructor; [by vm_compute|]. constructor. }
  split; [exact H1|]. split; [lia|]. split; [exact H2|].
  apply (allocate_too_big relief [new_vehicle 1 4] 2 (mkNode 2 5 5) H1); [lia|exact H2].
Defined.

End Routes.

(** ** Allocation.h: the locations left out *)

Module Coverage.

Import Walks Allocation Routes.

Lemma route_back_in (r : list Z) : r <> [] -> route_back r ∈ r.
Proof.
  unfold route_back. induction r as [|a r IH]; [done|]. intros _.
  destruct r as [|b r]; [by left|].
  right. change (List.last (b :: r) 0 ∈ b :: r). by apply IH.
Qed.

Lemma Forall2_carry {A} (R : A -> A -> Prop) (P Q : A -> Prop) l k :
  (forall a b, R a b -> P a -> Q b) -> Forall2 R l k -> Forall P l -> Forall Q k.
Proof.
  intros HR. induction 1 as [|a b l k Hab _ IH]; [done|].
  intros Hl. apply Forall_cons in Hl as [Ha Hl]. constructor; [by apply (HR a b)|by apply IH].
Qed.

Lemma assign_all_app g l1 l2 vs :
  assign_all g (l1 ++ l2) vs = assign_all g l2 (assign_all g l1 vs).
Proof. unfold assign_all. by rewrite fold_left_app. Qed.

(** X17: a location of the processing list that ends up in no route was
    turned down by every vehicle.  The vehicles start with a load between 0
    and their capacity, and no capacity plus a demand of the processing
    list reaches 2^31, so that no addition leaves the range of [int].  Then
    for each vehicle of the result there is no room left for the demand of
    the location, or the vehicle stood at a stop of its route from which
    [dijkstra] gave the location a distance of [DBL_MAX] or more. *)
Theorem unserved_had_no_taker (g : Graph) (vehicles : list Vehicle) (x : Z) :
  Forall (fun v => route v <> [] /\
                   0 <= currentLoad v <= capacity v /\
                   Forall (fun y => capacity v + demand_of g y < 2 ^ 31)
                          (nodesToAssign g)) vehicles ->
  x ∈ nodesToAssign g ->
  Forall (fun v' => x ∉ route v') (allocateVehicles g vehicles) ->
  Forall (fun v' => capacity v' < currentLoad v' + demand_of g x \/
                    exists a, a ∈ route v' /\ (DBL_MAX <= distance g a x)%Q)
         (allocateVehicles g vehicles).
Proof.
  intros Hstart Hx Hout.
  assert (Forall (fun v => route v <> [] /\ calm g v) vehicles) as Hne
      by (eapply Forall_impl; [exact Hstart|]; intros v (? & ? & ?); by split).
  clear Hstart.
  destruct (list_elem_of_split _ _ Hx) as (l1 & l2 & Hsplit).
  assert (forall y, y ∈ l1 -> y ∈ nodesToAssign g) as Hsub1
      by (intros y Hy; rewrite Hsplit, elem_of_app; by left).
  assert (forall y, y ∈ l2 -> y ∈ nodesToAssign g) as Hsub2
      by (intros y Hy; rewrite Hsplit, elem_of_app; right; by right).
  unfold allocateVehicles in *. rewrite Hsplit in Hout |- *.
  rewrite assign_all_app in Hout |- *. cbn [assign_all fold_left] in Hout |- *.
  fold (assign_all g l2) in Hout |- *.
  set (vs1 := assign_all g l1 vehicles) in *.
  assert (Forall (fun v => route v <> [] /\ calm g v) vs1) as Hne1.
  { apply (Forall2_carry (grows g) (fun v => route v <> [] /\ calm g v)
             (fun v => route v <> [] /\ calm g v) vehicles vs1);
      [|by apply assign_all_grows|done].
    intros a b (_ & _ & (stops & -> & _) & Hk) [Ha Hcalm].
    split; [by destruct (route a)|]. by apply Hk. }
  pose proof (assign_all_grows g l2 (assign_node g vs1 x) Hsub2) as Hgrow.
  destruct (assign_node_outcome g vs1 x)
    as [[Hsame Hnone]|(node & k & v & Hnode & Hk & _ & Halter)].
  - rewrite Hsame in Hgrow |- *. apply Forall_fmap.
    assert (exists node, getNode g x = Some node /\ demand_of g x = demand node)
      as (node & Hnode & Hdem).
    { pose proof (nodesToAssign_demand g x Hx) as Hpos. unfold demand_of in *.
      destruct (getNode g x) as [node|]; [by exists node|lia]. }
    apply (Forall2_carry (grows g)
             (fun v => v ∈ vs1) _ vs1 _); [|exact Hgrow|by apply Forall_forall].
    intros a b (_ & Hc & (stops & Hr & Hin & Hl & _) & Hkeep) Ha. simpl.
    pose proof (Hnone node Hnode a Ha) as Hnot.
    destruct (proj1 (Forall_forall _ _) Hne1 a Ha) as [Hra Hcalm].
    destruct (Hkeep Hcalm) as [_ Hle].
    destruct (canServe a (demand node)) eqn:Hserve.
    + right. exists (route_back (route a)). split.
      * rewrite Hr, !elem_of_app. left. left. by apply route_back_in.
      * apply Qnot_lt_le. intros Hlt. apply Hnot. by split.
    + left. destruct (canServe_calm g a x Hcalm Hx) as [Hs _].
      rewrite Hdem in Hs |- *. rewrite Hs in Hserve. apply Z.leb_gt in Hserve. lia.
  - exfalso. rewrite Halter in Hgrow, Hout.
    assert (alter (vehicle_addNode x (demand node)) k vs1 !! k
            = Some (vehicle_addNode x (demand node) v)) as Hk'
        by (rewrite list_lookup_alter, decide_True by done; by rewrite Hk).
    destruct (Forall2_lookup_l _ _ _ _ _ Hgrow Hk')
      as (b & Hb & _ & _ & (stops & Hr & _) & _).
    assert ((finalizeRoute <$> assign_all g l2
               (alter (vehicle_addNode x (demand node)) k vs1)) !! k
            = Some (finalizeRoute b)) as Hfin
        by (by rewrite list_lookup_fmap, Hb).
    apply (Forall_lookup_1 _ _ _ _ Hout Hfin). simpl. rewrite Hr. simpl.
    rewrite !elem_of_app, list_elem_of_singleton. left. left. by right.
Qed.

Lemma unserved_had_no_taker_witness :
  Forall (fun v => route v <> [] /\
                   0 <= currentLoad v <= capacity v /\
                   Forall (fun y => capacity v + demand_of relief y < 2 ^ 31)
                          (nodesToAssign relief)) [new_vehicle 1 4] /\
  2 ∈ nodesToAssign relief /\
  Forall (fun v' => 2 ∉ route v') (allocateVehicles relief [new_vehicle 1 4]) /\
  Forall (fun v' => capacity v' < currentLoad v' + demand_of relief 2 \/
                    exists a, a ∈ route v' /\ (DBL_MAX <= distance relief a 2)%Q)
         (allocateVehicles relief [new_vehicle 1 4]).
Proof.
  assert (Forall (fun v => route v <> [] /\
                   0 <= currentLoad v <= capacity v /\
                   Forall (fun y => capacity v + demand_of relief y < 2 ^ 31)
                          (nodesToAssign relief)) [new_vehicle 1 4]) as H1.
  { constructor; [|constructor]. simpl. split; [done|]. split; [lia|].
    rewrite nodesToAssign_relief.
    constructor; [by vm_compute|]. constructor; [by vm_compute|]. constructor. }
  assert (2 ∈ nodesToAssign relief) as H2
      by (by apply (bool_decide_unpack _); vm_compute).
  assert (Forall (fun v' => 2 ∉ route v') (allocateVehicles relief [new_vehicle 1 4]))
    as H3.
  { assert (allocateVehicles relief [new_vehicle 1 4] = [mkVehicle 1 4 0 [0; 0]]) as ->
        by (by vm_compute).
    constructor; [|constructor]. simpl. intros H.
    apply elem_of_cons in H as [H|H]; [lia|].
    apply list_elem_of_singleton in H. lia. }
  split; [exact H1|]. split; [exact H2|]. split; [exact H3|].
  exact (unserved_had_no_taker relief [new_vehicle 1 4] 2 H1 H2 H3).
Defined.

End Coverage.

(** ** Utils.h: the size of the costs *)

Module CostFacts.

Import CostModel.

(** Every road has a reliability between 0 and 1. *)
Definition reliabilities_ok (g : Graph) : Prop :=
  forall u st, st ∈ getNeighbors g u ->
    (0 <= reliability (snd st))%Q /\ (reliability (snd st) <= 1)%Q.

Definition reliabilities_check (g : Graph) : bool :=
  Dijkstra.all_entries g
    (fun _ st => Qle_bool 0 (reliability (snd st)) && Qle_bool (reliability (snd st)) 1).

Lemma reliabilities_check_spec g : reliabilities_check g = true -> reliabilities_ok g.
Proof.
  intros H u st Hst.
  pose proof (Dijkstra.all_entries_spec g _ u st H Hst) as Hb. simpl in Hb.
  apply andb_true_iff in Hb as [H1 H2]. split; by apply Qle_bool_iff.
Qed.

Lemma traversed_nonneg g r p :
  In p (traversed g r) -> (0 <= getEdgeCost g (fst p) (snd p))%Q.
Proof.
  unfold traversed. rewrite filter_In. intros [_ H].
  apply negb_true_iff in H. by apply Qltb_false.
Qed.

Lemma Qsum_nonneg l : (forall x, In x l -> (0 <= x)%Q) -> (0 <= Qsum l)%Q.
Proof.
  induction l as [|x l IH]; intros H; simpl; [lra|].
  pose proof (H x (or_introl eq_refl)).
  assert (0 <= Qsum l)%Q by (apply IH; intros y Hy; apply H; by right). lra.
Qed.

Lemma Qsum_perm l l' : l ≡ₚ l' -> (Qsum l == Qsum l')%Q.
Proof. induction 1; simpl; lra. Qed.

Lemma Qprod_unit l :
  (forall x, In x l -> (0 <= x)%Q /\ (x <= 1)%Q) ->
  (0 <= Qprod l)%Q /\ (Qprod l <= 1)%Q.
Proof.
  induction l as [|x l IH]; intros H; simpl; [lra|].
  destruct (H x (or_introl eq_refl)) as [Hx0 Hx1].
  destruct IH as [Hp0 Hp1]; [intros y Hy; apply H; by right|].
  split.
  - by apply Qmult_le_0_compat.
  - apply Qle_trans with (1 * Qprod l)%Q; [by apply Qmult_le_compat_r|lra].
Qed.

Lemma spec_totalTime_nonneg g r : (0 <= spec_totalTime g r)%Q.
Proof.
  unfold spec_totalTime. apply Qsum_nonneg. intros x Hx.
  apply in_map_iff in Hx as (p & <- & Hp). by apply (traversed_nonneg g r).
Qed.

Lemma traversed_reliability g r p :
  reliabilities_ok g -> In p (traversed g r) ->
  (0 <= getEdgeReliability g (fst p) (snd p))%Q /\
  (getEdgeReliability g (fst p) (snd p) <= 1)%Q.
Proof.
  intros Hok Hp. apply traversed_nonneg in Hp.
  pose proof (EdgeFacts.lookups_first g (fst p) (snd p)) as L.
  destruct (matches (snd p) (getNeighbors g (fst p))) as [|e l] eqn:E.
  - destruct L as [Hc _]. rewrite Hc in Hp. lra.
  - destruct L as [_ ->].
    apply (Hok (fst p) (snd p, e)). apply EdgeFacts.elem_of_matches.
    rewrite E. by left.
Qed.

Lemma spec_penalty_unit g r :
  reliabilities_ok g ->
  (0 <= spec_reliabilityPenalty g r)%Q /\ (spec_reliabilityPenalty g r <= 1)%Q.
Proof.
  intros Hok. unfold spec_reliabilityPenalty.
  destruct (Qprod_unit
              (map (fun p => getEdgeReliability g (fst p) (snd p)) (traversed g r)))
    as [H0 H1]; [|lra].
  intros x Hx. apply in_map_iff in Hx as (p & <- & Hp).
  by apply (traversed_reliability g r).
Qed.

Lemma route_cost_sizes g r cap load :
  (0 <= totalTime (calculateRouteCost g r cap load))%Q /\
  (reliabilities_ok g ->
     (0 <= reliabilityPenalty (calculateRouteCost g r cap load))%Q /\
     (reliabilityPenalty (calculateRouteCost g r cap load) <= 1)%Q) /\
  (reliabilities_ok g -> load <= cap -> cap - load < 2 ^ 31 ->
     (0 <= idleTime (calculateRouteCost g r cap load))%Q /\
     (0 <= finalScore (calculateRouteCost g r cap load))%Q).
Proof.
  destruct (calculateRouteCost_refines g r cap load) as (Ht & Hp & Hi & Hf).
  rewrite Ht, Hp, Hi, Hf. clear Ht Hp Hi Hf.
  pose proof (spec_totalTime_nonneg g r) as Htime.
  unfold spec_routeCost. destruct (length r <? 2)%nat; simpl.
  - split; [lra|]. split; intros; lra.
  - split; [done|]. split.
    + intros Hok. by apply spec_penalty_unit.
    + intros Hok Hload Hfit. destruct (spec_penalty_unit g r Hok) as [H0 H1].
      assert (0 <= inject_Z (wrap (cap - load)))%Q as Hidle.
      { rewrite wrap_id by lia.
        change 0%Q with (inject_Z 0). rewrite <- Zle_Qle. lia. }
      split; [done|]. lra.
Qed.

(** X18: the size of the four figures of a route.  The total time is never
    negative, on any graph and route.  When every road has a reliability
    between 0 and 1, the reliability penalty is between 0 and 1 as well;
    and when in addition the load is within the capacity, and the capacity
    left is below 2^31 so that the subtraction stays in the range of [int],
    the idle time and the final score are not negative. *)
Theorem route_cost_bounds (g : Graph) (r : list Z) (cap load : Z) :
  (0 <= totalTime (calculateRouteCost g r cap load))%Q /\
  (reliabilities_ok g ->
     (0 <= reliabilityPenalty (calculateRouteCost g r cap load))%Q /\
     (reliabilityPenalty (calculateRouteCost g r cap load) <= 1)%Q) /\
  (reliabilities_ok g -> load <= cap -> cap - load < 2 ^ 31 ->
     (0 <= idleTime (calculateRouteCost g r cap load))%Q /\
     (0 <= finalScore (calculateRouteCost g r cap load))%Q).
Proof. apply route_cost_sizes. Qed.

Definition tour : list Z := [0; 2; 1; 0].

Lemma route_cost_bounds_witness :
  reliabilities_ok Allocation.relief /\ 5 <= 7 /\ 7 - 5 < 2 ^ 31 /\
  (0 <= finalScore (calculateRouteCost Allocation.relief tour 7 5))%Q.
Proof.
  assert (reliabilities_ok Allocation.relief) as H
      by (by apply reliabilities_check_spec; vm_compute).
  split; [exact H|]. split; [lia|]. split; [lia|].
  destruct (route_cost_bounds Allocation.relief tour 7 5) as (_ & _ & Hb).
  refine (proj2 (Hb H _ _)); lia.
Defined.

(** *** The total over the vehicles *)

Definition score (g : Graph) (v : Vehicle) : Q :=
  finalScore (calculateRouteCost g (route v) (capacity v) (currentLoad v)).

Lemma total_from g vs : forall acc,
  (forall v, v ∈ vs -> (0 <= score g v)%Q) -> (0 <= acc)%Q ->
  (0 <= fold_left (fun totalCost vehicle => (totalCost + score g vehicle)%Q) vs acc)%Q.
Proof.
  induction vs as [|v vs IH]; intros acc Hvs Hacc; simpl; [done|].
  apply IH; [intros w Hw; apply Hvs; by right|].
  assert (0 <= score g v)%Q by (apply Hvs; by left). lra.
Qed.

(** X20: [calculateTotalCost] is 0 for no vehicle.  When every road has a
    reliability between 0 and 1 and every vehicle a load within its
    capacity, with the capacity left below 2^31, the total is not
    negative. *)
Theorem total_cost_sum (g : Graph) (vs : list Vehicle) :
  calculateTotalCost g [] = 0%Q /\
  (reliabilities_ok g ->
   Forall (fun v => currentLoad v <= capacity v /\
                    capacity v - currentLoad v < 2 ^ 31) vs ->
   (0 <= calculateTotalCost g vs)%Q).
Proof.
  split; [done|].
  intros Hok Hcap. unfold calculateTotalCost.
  change (fun totalCost vehicle => _)
    with (fun totalCost vehicle => (totalCost + score g vehicle)%Q).
  apply total_from; [|lra].
  intros v Hv. destruct (proj1 (Forall_forall _ _) Hcap v Hv) as [H1 H2].
  destruct (route_cost_sizes g (route v) (capacity v) (currentLoad v))
    as (_ & _ & Hb).
  exact (proj2 (Hb Hok H1 H2)).
Qed.

Lemma total_cost_sum_witness :
  reliabilities_ok Allocation.relief /\
  Forall (fun v => currentLoad v <= capacity v /\
                   capacity v - currentLoad v < 2 ^ 31) Allocation.fleet /\
  (0 <= calculateTotalCost Allocation.relief Allocation.fleet)%Q.
Proof.
  assert (reliabilities_ok Allocation.relief) as H2
      by (by apply reliabilities_check_spec; vm_compute).
  assert (Forall (fun v => currentLoad v <= capacity v /\
                           capacity v - currentLoad v < 2 ^ 31) Allocation.fleet) as H3.
  { constructor; [simpl; lia|]. constructor; [simpl; lia|]. constructor. }
  split; [exact H2|]. split; [exact H3|].
  exact (proj2 (total_cost_sum Allocation.relief Allocation.fleet) H2 H3).
Defined.

End CostFacts.

(** ** main.cpp: allocation followed by optimisation *)

Module Pipeline.

Import Allocation Routes TwoOpt.

Lemma twoOpt_keeps g r :
  twoOpt g r ≡ₚ r /\ head (twoOpt g r) = head r /\ last (twoOpt g r) = last r.
Proof.
  pose proof (twoOpt_run_Some g r) as Hrun. unfold twoOpt_run in Hrun.
  destruct (length r <=? 3)%nat; [by injection Hrun as <-|].
  by destruct (twoOpt_loop_keeps g _ _ _ Hrun) as (? & ? & ? & _).
Qed.

Lemma served_optimize g vs : served (optimizeRoutes g vs) ≡ₚ served vs.
Proof.
  induction vs as [|v vs IH]; [done|].
  unfold optimizeRoutes in *. simpl map. rewrite !served_cons, IH. simpl.
  by rewrite (proj1 (twoOpt_keeps g (route v))).
Qed.

Lemma allocate_served_NoDup g vehicles :
  NoDup (getAllNodeIds g) -> Forall (fun v => route v = [0]) vehicles ->
  NoDup (served (allocateVehicles g vehicles)).
Proof.
  intros Hids Hstart. unfold allocateVehicles. rewrite served_finalize.
  assert (served vehicles = []) as Hempty.
  { clear Hids. induction Hstart as [|v vs Hv _ IH]; [done|].
    rewrite served_cons, IH, Hv. rewrite filter_cons, filter_nil.
    by case_decide. }
  apply assign_all_served.
  - unfold nodesToAssign. rewrite std_sort_perm. unfold collect_nodes.
    apply NoDup_ListNoDup, List.NoDup_filter, NoDup_ListNoDup, Hids.
  - rewrite Hempty. constructor.
  - intros x. rewrite Hempty. intros Hx. inversion Hx.
Qed.

Lemma allocate_within g vehicles :
  Forall within_capacity vehicles ->
  Forall within_capacity (allocateVehicles g vehicles).
Proof.
  intros H. unfold allocateVehicles. apply Forall_fmap.
  eapply Forall_impl; [by apply assign_all_within|]. by intros v Hv.
Qed.

Lemma Forall2_and_r {A B} (R : A -> B -> Prop) (P : B -> Prop) l k :
  Forall2 R l k -> Forall P k -> Forall2 (fun a b => R a b /\ P b) l k.
Proof.
  induction 1 as [|a b l k Hab _ IH]; intros Hk; [constructor|].
  apply Forall_cons in Hk as [Hb Hk]. constructor; [done|by apply IH].
Qed.

Lemma Forall2_and_l {A B} (R : A -> B -> Prop) (P : A -> Prop) l k :
  Forall2 R l k -> Forall P l -> Forall2 (fun a b => R a b /\ P a) l k.
Proof.
  induction 1 as [|a b l k Hab _ IH]; intros Hl; [constructor|].
  apply Forall_cons in Hl as [Ha Hl]. constructor; [done|by apply IH].
Qed.

(** A vehicle as [Vehicle(id, capacity)] makes it, with a capacity that is
    not negative. *)
Definition fresh (v : Vehicle) : Prop :=
  route v = [0] /\ currentLoad v = 0 /\ 0 <= capacity v.

(** What the two steps of [main] do to one vehicle. *)
Definition planned (g : Graph) (v v' : Vehicle) : Prop :=
  vehicle_id v' = vehicle_id v /\ capacity v' = capacity v /\
  currentLoad v' <= capacity v' /\
  head (route v') = Some 0 /\ last (route v') = Some 0 /\
  exists stops,
    route v' ≡ₚ 0 :: stops ++ [0] /\
    Forall (fun x => x ∈ nodesToAssign g) stops /\
    currentLoad v' = load_after g 0 stops /\
    (load_of g stops < 2 ^ 31 -> currentLoad v' = load_of g stops).

(** X21: the routes that [main] prints.  For vehicles made by
    [Vehicle(id, capacity)] on a graph made by the loader, after the
    allocation and the 2-opt step every vehicle has its id and capacity, a
    load within its capacity that is what adding the demands of its stops
    one by one in 32-bit arithmetic gives (their sum, where the sum is below
    2^31), and a route that starts and ends at the depot 0; and no location
    other than the depot is in two routes or twice in one. *)
Theorem plan_routes_sound (g : Graph) (vehicles : list Vehicle) :
  NoDup (getAllNodeIds g) -> Forall fresh vehicles ->
  Forall2 (planned g) vehicles (planRoutes g vehicles) /\
  NoDup (served (planRoutes g vehicles)).
Proof.
  intros Hids Hfresh. split.
  - unfold planRoutes, optimizeRoutes. apply Forall2_fmap_r.
    assert (Forall within_capacity (allocateVehicles g vehicles)) as Hcap.
    { apply allocate_within. eapply Forall_impl; [exact Hfresh|].
      intros v (_ & Hl & Hc). unfold within_capacity. lia. }
    pose proof (Forall2_and_l _ _ _ _
                  (Forall2_and_r _ _ _ _ (allocate_allocated g vehicles) Hcap)
                  Hfresh) as H.
    eapply Forall2_impl; [exact H|].
    intros v v' [[(Hi & Hc & stops & Hr & Hin & Hl & _) Hw] (Hv & Hl0 & _)].
    unfold planned, compose. simpl.
    destruct (twoOpt_keeps g (route v')) as (Hp & Hh & Hla).
    rewrite Hv in Hr. simpl in Hr.
    split; [done|]. split; [done|]. split; [done|].
    split; [by rewrite Hh, Hr|].
    split; [by rewrite Hla, Hr, app_comm_cons, last_snoc|].
    exists stops. split; [by rewrite Hp, Hr|]. split; [done|].
    rewrite Hl0 in Hl. split; [done|].
    intros Hsum. rewrite Hl. rewrite load_after_sum; [lia| |lia|lia].
    eapply Forall_impl; [exact Hin|]. intros y Hy. by apply nodesToAssign_demand.
  - unfold planRoutes. rewrite served_optimize.
    apply allocate_served_NoDup; [done|].
    eapply Forall_impl; [exact Hfresh|]. by intros v (? & _).
Qed.

Lemma plan_routes_sound_witness :
  NoDup (getAllNodeIds relief) /\ Forall fresh fleet /\
  Forall2 (planned relief) fleet (planRoutes relief fleet) /\
  NoDup (served (planRoutes relief fleet)).
Proof.
  assert (NoDup (getAllNodeIds relief)) as H1 by apply build_nodes_NoDup.
  assert (Forall fresh fleet) as H2.
  { constructor; [|constructor; [|constructor]]; unfold fresh; simpl;
      (split; [done|lia]). }
  split; [exact H1|]. split; [exact H2|].
  exact (plan_routes_sound relief fleet H1 H2).
Defined.

End Pipeline.

(** ** algorithms.h: astar without conditions on the heuristic *)

Module AStarAny.

Import Walks Queue Search Fuel AStar.

Lemma at_key_touch k (m : gmap Z Q) x : at_key (touch k m) x = at_key m x.
Proof.
  unfold touch. destruct (m !! k) eqn:E; [done|].
  unfold at_key. rewrite lookup_insert. case_decide; [|done]. subst. by rewrite E.
Qed.

Section Sound.

Variable g : Graph.
Variables source target : Z.

Hypothesis nonneg : nonneg_costs g.
Hypothesis source_ok : source <> -1.
Hypothesis ids_ok : forall u st, st ∈ getNeighbors g u -> fst st <> -1.

(** The state of the search as far as the path is concerned: scores are not
    negative, each [cameFrom] entry is a road whose ends have scores that
    fit, and from each node that has an entry or is in the queue the
    entries lead back to the source. *)
Record AS (G : gmap Z Q) (cf : gmap Z Z) (pq : list (Q * Z)) : Prop := mkAS {
  as_src : G !! source = Some 0%Q;
  as_nonneg : forall x d, G !! x = Some d -> (0 <= d)%Q;
  as_root : cf !! source = None;
  as_edge : forall w p, cf !! w = Some p ->
      exists e, (w, e) ∈ getNeighbors g p /\ (at_key G p + cost e <= at_key G w)%Q;
  as_chain : forall w p, cf !! w = Some p ->
      exists l, chain cf w l /\ head l = Some source;
  as_pq : forall k x, (k, x) ∈ pq -> exists l, chain cf x l /\ head l = Some source
}.

Lemma at_key_nonneg G cf pq x : AS G cf pq -> (0 <= at_key G x)%Q.
Proof.
  intros HA. unfold at_key. destruct (G !! x) as [d|] eqn:E; [|lra].
  by apply (as_nonneg _ _ _ HA x).
Qed.

Lemma as_touch G cf pq k : AS G cf pq -> AS (touch k G) cf pq.
Proof.
  intros [H1 H2 H3 H4 H5 H6]. split; try done.
  - unfold touch. destruct (G !! k) eqn:E; [done|].
    rewrite lookup_insert. case_decide; [congruence|done].
  - intros x d. unfold touch. destruct (G !! k) eqn:E; [apply H2|].
    rewrite lookup_insert. case_decide; [intros [= <-]; lra|apply H2].
  - intros w p Hw. destruct (H4 w p Hw) as (e & He & Hle).
    exists e. by rewrite !at_key_touch.
Qed.

(** Scores do not go down towards the source. *)
Lemma chain_mono G cf pq w l :
  AS G cf pq -> chain cf w l -> forall x, x ∈ l -> (at_key G x <= at_key G w)%Q.
Proof.
  intros HA. induction 1 as [v Hv|v p l Hv Hp IH Hnot]; intros x Hx.
  - apply list_elem_of_singleton in Hx as ->. lra.
  - apply elem_of_app in Hx as [Hx|Hx].
    + destruct (as_edge _ _ _ HA v p Hv) as (e & He & Hle).
      pose proof (nonneg p (v, e) He) as Hc. simpl in Hc.
      specialize (IH x Hx). lra.
    + apply list_elem_of_singleton in Hx as ->. lra.
Qed.

Lemma chain_head_app cf w l (l' : list Z) :
  chain cf w l -> head l = Some source -> head (l ++ l') = Some source.
Proof. intros Hc Hh. destruct l; [done|]. done. Qed.

Section Update.

Variables (G : gmap Z Q) (cf : gmap Z Z) (pq : list (Q * Z)).
Variables (u v : Z) (e : Edge) (lu : list Z).

Hypothesis HA : AS G cf pq.
Hypothesis Hlu : chain cf u lu.
Hypothesis Hhead : head lu = Some source.
Hypothesis Hroad : (v, e) ∈ getNeighbors g u.
Hypothesis Hless : (at_key G u + cost e < at_key G v)%Q.

Lemma road_nonneg : (0 <= cost e)%Q.
Proof. apply (nonneg u (v, e) Hroad). Qed.

Lemma new_not_on_chain : v ∉ lu.
Proof.
  intros Hin. pose proof (chain_mono G cf pq u lu HA Hlu v Hin).
  pose proof road_nonneg. lra.
Qed.

Lemma new_not_source : v <> source.
Proof.
  intros Hv. pose proof (at_key_Some G source 0%Q (as_src _ _ _ HA)) as Hs.
  pose proof (at_key_nonneg G cf pq u HA). pose proof road_nonneg.
  pose proof Hless as Hl. rewrite Hv, Hs in Hl. lra.
Qed.

Lemma new_not_parent : u <> v.
Proof.
  intros Huv. pose proof road_nonneg. pose proof Hless as Hl.
  rewrite Huv in Hl. lra.
Qed.

Lemma chain_parent : chain (<[v := u]> cf) u lu.
Proof. apply chain_insert; [done|apply new_not_on_chain]. Qed.

Lemma chain_new : chain (<[v := u]> cf) v (lu ++ [v]).
Proof.
  apply (chain_step _ v u lu); [by rewrite lookup_insert, decide_True|
                              apply chain_parent|apply new_not_on_chain].
Qed.

(** A chain through [v] keeps its part after [v] and gets the new way to
    [v] in front. *)
Lemma chain_through w l :
  chain cf w l -> v ∈ l ->
  exists l2, chain (<[v := u]> cf) w ((lu ++ [v]) ++ l2) /\
             forall x, x ∈ l2 -> x ∈ l /\ x <> v /\ x ∉ lu.
Proof.
  induction 1 as [w Hw|w p l Hw Hp IH Hnot]; intros Hin.
  - apply list_elem_of_singleton in Hin. subst w. exists [].
    rewrite app_nil_r. split; [apply chain_new|]. intros x Hx. inversion Hx.
  - destruct (decide (w = v)) as [Heq|Hne].
    + subst w. exists []. rewrite app_nil_r. split; [apply chain_new|].
      intros x Hx. inversion Hx.
    + apply elem_of_app in Hin as [Hin|Hin];
        [|apply list_elem_of_singleton in Hin; congruence].
      destruct (IH Hin) as (l2 & Hc & Hl2).
      assert (w ∉ lu) as Hwlu.
      { intros Hwin.
        pose proof (chain_mono G cf pq u lu HA Hlu w Hwin) as H1.
        assert (chain cf w (l ++ [w])) as Hcw by (by apply (chain_step _ w p l)).
        assert (v ∈ l ++ [w]) as Hvin by (apply elem_of_app; by left).
        pose proof (chain_mono G cf pq w _ HA Hcw v Hvin) as H2.
        pose proof road_nonneg. lra. }
      exists (l2 ++ [w]). split.
      * rewrite app_assoc. apply (chain_step _ w p).
        -- rewrite lookup_insert. by rewrite decide_False by congruence.
        -- done.
        -- rewrite !not_elem_of_app. split; [split; [done|]|].
           ++ intros Hx. apply list_elem_of_singleton in Hx. congruence.
           ++ intros Hx. apply Hnot. by apply Hl2.
      * intros x Hx. apply elem_of_app in Hx as [Hx|Hx].
        -- destruct (Hl2 x Hx) as (? & ? & ?). split; [|done].
           apply elem_of_app. by left.
        -- apply list_elem_of_singleton in Hx as ->. split; [|done].
           apply elem_of_app. right. by left.
Qed.

Lemma chain_rebase w l :
  chain cf w l -> head l = Some source ->
  exists l', chain (<[v := u]> cf) w l' /\ head l' = Some source.
Proof.
  intros Hc Hh. destruct (decide (v ∈ l)) as [Hin|Hnot].
  - destruct (chain_through w l Hc Hin) as (l2 & Hc' & _).
    exists ((lu ++ [v]) ++ l2). split; [done|].
    rewrite <- app_assoc. by apply (chain_head_app cf u).
  - exists l. split; [by apply chain_insert|done].
Qed.

Lemma as_update k :
  AS (<[v := (at_key G u + cost e)%Q]> G) (<[v := u]> cf) ((k, v) :: pq).
Proof.
  pose proof new_not_source as Hvs. pose proof new_not_parent as Huv.
  pose proof road_nonneg as Hc.
  assert (exists l, chain (<[v := u]> cf) v l /\ head l = Some source) as Hnew.
  { exists (lu ++ [v]). split; [apply chain_new|by apply (chain_head_app cf u)]. }
  split.
  - rewrite lookup_insert. rewrite decide_False by done. apply (as_src _ _ _ HA).
  - intros x d. rewrite lookup_insert. case_decide.
    + intros [= <-]. pose proof (at_key_nonneg G cf pq u HA). lra.
    + apply (as_nonneg _ _ _ HA).
  - rewrite lookup_insert. rewrite decide_False by done. apply (as_root _ _ _ HA).
  - intros w p. rewrite lookup_insert. destruct (decide (v = w)) as [<-|Hne].
    + intros [= <-]. exists e. split; [done|].
      rewrite !at_key_insert. rewrite decide_False by congruence.
      rewrite decide_True by done. lra.
    + intros Hw. destruct (as_edge _ _ _ HA w p Hw) as (e' & He' & Hle).
      exists e'. split; [done|]. rewrite !at_key_insert.
      rewrite (decide_False (P := v = w)) by done.
      destruct (decide (v = p)) as [<-|]; [lra|done].
  - intros w p. rewrite lookup_insert. destruct (decide (v = w)) as [<-|Hne]; [done|].
    intros Hw. destruct (as_chain _ _ _ HA w p Hw) as (l & Hl & Hh).
    by apply (chain_rebase w l).
  - intros k' x Hin. apply elem_of_cons in Hin as [[= _ ->]|Hin]; [done|].
    destruct (as_pq _ _ _ HA k' x Hin) as (l & Hl & Hh).
    by apply (chain_rebase x l).
Qed.

End Update.

Lemma as_relax u lu nbrs : forall st,
  (forall x, x ∈ nbrs -> x ∈ getNeighbors g u) ->
  AS (gScore st) (cameFrom st) (open_pq st) ->
  chain (cameFrom st) u lu -> head lu = Some source ->
  AS (gScore (astar_relax u target nbrs st))
     (cameFrom (astar_relax u target nbrs st))
     (open_pq (astar_relax u target nbrs st)).
Proof.
  induction nbrs as [|[v e] nbrs IH]; intros st Hsub HA Hlu Hh; [done|].
  cbn [astar_relax].
  assert (forall x, x ∈ nbrs -> x ∈ getNeighbors g u) as Hsub'
      by (intros x Hx; apply Hsub; by right).
  assert ((v, e) ∈ getNeighbors g u) as Hroad by (apply Hsub; by left).
  pose proof (as_touch _ _ _ v (as_touch _ _ _ u HA)) as HA1.
  replace (at_key (touch u (gScore st)) u)
    with (at_key (touch v (touch u (gScore st))) u) by (by rewrite at_key_touch).
  set (G1 := touch v (touch u (gScore st))) in *.
  destruct (Qltb (at_key G1 u + cost e) (at_key G1 v)) eqn:Hlt.
  - apply Qltb_true in Hlt. apply IH; simpl; [done| |by apply (chain_parent
      G1 (cameFrom st) (open_pq st) u v e lu)|done].
    by apply (as_update G1 (cameFrom st) (open_pq st) u v e lu).
  - by apply IH.
Qed.

Lemma chain_is_walk G cf pq w l :
  AS G cf pq -> chain cf w l -> head l = Some source ->
  exists p, walk g source p w /\ walk_nodes source p = l.
Proof.
  intros HA. induction 1 as [w Hw|w p l Hw Hp IH Hnot]; intros Hh.
  - injection Hh as ->. by exists [].
  - assert (head l = Some source) as Hh'.
    { pose proof (chain_last _ _ _ Hp) as Hl. destruct l; [done|]. done. }
    destruct (IH Hh') as (q & Hq & Hn).
    destruct (as_edge _ _ _ HA w p Hw) as (e & He & _).
    exists (q ++ [(w, e)]). split.
    + apply (walk_snoc g source q p (w, e) Hq He).
    + unfold walk_nodes in *. rewrite map_app. simpl.
      by rewrite app_comm_cons, Hn.
Qed.

Lemma walk_nodes_ids p : forall x y,
  walk g x p y -> x <> -1 -> -1 ∉ walk_nodes x p.
Proof.
  induction p as [|st p IH]; intros x y Hw Hx Hin.
  - apply list_elem_of_singleton in Hin. congruence.
  - destruct Hw as [Hst Hw]. unfold walk_nodes in Hin. simpl in Hin.
    apply elem_of_cons in Hin as [Hin|Hin]; [congruence|].
    apply (IH (fst st) y Hw (ids_ok x st Hst)). done.
Qed.

(** What a returned path can be. *)
Definition simple_path (path : list Z) : Prop :=
  (exists p, walk g source p target /\ walk_nodes source p = path) /\ NoDup path.

Lemma as_loop fuel : forall V st,
  AS (gScore st) (cameFrom st) (open_pq st) ->
  (weight g V + length (open_pq st) < fuel)%nat ->
  exists path, astar_loop fuel g target V st = Some path /\
               (path = [] \/ simple_path path).
Proof.
  induction fuel as [|fuel IH]; intros V st HA Hfuel; [lia|]. cbn [astar_loop].
  destruct (pq_pop (open_pq st)) as [[[k u] rest]|] eqn:Hpop;
    [|exists []; split; [done|by left]].
  pose proof (skip_measure _ k u rest Hpop) as Hskip.
  destruct (pq_pop_Some _ _ _ Hpop) as [Hperm _].
  assert (AS (gScore st) (cameFrom st) rest) as HA'.
  { destruct HA as [H1 H2 H3 H4 H5 H6]. split; try done.
    intros k' x Hin. apply (H6 k' x). rewrite Hperm. by right. }
  destruct (as_pq _ _ _ HA k u) as (lu & Hlu & Hh); [rewrite Hperm; by left|].
  destruct (visited_at V u) eqn:Hu.
  - apply IH; [done|]. simpl. lia.
  - destruct (Z.eqb_spec u target) as [->|Hne].
    + destruct (chain_is_walk _ _ _ target lu HA Hlu Hh) as (p & Hp & Hn).
      assert (-1 ∉ lu) as Hno
          by (rewrite <- Hn; by apply (walk_nodes_ids p source target)).
      rewrite (reconstruct_chain _ _ _ Hlu Hno (S (size (cameFrom st))) [])
        by apply (chain_length _ _ _ Hlu).
      simpl. rewrite rev_involutive. exists lu. split; [done|]. right.
      split; [by exists p|]. by apply (chain_shape _ _ _ Hlu).
    + apply IH.
      * by apply (as_relax u lu (getNeighbors g u)
                    (mkAStar (gScore st) (fScore st) (cameFrom st) rest)).
      * pose proof (astar_relax_length u target (getNeighbors g u)
                      (mkAStar (gScore st) (fScore st) (cameFrom st) rest)) as Hl.
        pose proof (weight_visit g V u Hu). simpl in Hl. lia.
Qed.

Lemma astar_returns :
  exists path, astar g source target = Some path /\
               (path = [] \/ simple_path path).
Proof.
  unfold astar.
  destruct (astar_init (getAllNodeIds g)) as [[G0 F0] V0] eqn:Hinit.
  apply as_loop; simpl.
  - destruct (astar_init_spec (getAllNodeIds g) ∅ ∅ ∅) as [HG _].
    fold (astar_init (getAllNodeIds g)) in HG. rewrite Hinit in HG. simpl in HG.
    split.
    + by rewrite lookup_insert, decide_True.
    + intros x d. rewrite lookup_insert. case_decide; [intros [= <-]; lra|].
      rewrite HG. case_decide; [|by rewrite lookup_empty].
      intros [= <-]. pose proof DBL_MAX_pos. lra.
    + apply lookup_empty.
    + intros w p Hw. by rewrite lookup_empty in Hw.
    + intros w p Hw. by rewrite lookup_empty in Hw.
    + intros k x Hin. apply list_elem_of_singleton in Hin as [= _ ->].
      exists [source]. split; [by apply chain_root|done].
  - unfold search_fuel, pq_push. pose proof (weight_le_total g V0). simpl. lia.
Qed.

End Sound.

(** No neighbour entry names the id -1, which the path reconstruction of
    [astar] takes for the end of the path. *)
Definition no_minus_one (g : Graph) : Prop :=
  forall u st, st ∈ getNeighbors g u -> fst st <> -1.

Definition no_minus_one_check (g : Graph) : bool :=
  Dijkstra.all_entries g (fun _ st => negb (Z.eqb (fst st) (-1))).

Lemma no_minus_one_check_spec g : no_minus_one_check g = true -> no_minus_one g.
Proof.
  intros H u st Hst.
  pose proof (Dijkstra.all_entries_spec g _ u st H Hst) as Hb. simpl in Hb.
  apply negb_true_iff in Hb. by apply Z.eqb_neq.
Qed.

(** X22: [astar] with the heuristic as it is, which need not fit the road
    costs.  On a graph with no negative cost and no id -1, the search
    returns, and what it returns is the empty path or a path that starts
    at the source, ends at the target, follows a road at every step and
    passes no place twice.  So for a target that cannot be reached the
    result is the empty path. *)
Theorem astar_sound (g : Graph) (source target : Z) :
  nonneg_costs g -> source <> -1 -> no_minus_one g ->
  (exists path,
     astar g source target = Some path /\
     (path = [] \/
      ((exists p, walk g source p target /\ walk_nodes source p = path) /\
       NoDup path))) /\
  (~ reachable g source target -> astar g source target = Some []).
Proof.
  intros Hnn Hs Hids.
  destruct (astar_returns g source target Hnn Hs Hids) as (path & Hrun & Hpath).
  split; [by exists path|].
  intros Hno. destruct Hpath as [->|[(p & Hp & _) _]]; [done|].
  destruct Hno. by exists p.
Qed.

Lemma astar_sound_witness :
  nonneg_costs detour /\ 3 <> -1 /\ no_minus_one detour /\
  exists path,
    astar detour 3 0 = Some path /\
    (path = [] \/
     ((exists p, walk detour 3 p 0 /\ walk_nodes 3 p = path) /\ NoDup path)).
Proof.
  assert (nonneg_costs detour) as H1
      by (by apply Dijkstra.nonneg_check_spec; vm_compute).
  assert (no_minus_one detour) as H2
      by (by apply no_minus_one_check_spec; vm_compute).
  split; [exact H1|]. split; [lia|]. split; [exact H2|].
  refine (proj1 (astar_sound detour 3 0 H1 _ H2)). lia.
Defined.

End AStarAny.

(** ** graph.h: the node table, enumerated and looked up *)

Module NodeTable.

Lemma own_id_fold ops : forall g,
  (forall x n, getNode g x = Some n -> node_id n = x) ->
  forall x n, getNode (fold_left apply_op ops g) x = Some n -> node_id n = x.
Proof.
  induction ops as [|[m|e] ops IH]; intros g Hg; simpl; [done| |].
  - apply IH. intros x n. rewrite GraphFacts.getNode_addNode.
    destruct (Z.eqb_spec (node_id m) x) as [<-|]; [by intros [= <-]|apply Hg].
  - apply IH. intros x n. apply Hg.
Qed.

(** X23: what [getAllNodeIds] lists is what [getNode] finds.  On a graph
    made by [addNode] and [addEdge] calls the list has no id twice, holds
    exactly the ids of the [addNode] calls (the ends of a road are not
    listed unless they were added as locations), an id is listed exactly
    when [getNode] finds a node for it, and the node found carries the id
    it was asked for. *)
Theorem ids_and_lookup (ops : list GraphOp) (x : Z) :
  NoDup (getAllNodeIds (build ops)) /\
  (x ∈ getAllNodeIds (build ops) <-> exists n, OpAddNode n ∈ ops /\ node_id n = x) /\
  (x ∈ getAllNodeIds (build ops) <-> is_Some (getNode (build ops) x)) /\
  (forall n, getNode (build ops) x = Some n -> node_id n = x).
Proof.
  split; [apply Allocation.build_nodes_NoDup|].
  split; [apply GraphFacts.ids_build|]. split.
  - split.
    + intros Hin. destruct (getNode (build ops) x) as [n|] eqn:E; [done|].
      by apply Allocation.nodes_find_None in E.
    + intros [n Hn]. by apply (Routes.getNode_id _ x n).
  - intros n. by apply (own_id_fold ops empty_graph).
Qed.

End NodeTable.

(** ** Allocation.h: the order of the stops *)

Module StopOrder.

Import Allocation Routes.

Lemma assign_node_step g vs x :
  Forall2 (fun v v' => route v' = route v \/ route v' = route v ++ [x])
          vs (assign_node g vs x).
Proof.
  assert (Forall2 (fun v v' : Vehicle => route v' = route v \/ route v' = route v ++ [x])
            vs vs) as Hrefl by (induction vs; constructor; [by left|done]).
  destruct (assign_node_cases g vs x) as [->|(node & k & v & _ & Hk & _ & ->)]; [done|].
  apply Forall2_alter_r; [done|].
  intros v1 v2 H1 H2 _. assert (v2 = v1) as -> by congruence. by right.
Qed.

Lemma assign_all_sublist g order : forall vs,
  Forall2 (fun v v' => exists stops,
             route v' = route v ++ stops /\ stops `sublist_of` order)
          vs (assign_all g order vs).
Proof.
  induction order as [|x order IH]; intros vs; simpl.
  - induction vs as [|v vs IHvs]; constructor; [|done].
    exists []. by rewrite app_nil_r.
  - eapply Forall2_trans; [|apply (assign_node_step g vs x)|apply IH].
    intros v1 v2 v3 [H12|H12] (s2 & Hr2 & Hs2); rewrite H12 in Hr2.
    + exists s2. split; [done|]. by apply sublist_cons.
    + exists (x :: s2). rewrite <- app_assoc in Hr2. split; [done|].
      by apply sublist_skip.
Qed.

Lemma sublist_sorted (R : Z -> Z -> Prop) (l k : list Z) :
  l `sublist_of` k -> StronglySorted R k -> StronglySorted R l.
Proof.
  induction 1 as [|x l k Hs IH|x l k Hs IH]; intros Hk; [done| |].
  - apply StronglySorted_inv in Hk as [Hk Hall]. constructor; [by apply IH|].
    apply Forall_forall. intros y Hy.
    apply (proj1 (Forall_forall _ _) Hall). by apply (elem_of_sublist l k).
  - apply StronglySorted_inv in Hk as [Hk _]. by apply IH.
Qed.

(** X24: every vehicle gets its stops in the order of the processing list.
    The stops appended to a route are a subsequence of [nodesToAssign], so
    along each route of [allocateVehicles] the priorities of the new stops
    never go up. *)
Theorem allocate_stops_by_priority (g : Graph) (vehicles : list Vehicle) :
  Forall (fun v => route v <> []) vehicles ->
  Forall2 (fun v v' =>
             exists stops,
               route v' = route v ++ stops ++ [0] /\
               stops `sublist_of` nodesToAssign g /\
               StronglySorted (fun a b => prio g b <= prio g a) stops)
          vehicles (allocateVehicles g vehicles).
Proof.
  intros _. unfold allocateVehicles. apply Forall2_fmap_r.
  eapply Forall2_impl; [apply (assign_all_sublist g (nodesToAssign g))|].
  intros v v' (stops & Hr & Hs). exists stops. simpl.
  split; [by rewrite Hr, <- app_assoc|]. split; [done|].
  apply (sublist_sorted _ stops (nodesToAssign g) Hs).
  apply std_sort_sorted, collect_nodes_has_node.
Qed.

Lemma allocate_stops_by_priority_witness :
  Forall (fun v => route v <> []) [new_vehicle 1 10] /\
  Forall2 (fun v v' =>
             exists stops,
               route v' = route v ++ stops ++ [0] /\
               stops `sublist_of` nodesToAssign relief /\
               StronglySorted (fun a b => prio relief b <= prio relief a) stops)
          [new_vehicle 1 10] (allocateVehicles relief [new_vehicle 1 10]).
Proof.
  assert (Forall (fun v => route v <> []) [new_vehicle 1 10]) as H
      by (constructor; [done|constructor]).
  split; [exact H|exact (allocate_stops_by_priority relief [new_vehicle 1 10] H)].
Defined.

End StopOrder.

(** ** algorithms.h: astar finds a path when there is one *)

Module AStarComplete.

Import Walks Queue Search Fuel AStar.

(** The costs of all neighbour entries, added up. *)
Definition entries_cost (m : gmap Z (list (Z * Edge))) : Q :=
  CostModel.Qsum (map (fun kv => walk_cost (snd kv)) (map_to_list m)).

Definition cost_total (g : Graph) : Q := entries_cost (adjacencyList g).

Definition costs_ok (m : gmap Z (list (Z * Edge))) : Prop :=
  forall k l st, m !! k = Some l -> st ∈ l -> (0 <= cost (snd st))%Q.

(** The steps of a walk, read in a map of neighbour lists. *)
Fixpoint steps_in (m : gmap Z (list (Z * Edge))) (x : Z) (p : list (Z * Edge)) : Prop :=
  match p with
  | [] => True
  | st :: p' => st ∈ default [] (m !! x) /\ steps_in m (fst st) p'
  end.

Lemma walk_steps_in g p : forall x y, walk g x p y -> steps_in (adjacencyList g) x p.
Proof.
  induction p as [|st p IH]; intros x y; simpl; [done|].
  intros [Hst Hw]. rewrite <- getNeighbors_default. split; [done|]. by apply (IH _ y).
Qed.

Lemma steps_in_delete m k p : forall x,
  k ∉ x :: map fst p -> steps_in m x p -> steps_in (delete k m) x p.
Proof.
  induction p as [|st p IH]; intros x Hk; simpl; [done|].
  intros [Hst Hp]. simpl in Hk.
  apply not_elem_of_cons in Hk as [Hkx Hk].
  split.
  - by rewrite lookup_delete_ne.
  - by apply IH.
Qed.

Lemma list_cost_nonneg (l : list (Z * Edge)) :
  (forall st, st ∈ l -> (0 <= cost (snd st))%Q) -> (0 <= walk_cost l)%Q.
Proof.
  induction l as [|st l IH]; intros H.
  - unfold walk_cost. simpl. lra.
  - rewrite walk_cost_cons.
    assert (0 <= cost (snd st))%Q by (apply H; by left).
    assert (0 <= walk_cost l)%Q by (apply IH; intros x Hx; apply H; by right). lra.
Qed.

Lemma list_cost_member (l : list (Z * Edge)) st :
  (forall x, x ∈ l -> (0 <= cost (snd x))%Q) -> st ∈ l ->
  (cost (snd st) <= walk_cost l)%Q.
Proof.
  induction l as [|a l IH]; intros H Hin; [inversion Hin|].
  rewrite walk_cost_cons.
  assert (0 <= cost (snd a))%Q by (apply H; by left).
  assert (0 <= walk_cost l)%Q
      by (apply list_cost_nonneg; intros x Hx; apply H; by right).
  apply elem_of_cons in Hin as [->|Hin]; [lra|].
  assert (cost (snd st) <= walk_cost l)%Q
      by (apply IH; [intros x Hx; apply H; by right|done]).
  lra.
Qed.

Lemma entries_cost_nonneg m : costs_ok m -> (0 <= entries_cost m)%Q.
Proof.
  intros Hok. unfold entries_cost. apply CostFacts.Qsum_nonneg.
  intros x Hx. apply in_map_iff in Hx as ([k l] & <- & Hin). simpl.
  apply list_cost_nonneg. intros st Hst. apply (Hok k l st); [|done].
  apply elem_of_map_to_list. by apply list_elem_of_In.
Qed.

Lemma entries_cost_delete m k l :
  m !! k = Some l -> (entries_cost m == walk_cost l + entries_cost (delete k m))%Q.
Proof.
  intros Hk. unfold entries_cost.
  assert (map_to_list m ≡ₚ (k, l) :: map_to_list (delete k m)) as Hp
      by (symmetry; by apply map_to_list_delete).
  rewrite (CostFacts.Qsum_perm _ _ (fmap_Permutation _ _ _ Hp)).
  simpl. reflexivity.
Qed.

Lemma costs_ok_delete m k : costs_ok m -> costs_ok (delete k m).
Proof.
  intros Hok k' l st Hl. apply lookup_delete_Some in Hl as [_ Hl]. by apply (Hok k' l).
Qed.

(** A walk that passes no place twice costs no more than all entries
    together. *)
Lemma simple_steps_bound p : forall x m,
  costs_ok m -> steps_in m x p -> NoDup (x :: map fst p) ->
  (walk_cost p <= entries_cost m)%Q.
Proof.
  induction p as [|st p IH]; intros x m Hok Hsteps Hnd.
  - change (walk_cost []) with 0%Q. by apply entries_cost_nonneg.
  - destruct Hsteps as [Hst Hp].
    destruct (m !! x) as [l|] eqn:Hl; [|inversion Hst]. simpl in Hst.
    apply NoDup_cons in Hnd as [Hx Hnd]. simpl in Hx, Hnd.
    rewrite walk_cost_cons, (entries_cost_delete m x l Hl).
    pose proof (list_cost_member l st (fun y Hy => Hok x l y Hl Hy) Hst) as H1.
    pose proof (IH (fst st) (delete x m) (costs_ok_delete m x Hok)
                  (steps_in_delete m x p (fst st) Hx Hp) Hnd) as H2.
    lra.
Qed.

Lemma simple_walk_bound g x p y :
  nonneg_costs g -> walk g x p y -> NoDup (walk_nodes x p) ->
  (walk_cost p <= cost_total g)%Q.
Proof.
  intros Hnn Hw Hnd. apply (simple_steps_bound p x); [|by apply (walk_steps_in g p x y)|done].
  intros k l st Hl Hst. apply (Hnn k st). unfold getNeighbors. by rewrite Hl.
Qed.


Lemma walk_end g p : forall x y z, walk g x p y -> walk g x p z -> y = z.
Proof.
  induction p as [|st p IH]; intros x y z; simpl.
  - by intros <- <-.
  - intros [_ H1] [_ H2]. by apply (IH (fst st)).
Qed.

Lemma walk_nodes_split g p : forall x y v,
  walk g x p y -> v ∈ walk_nodes x p ->
  exists p1 p2, p = p1 ++ p2 /\ walk g x p1 v /\ walk g v p2 y.
Proof.
  induction p as [|st p IH]; intros x y v Hw Hin.
  - apply list_elem_of_singleton in Hin as ->. by exists [], [].
  - unfold walk_nodes in Hin. simpl in Hin.
    apply elem_of_cons in Hin as [->|Hin]; [by exists [], (st :: p)|].
    destruct Hw as [Hst Hw].
    destruct (IH (fst st) y v Hw Hin) as (p1 & p2 & -> & H1 & H2).
    exists (st :: p1), p2. split; [done|]. split; [by split|done].
Qed.

Lemma snoc_split {A} (l : list A) (a : A) l1 l2 :
  l ++ [a] = l1 ++ l2 ->
  (l2 = [] /\ l1 = l ++ [a]) \/ exists l2', l2 = l2' ++ [a] /\ l = l1 ++ l2'.
Proof.
  intros H. destruct (decide (l2 = [])) as [->|Hne].
  - left. by rewrite app_nil_r in H.
  - right. destruct (exists_last Hne) as (l2' & b & ->).
    rewrite app_assoc in H. apply app_inj_tail in H as [-> ->]. by exists l2'.
Qed.

Section Complete.

Variable g : Graph.
Variables source target : Z.

Hypothesis nonneg : nonneg_costs g.
Hypothesis closed : closed_graph g.
Hypothesis finite : (cost_total g < DBL_MAX)%Q.

(** [v] has a score below the sentinel. *)
Definition found (G : gmap Z Q) (v : Z) : Prop :=
  exists d, G !! v = Some d /\ (d < DBL_MAX)%Q.

(** No place on the walk has a score above the cost of the walk up to it. *)
Definition dominated (G : gmap Z Q) (q : list (Z * Edge)) : Prop :=
  forall q1 q2 x, q = q1 ++ q2 -> walk g source q1 x -> (at_key G x <= walk_cost q1)%Q.

(** The score [d] of [v] is the cost of a walk that passes no place twice. *)
Definition track (G : gmap Z Q) (v : Z) (d : Q) : Prop :=
  exists q, walk g source q v /\ NoDup (walk_nodes source q) /\
            (walk_cost q == d)%Q /\ dominated G q.

Record Core (G : gmap Z Q) (pq : list (Q * Z)) : Prop := mkCore {
  co_dom : forall v, v ∈ getAllNodeIds g -> is_Some (G !! v);
  co_track : forall v d, G !! v = Some d -> (d < DBL_MAX)%Q -> track G v d;
  co_pq : forall k x, (k, x) ∈ pq -> found G x;
  co_src : found G source
}.

Lemma found_at_key G v : found G v -> (at_key G v < DBL_MAX)%Q.
Proof. intros (d & Hd & Hlt). by rewrite (at_key_Some G v d Hd). Qed.

Lemma at_key_found G v : is_Some (G !! v) -> (at_key G v < DBL_MAX)%Q -> found G v.
Proof.
  intros [d Hd] Hlt. rewrite (at_key_Some G v d Hd) in Hlt. by exists d.
Qed.

(** A score on the walk of [u] is not above the score of [u]. *)
Lemma on_track G u d q v :
  walk g source q u -> (walk_cost q == d)%Q -> dominated G q ->
  v ∈ walk_nodes source q -> (at_key G v <= d)%Q.
Proof.
  intros Hw Hc Hdom Hin.
  destruct (walk_nodes_split g q source u v Hw Hin) as (q1 & q2 & -> & H1 & H2).
  pose proof (Hdom q1 q2 v eq_refl H1) as Hle.
  pose proof (walk_cost_nonneg g v q2 u nonneg H2) as H0.
  rewrite walk_cost_app in Hc. lra.
Qed.

(** One neighbour entry [(v, e)] of [u], on scores in which [u] and [v]
    have entries. *)
Lemma core_update G pq u du v e k :
  Core G pq -> G !! u = Some du -> (du < DBL_MAX)%Q ->
  (v, e) ∈ getNeighbors g u ->
  (du + cost e < at_key G v)%Q ->
  Core (<[v := (du + cost e)%Q]> G) ((k, v) :: pq) /\
  (du + cost e < DBL_MAX)%Q.
Proof.
  intros HC Hu Hlt Hroad Hless.
  pose proof (nonneg u (v, e) Hroad) as Hc. simpl in Hc.
  destruct (co_track _ _ HC u du Hu Hlt) as (q & Hq & Hnd & Hcost & Hdom).
  assert (v ∉ walk_nodes source q) as Hfresh.
  { intros Hin. pose proof (on_track G u du q v Hq Hcost Hdom Hin). lra. }
  assert (walk g source (q ++ [(v, e)]) v) as Hq'
      by apply (walk_snoc g source q u (v, e) Hq Hroad).
  assert (NoDup (walk_nodes source (q ++ [(v, e)]))) as Hnd'.
  { unfold walk_nodes in *. rewrite map_app. simpl. rewrite app_comm_cons.
    apply NoDup_app. split; [done|]. split; [|apply NoDup_singleton].
    intros x Hx Hx'. apply list_elem_of_singleton in Hx'. by subst. }
  assert (walk_cost (q ++ [(v, e)]) == du + cost e)%Q as Hcost'.
  { rewrite walk_cost_app, walk_cost_cons. simpl.
    change (walk_cost []) with 0%Q. lra. }
  assert (du + cost e < DBL_MAX)%Q as Hbound.
  { pose proof (simple_walk_bound g source _ v nonneg Hq' Hnd'). lra. }
  assert (forall x, (at_key (<[v := (du + cost e)%Q]> G) x <= at_key G x)%Q) as Hdown.
  { intros x. rewrite at_key_insert. case_decide; [subst; lra|lra]. }
  assert (forall q0, dominated G q0 -> dominated (<[v := (du + cost e)%Q]> G) q0)
    as Hkeep.
  { intros q0 H0 q1 q2 x Heq Hw. specialize (H0 q1 q2 x Heq Hw).
    specialize (Hdown x). lra. }
  split; [|done]. split.
  - intros w Hw. rewrite lookup_insert. case_decide; [done|]. by apply (co_dom _ _ HC).
  - intros w d. rewrite lookup_insert. destruct (decide (v = w)) as [<-|Hne].
    + intros [= <-] _. exists (q ++ [(v, e)]).
      split; [done|]. split; [done|]. split; [done|].
      intros q1 q2 x Heq Hw.
      destruct (snoc_split q (v, e) q1 q2 Heq) as [[-> ->]|(q2' & -> & ->)].
      * assert (x = v) as -> by apply (walk_end g _ _ _ _ Hw Hq').
        rewrite at_key_insert, decide_True by done. lra.
      * apply (Hkeep (q1 ++ q2') Hdom q1 q2' x eq_refl Hw).
    + intros Hw Hd. destruct (co_track _ _ HC w d Hw Hd) as (q0 & ? & ? & ? & H0).
      exists q0. split; [done|]. split; [done|]. split; [done|]. by apply Hkeep.
  - intros k' x Hin. unfold found. rewrite lookup_insert.
    destruct (decide (v = x)) as [<-|Hne]; [by exists (du + cost e)%Q|].
    apply elem_of_cons in Hin as [[= _ ->]|Hin]; [done|].
    apply (co_pq _ _ HC k' x Hin).
  - unfold found. rewrite lookup_insert.
    destruct (decide (v = source)) as [->|Hne]; [by exists (du + cost e)%Q|].
    apply (co_src _ _ HC).
Qed.

(** Without an update the neighbour has a score below the sentinel all the
    same. *)
Lemma core_skip G pq u du v e :
  Core G pq -> G !! u = Some du -> (du < DBL_MAX)%Q ->
  (v, e) ∈ getNeighbors g u ->
  (at_key G v <= du + cost e)%Q ->
  found G v.
Proof.
  intros HC Hu Hlt Hroad Hle.
  pose proof (nonneg u (v, e) Hroad) as Hc. simpl in Hc.
  destruct (co_track _ _ HC u du Hu Hlt) as (q & Hq & Hnd & Hcost & Hdom).
  apply at_key_found; [apply (co_dom _ _ HC), (closed u (v, e) Hroad)|].
  destruct (decide (v ∈ walk_nodes source q)) as [Hin|Hfresh].
  - pose proof (on_track G u du q v Hq Hcost Hdom Hin). lra.
  - assert (walk g source (q ++ [(v, e)]) v) as Hq'
        by apply (walk_snoc g source q u (v, e) Hq Hroad).
    assert (NoDup (walk_nodes source (q ++ [(v, e)]))) as Hnd'.
    { unfold walk_nodes in *. rewrite map_app. simpl. rewrite app_comm_cons.
      apply NoDup_app. split; [done|]. split; [|apply NoDup_singleton].
      intros x Hx Hx'. apply list_elem_of_singleton in Hx'. by subst. }
    pose proof (simple_walk_bound g source _ v nonneg Hq' Hnd') as Hb.
    rewrite walk_cost_app, walk_cost_cons in Hb. simpl in Hb.
    change (walk_cost []) with 0%Q in Hb. lra.
Qed.

(** The loop over the neighbours of [u]. *)
Lemma core_relax u du nbrs : forall st,
  (forall x, x ∈ nbrs -> x ∈ getNeighbors g u) ->
  Core (gScore st) (open_pq st) ->
  gScore st !! u = Some du -> (du < DBL_MAX)%Q ->
  let st' := astar_relax u target nbrs st in
  Core (gScore st') (open_pq st') /\
  gScore st' !! u = Some du /\
  (forall v, found (gScore st) v -> found (gScore st') v) /\
  (forall x, x ∈ nbrs -> found (gScore st') (fst x)) /\
  (forall kx, kx ∈ open_pq st -> kx ∈ open_pq st') /\
  (forall v, found (gScore st') v ->
     found (gScore st) v \/ exists k, (k, v) ∈ open_pq st').
Proof.
  induction nbrs as [|[v e] nbrs IH]; intros st Hsub HC Hu Hlt.
  - simpl. split; [done|]. split; [done|]. split; [done|].
    split; [intros x Hx; inversion Hx|]. split; [done|]. intros v Hv. by left.
  - assert (forall x, x ∈ nbrs -> x ∈ getNeighbors g u) as Hsub'
        by (intros x Hx; apply Hsub; by right).
    assert ((v, e) ∈ getNeighbors g u) as Hroad by (apply Hsub; by left).
    pose proof (nonneg u (v, e) Hroad) as Hc. simpl in Hc.
    assert (is_Some (gScore st !! v)) as Hv
        by apply (co_dom _ _ HC), (closed u (v, e) Hroad).
    cbn [astar_relax]. cbv zeta.
    rewrite (touch_id (gScore st) u) by by rewrite Hu.
    rewrite (touch_id (gScore st) v) by done.
    rewrite (at_key_Some _ u du Hu).
    destruct (Qltb (du + cost e) (at_key (gScore st) v)) eqn:Hcmp.
    + apply Qltb_true in Hcmp.
      set (G' := <[v := (du + cost e)%Q]> (gScore st)).
      set (st1 := mkAStar G' _ _ _).
      assert (u <> v) as Huv.
      { intros <-. rewrite (at_key_Some _ u du Hu) in Hcmp. lra. }
      destruct (core_update (gScore st) (open_pq st) u du v e
                  (at_key (fScore st1) v) HC Hu Hlt Hroad Hcmp) as [HC1 Hb].
      assert (gScore st1 !! u = Some du) as Hu1.
      { simpl. unfold G'. rewrite lookup_insert. by rewrite decide_False by congruence. }
      assert (forall w, found (gScore st) w -> found G' w) as Hmono.
      { intros w (d & Hd & Hdlt). unfold found, G'. rewrite lookup_insert.
        destruct (decide (v = w)) as [<-|]; [by exists (du + cost e)%Q|by exists d]. }
      destruct (IH st1 Hsub' HC1 Hu1 Hlt) as (H1 & H2 & H3 & H4 & H5 & H6).
      split; [done|]. split; [done|]. split; [|split; [|split]].
      * intros w Hw. by apply H3, Hmono.
      * intros x Hx. apply elem_of_cons in Hx as [->|Hx]; [|by apply H4].
        apply H3. simpl. unfold found, G'. rewrite lookup_insert, decide_True by done.
        by exists (du + cost e)%Q.
      * intros kx Hkx. apply H5. simpl. by right.
      * intros w Hw. destruct (H6 w Hw) as [Hold|Hq]; [|by right].
        destruct (decide (v = w)) as [<-|Hne].
        -- right. exists (at_key (fScore st1) v). apply H5. simpl. by left.
        -- left. destruct Hold as (d & Hd & Hdlt). simpl in Hd. unfold G' in Hd.
           rewrite lookup_insert, decide_False in Hd by done. by exists d.
    + apply Qltb_false in Hcmp.
      pose proof (core_skip (gScore st) (open_pq st) u du v e HC Hu Hlt Hroad Hcmp)
        as Hfound.
      set (st1 := mkAStar _ _ _ _).
      destruct (IH st1 Hsub' HC Hu Hlt) as (H1 & H2 & H3 & H4 & H5 & H6).
      split; [done|]. split; [done|]. split; [done|]. split; [|split; [done|done]].
      intros x Hx. apply elem_of_cons in Hx as [->|Hx]; [|by apply H4].
      by apply H3.
Qed.


Lemma reconstruct_prefix fuel cf : forall node acc path,
  reconstruct fuel cf node acc = Some path -> exists rest, path = acc ++ rest.
Proof.
  induction fuel as [|fuel IH]; intros node acc path; simpl.
  - destruct (Z.eqb node (-1)); [|done]. intros [= <-]. exists []. by rewrite app_nil_r.
  - destruct (Z.eqb node (-1)).
    + intros [= <-]. exists []. by rewrite app_nil_r.
    + intros H. destruct (IH _ _ _ H) as (rest & ->).
      exists (node :: rest). by rewrite <- app_assoc.
Qed.

(** With an empty queue every place that can be reached has been visited. *)
Lemma all_visited G V :
  (forall v, found G v -> visited_at V v = true) ->
  (forall u x, visited_at V u = true -> x ∈ getNeighbors g u -> found G (fst x)) ->
  forall p x y, found G x -> walk g x p y -> visited_at V y = true.
Proof.
  intros Hvis Hdone. induction p as [|st p IH]; intros x y Hx; simpl.
  - intros <-. by apply Hvis.
  - intros [Hst Hw]. apply (IH (fst st)); [|done].
    apply (Hdone x st); [by apply Hvis|done].
Qed.

Lemma complete_loop fuel : forall V st,
  Core (gScore st) (open_pq st) ->
  (forall v, found (gScore st) v -> visited_at V v = false ->
     exists k, (k, v) ∈ open_pq st) ->
  (forall u x, visited_at V u = true -> x ∈ getNeighbors g u ->
     found (gScore st) (fst x)) ->
  visited_at V target = false -> target <> -1 ->
  astar_loop fuel g target V st = Some [] -> ~ reachable g source target.
Proof.
  induction fuel as [|fuel IH]; intros V st HC Hqueue Hdone Htarget Hneg; [done|].
  cbn [astar_loop].
  destruct (pq_pop (open_pq st)) as [[[k u] rest]|] eqn:Hpop.
  - destruct (pq_pop_Some _ _ _ Hpop) as [Hperm _].
    assert (forall kx, kx ∈ rest -> kx ∈ open_pq st) as Hrest
        by (intros kx Hkx; rewrite Hperm; by right).
    assert (Core (gScore st) rest) as HC'.
    { destruct HC as [H1 H2 H3 H4]. split; try done.
      intros k' x Hin. apply (H3 k' x). by apply Hrest. }
    destruct (visited_at V u) eqn:Hu.
    + apply IH; try done. simpl. intros v Hv Hvis.
      destruct (Hqueue v Hv Hvis) as (k' & Hin). exists k'.
      rewrite Hperm in Hin. apply elem_of_cons in Hin as [[= _ ->]|Hin]; [congruence|done].
    + destruct (Z.eqb_spec u target) as [->|Hne].
      * cbn [reconstruct]. destruct (Z.eqb_spec target (-1)); [done|].
        destruct (reconstruct _ _ _ _) as [path|] eqn:E; [|done].
        destruct (reconstruct_prefix _ _ _ _ _ E) as (tl & ->).
        intros [= H]. simpl in H. by destruct (rev tl).
      * destruct (co_pq _ _ HC k u) as (du & Hdu & Hlt); [rewrite Hperm; by left|].
        destruct (core_relax u du (getNeighbors g u)
                    (mkAStar (gScore st) (fScore st) (cameFrom st) rest)
                    (fun x H => H) HC' Hdu Hlt) as (H1 & H2 & H3 & H4 & H5 & H6).
        simpl in H3, H5, H6.
        apply IH; try done.
        -- intros v Hv Hvis. rewrite visited_at_insert in Hvis.
           destruct (decide (u = v)) as [|Huv]; [done|].
           destruct (H6 v Hv) as [Hold|Hq]; [|done].
           destruct (Hqueue v Hold Hvis) as (k' & Hin). exists k'. apply H5.
           rewrite Hperm in Hin.
           apply elem_of_cons in Hin as [[= _ ->]|Hin]; [congruence|done].
        -- intros w x Hw Hx. rewrite visited_at_insert in Hw.
           destruct (decide (u = w)) as [<-|Huw]; [by apply H4|].
           apply H3. by apply (Hdone w x).
        -- rewrite visited_at_insert. by rewrite decide_False by done.
  - intros _ [p Hp]. apply pq_pop_None in Hpop.
    assert (visited_at V target = true); [|congruence].
    apply (all_visited (gScore st) V) with (p := p) (x := source); try done.
    + intros v Hv. destruct (visited_at V v) eqn:E; [done|].
      destruct (Hqueue v Hv E) as (k & Hin). rewrite Hpop in Hin. inversion Hin.
    + apply (co_src _ _ HC).
Qed.

Lemma astar_empty :
  target <> -1 -> astar g source target = Some [] -> ~ reachable g source target.
Proof.
  intros Hneg. unfold astar.
  destruct (astar_init (getAllNodeIds g)) as [[G0 F0] V0] eqn:Hinit.
  destruct (astar_init_spec (getAllNodeIds g) ∅ ∅ ∅) as [HG HV].
  fold (astar_init (getAllNodeIds g)) in HG, HV. rewrite Hinit in HG, HV.
  simpl in HG, HV.
  assert (forall v, visited_at V0 v = false) as Hfresh
      by (intros v; rewrite HV; by case_decide).
  assert (forall v d, <[source := 0%Q]> G0 !! v = Some d -> (d < DBL_MAX)%Q ->
                      v = source /\ d = 0%Q) as Honly.
  { intros v d. rewrite lookup_insert. case_decide; [by intros [= <-]|].
    rewrite HG. case_decide; [|by rewrite lookup_empty]. intros [= <-]. lra. }
  assert (found (<[source := 0%Q]> G0) source) as Hsrc.
  { exists 0%Q. rewrite lookup_insert, decide_True by done.
    split; [done|apply DBL_MAX_pos]. }
  apply complete_loop; simpl; try done.
  - split; try done.
    + intros v Hv. rewrite lookup_insert. case_decide; [done|].
      rewrite HG. by rewrite decide_True.
    + intros v d Hv Hd. destruct (Honly v d Hv Hd) as [-> ->].
      exists []. split; [done|]. split; [apply NoDup_singleton|]. split; [reflexivity|].
      intros q1 q2 x Heq Hw. symmetry in Heq. apply app_eq_nil in Heq as [-> _].
      simpl in Hw. subst x. rewrite at_key_insert, decide_True by done.
      change (walk_cost []) with 0%Q. lra.
    + intros k x Hin. apply list_elem_of_singleton in Hin as [= _ ->]. done.
  - intros v (d & Hv & Hd) _. destruct (Honly v d Hv Hd) as [-> _].
    eexists. by left.
  - intros u x Hu. by rewrite Hfresh in Hu.
Qed.

End Complete.

(** X26: [astar] finds a path exactly when there is one.  On a graph with
    no negative cost, every road end added as a location, no id -1 and
    road costs that add up to less than [DBL_MAX], the search returns, and
    the path it returns is empty exactly when no walk leads from the source
    to the target. *)
Theorem astar_finds_path (g : Graph) (source target : Z) :
  nonneg_costs g -> closed_graph g ->
  source <> -1 -> AStarAny.no_minus_one g ->
  (cost_total g < DBL_MAX)%Q ->
  exists path,
    astar g source target = Some path /\
    (path = [] <-> ~ reachable g source target).
Proof.
  intros Hnn Hcl Hs1 Hids Hfin.
  destruct (AStarAny.astar_returns g source target Hnn Hs1 Hids)
    as (path & Hrun & Hpath).
  exists path. split; [done|]. split.
  - intros ->. destruct (decide (target = -1)) as [->|Hne].
    + intros [p Hp].
      apply (AStarAny.walk_nodes_ids g Hids p source (-1) Hp Hs1).
      unfold walk_nodes. destruct p as [|st p] using rev_ind.
      * simpl in Hp. congruence.
      * assert (walk g source (p ++ [st]) (fst st)) as Hp'.
        { clear -Hp. revert source Hp. induction p as [|a p IH]; intros x; simpl.
          - intros [H _]. by split.
          - intros [H1 H2]. split; [done|]. by apply IH. }
        rewrite (walk_end g _ _ _ _ Hp Hp').
        rewrite map_app. simpl. rewrite app_comm_cons, elem_of_app.
        right. by left.
    + by apply (astar_empty g source target Hnn Hcl Hfin Hne).
  - intros Hno. destruct Hpath as [->|[(p & Hp & _) _]]; [done|].
    destruct Hno. by exists p.
Qed.

Lemma astar_finds_path_witness :
  nonneg_costs detour /\ closed_graph detour /\
  3 <> -1 /\ AStarAny.no_minus_one detour /\ (cost_total detour < DBL_MAX)%Q /\
  exists path,
    astar detour 3 0 = Some path /\ (path = [] <-> ~ reachable detour 3 0).
Proof.
  assert (nonneg_costs detour) as H1
      by (by apply Dijkstra.nonneg_check_spec; vm_compute).
  assert (closed_graph detour) as H2
      by (by apply Dijkstra.closed_check_spec; vm_compute).
  assert (AStarAny.no_minus_one detour) as H4
      by (by apply AStarAny.no_minus_one_check_spec; vm_compute).
  assert (3 <> -1) as H5 by lia.
  assert (cost_total detour < DBL_MAX)%Q as H6 by (by apply Qltb_true; vm_compute).
  split; [exact H1|]. split; [exact H2|]. split; [exact H5|].
  split; [exact H4|]. split; [exact H6|].
  exact (astar_finds_path detour 3 0 H1 H2 H5 H4 H6).
Defined.

End AStarComplete.

(** ** Graphs on which the searches add without rounding *)

Module Exact.

Import Walks AStarComplete.

(** [q] is a whole multiple of 2^-k. *)
Definition on_grid (k : nat) (q : Q) : Prop :=
  exists n : Z, (q * inject_Z (2 ^ Z.of_nat k) == inject_Z n)%Q.

(** Road costs on which the additions of [dijkstra] and [astar] are exact
    in binary64.  Every cost is a whole multiple of 2^-k.  No sum that a
    search forms is above twice the sum of all entries of the neighbour
    lists plus 2^31, the bound of the heuristic; in units of 2^-k that
    number is at most 2^53, so that every sum is a whole number of units
    with at most 53 bits. *)
Definition exact_costs (g : Graph) (k : nat) : Prop :=
  (k <= 1000)%nat /\
  (forall u st, st ∈ getNeighbors g u -> on_grid k (cost (snd st))) /\
  ((2 * cost_total g + inject_Z (2 ^ 31)) * inject_Z (2 ^ Z.of_nat k)
   <= inject_Z (2 ^ 53))%Q.

Definition on_grid_check (k : nat) (q : Q) : bool :=
  Z.eqb ((Qnum q * 2 ^ Z.of_nat k) mod Zpos (Qden q)) 0.

Definition exact_check (g : Graph) (k : nat) : bool :=
  (k <=? 1000)%nat &&
  Dijkstra.all_entries g (fun _ st => on_grid_check k (cost (snd st))) &&
  Qle_bool ((2 * cost_total g + inject_Z (2 ^ 31)) * inject_Z (2 ^ Z.of_nat k))
           (inject_Z (2 ^ 53)).

Lemma on_grid_check_spec k q : on_grid_check k q = true -> on_grid k q.
Proof.
  unfold on_grid_check, on_grid. intros H. apply Z.eqb_eq in H.
  exists ((Qnum q * 2 ^ Z.of_nat k) / Zpos (Qden q)).
  apply Z.div_exact in H; [|done].
  destruct q as [a b]. unfold Qeq. simpl in *. lia.
Qed.

Lemma exact_check_spec g k : exact_check g k = true -> exact_costs g k.
Proof.
  unfold exact_check. rewrite !andb_true_iff. intros [[H1 H2] H3].
  split; [by apply Nat.leb_le|]. split.
  - intros u st Hst. apply on_grid_check_spec.
    by apply (Dijkstra.all_entries_spec g _ u st H2).
  - by apply Qle_bool_iff.
Qed.

Lemma cost_total_nonneg g : nonneg_costs g -> (0 <= cost_total g)%Q.
Proof.
  intros Hnn. apply entries_cost_nonneg. intros u l st Hl Hst.
  apply (Hnn u st). unfold getNeighbors. by rewrite Hl.
Qed.

(** What is exact is far below the sentinel. *)
Lemma exact_total g k :
  nonneg_costs g -> exact_costs g k -> (cost_total g < DBL_MAX)%Q.
Proof.
  intros Hnn (_ & _ & Hb). pose proof (cost_total_nonneg g Hnn) as H0.
  assert (1 <= inject_Z (2 ^ Z.of_nat k))%Q as Hk.
  { change 1%Q with (inject_Z 1). rewrite <- Zle_Qle.
    pose proof (Z.pow_pos_nonneg 2 (Z.of_nat k)). lia. }
  assert (0 < inject_Z (2 ^ 31))%Q as H31 by (by vm_compute).
  assert (inject_Z (2 ^ 53) < DBL_MAX)%Q as Hmax by (by vm_compute).
  set (a := (2 * cost_total g + inject_Z (2 ^ 31))%Q) in *.
  assert (a * 1 <= a * inject_Z (2 ^ Z.of_nat k))%Q as Hmul.
  { apply Qmult_le_l; [|done]. unfold a. lra. }
  unfold a in *. lra.
Qed.

(** The last node of a walk closes its list of nodes. *)
Lemma walk_nodes_last g p : forall x y,
  walk g x p y -> exists l, walk_nodes x p = l ++ [y].
Proof.
  induction p as [|st p IH]; intros x y; simpl.
  - intros <-. by exists [].
  - intros [_ Hp]. destruct (IH _ _ Hp) as [l Hl].
    exists (x :: l). unfold walk_nodes in *. simpl. by rewrite Hl.
Qed.

(** A walk with its loops cut out. *)
Lemma walk_simplify g :
  nonneg_costs g ->
  forall p x y, walk g x p y ->
    exists q, walk g x q y /\ NoDup (walk_nodes x q) /\ (walk_cost q <= walk_cost p)%Q.
Proof.
  intros Hnn. induction p as [|st p IH]; intros x y Hw.
  - exists []. split; [done|]. split; [|lra].
    unfold walk_nodes. simpl. apply NoDup_singleton.
  - destruct Hw as [Hst Hp].
    destruct (IH (fst st) y Hp) as (q & Hq & Hnd & Hc).
    pose proof (Hnn x st Hst) as Hcost.
    destruct (decide (x ∈ walk_nodes (fst st) q)) as [Hin|Hout].
    + destruct (walk_nodes_split g q (fst st) y x Hq Hin)
        as (q1 & q2 & Heq & H1 & H2).
      exists q2. split; [done|]. split.
      * destruct (walk_nodes_last g q1 _ _ H1) as [l Hl].
        assert (walk_nodes (fst st) q = l ++ walk_nodes x q2) as Hsplit.
        { unfold walk_nodes in *. rewrite Heq, map_app, app_comm_cons, Hl.
          by rewrite <- app_assoc. }
        rewrite Hsplit in Hnd. by apply NoDup_app in Hnd as (_ & _ & Hnd).
      * pose proof (walk_cost_nonneg g _ _ _ Hnn H1) as Hq1.
        rewrite Heq, walk_cost_app in Hc. rewrite walk_cost_cons. lra.
    + exists (st :: q). split; [by split|]. split.
      * unfold walk_nodes in *. simpl. by apply NoDup_cons.
      * rewrite !walk_cost_cons. lra.
Qed.

(** On a graph whose costs add up to less than the sentinel, every place
    within reach gets its least cost. *)
Lemma reachable_least g s v :
  nonneg_costs g -> closed_graph g -> s ∈ getAllNodeIds g ->
  (cost_total g < DBL_MAX)%Q -> reachable g s v ->
  exists d, dijkstra g s !! v = Some d /\ min_cost g s v d /\ (d < DBL_MAX)%Q.
Proof.
  intros Hnn Hcl Hs Hfin [p Hp].
  destruct (walk_simplify g Hnn p s v Hp) as (q & Hq & Hnd & _).
  pose proof (simple_walk_bound g s q v Hnn Hq Hnd) as Hb.
  destruct (Dijkstra.dijkstra_distances g s Hnn Hcl Hs) as (_ & _ & _ & _ & _ & _ & H).
  destruct (H v q Hq) as (d & Hd & Hmin); [lra|].
  exists d. split; [done|]. split; [done|].
  destruct Hmin as [_ Hle]. specialize (Hle q Hq). lra.
Qed.

End Exact.

(** ** algorithms.h: dijkstra on a graph of the loader *)

Module DijkstraSym.

Import Walks Search.

(** The final table on a graph that meets the conditions of the search
    invariant. *)
Lemma dijkstra_table g s :
  nonneg_costs g -> closed_graph g -> s ∈ getAllNodeIds g ->
  forall v, v ∈ getAllNodeIds g ->
  exists d, dijkstra g s !! v = Some d /\
    ((d = DBL_MAX /\ forall p, walk g s p v -> (DBL_MAX <= walk_cost p)%Q) \/
     ((d < DBL_MAX)%Q /\ min_cost g s v d)).
Proof.
  intros Hnn Hcl Hs v Hv.
  destruct (Dijkstra.dijkstra_run_inv g s Hnn Hcl Hs) as (G & V & Hrun & HI).
  pose proof (Dijkstra.dijkstra_run_total g s) as Htot.
  rewrite Hrun in Htot. inversion Htot as [HG]. rewrite <- HG.
  destruct (final_state g s Dijkstra.zero_h Hnn Hcl G V HI) as (H1 & H2 & H3 & H4 & H5).
  destruct (proj1 (H1 v) Hv) as [d Hd]. exists d. split; [done|].
  destruct (inv_val _ _ _ _ _ _ _ HI v d Hd) as [->|[Hlt _]].
  - left. split; [done|]. by apply H5.
  - right. split; [done|]. by apply H4.
Qed.

Definition undirected (g : Graph) : Prop :=
  forall u v e, (v, e) ∈ getNeighbors g u -> (u, e) ∈ getNeighbors g v.

Lemma undirected_build ops : undirected (build ops).
Proof. intros u v e. apply Adjacency.neighbours_mirror. Qed.

(** A walk taken backwards. *)
Lemma walk_rev g : undirected g ->
  forall p x y, walk g x p y -> exists q, walk g y q x /\ (walk_cost q == walk_cost p)%Q.
Proof.
  intros Hu. induction p as [|[v e] p IH]; intros x y; simpl.
  - intros ->. by exists [].
  - intros [Hst Hp]. destruct (IH v y Hp) as (q & Hq & Hc).
    exists (q ++ [(x, e)]). split.
    + apply (walk_snoc g y q v (x, e) Hq). by apply Hu.
    + rewrite walk_cost_app, !walk_cost_cons. simpl.
      change (walk_cost []) with 0%Q. lra.
Qed.

Lemma min_cost_sym g s t d : undirected g -> min_cost g s t d -> min_cost g t s d.
Proof.
  intros Hu [(p & Hp & Hc) Hmin]. split.
  - destruct (walk_rev g Hu p s t Hp) as (q & Hq & Hcq). exists q. split; [done|]. lra.
  - intros q Hq. destruct (walk_rev g Hu q t s Hq) as (p' & Hp' & Hc').
    specialize (Hmin p' Hp'). lra.
Qed.

(** X9: on a graph made by [addNode] and [addEdge] calls, with no negative
    cost, every road end added as a location and road costs that add
    without rounding ([exact_costs]), the distance that [dijkstra] gives
    from [s] to [t] is the distance it gives from [t] to [s], [DBL_MAX] for
    two places with no connection included. *)
Theorem dijkstra_symmetric (ops : list GraphOp) (s t : Z) (k : nat) :
  nonneg_costs (build ops) -> closed_graph (build ops) ->
  Exact.exact_costs (build ops) k ->
  s ∈ getAllNodeIds (build ops) -> t ∈ getAllNodeIds (build ops) ->
  exists d1 d2,
    dijkstra (build ops) s !! t = Some d1 /\
    dijkstra (build ops) t !! s = Some d2 /\
    (d1 == d2)%Q.
Proof.
  intros Hnn Hcl _ Hs Ht.
  pose proof (undirected_build ops) as Hu.
  destruct (dijkstra_table _ s Hnn Hcl Hs t Ht) as (d1 & Hd1 & Hc1).
  destruct (dijkstra_table _ t Hnn Hcl Ht s Hs) as (d2 & Hd2 & Hc2).
  exists d1, d2. split; [done|]. split; [done|].
  destruct Hc1 as [[-> Hfar1]|[Hlt1 Hmin1]], Hc2 as [[-> Hfar2]|[Hlt2 Hmin2]].
  - reflexivity.
  - destruct Hmin2 as [(q & Hq & Hcq) _].
    destruct (walk_rev _ Hu q t s Hq) as (p & Hp & Hcp).
    specialize (Hfar1 p Hp). lra.
  - destruct Hmin1 as [(p & Hp & Hcp) _].
    destruct (walk_rev _ Hu p s t Hp) as (q & Hq & Hcq).
    specialize (Hfar2 q Hq). lra.
  - apply (min_cost_unique (build ops) s t); [done|]. by apply min_cost_sym.
Qed.

Definition town : list GraphOp :=
  [OpAddNode (mkNode 0 0 0); OpAddNode (mkNode 1 5 3); OpAddNode (mkNode 2 5 5);
   OpAddNode (mkNode 3 2 1);
   OpAddEdge (mkEdge 0 1 2 1); OpAddEdge (mkEdge 2 0 7 0.9); OpAddEdge (mkEdge 1 2 1 1)].

Lemma dijkstra_symmetric_witness :
  nonneg_costs (build town) /\ closed_graph (build town) /\
  Exact.exact_costs (build town) 0 /\
  0 ∈ getAllNodeIds (build town) /\ 2 ∈ getAllNodeIds (build town) /\
  exists d1 d2,
    dijkstra (build town) 0 !! 2 = Some d1 /\
    dijkstra (build town) 2 !! 0 = Some d2 /\
    (d1 == d2)%Q.
Proof.
  assert (nonneg_costs (build town)) as H1
    by (by apply Dijkstra.nonneg_check_spec; vm_compute).
  assert (closed_graph (build town)) as H2
    by (by apply Dijkstra.closed_check_spec; vm_compute).
  assert (0 ∈ getAllNodeIds (build town)) as H3
    by (by apply (bool_decide_unpack _); vm_compute).
  assert (2 ∈ getAllNodeIds (build town)) as H4
    by (by apply (bool_decide_unpack _); vm_compute).
  assert (Exact.exact_costs (build town) 0) as H5
    by (by apply Exact.exact_check_spec; vm_compute).
  split; [exact H1|]. split; [exact H2|]. split; [exact H5|].
  split; [exact H3|]. split; [exact H4|].
  exact (dijkstra_symmetric town 0 2 0 H1 H2 H5 H3 H4).
Defined.

End DijkstraSym.

(** ** algorithms.h: astar against dijkstra *)

Module AStarBound.

Import Walks.

(** X25: a path of [astar] is never cheaper than the distance of
    [dijkstra].  On a graph with no negative cost, no id -1, every road
    end added as a location and road costs that add without rounding
    ([exact_costs]), a path that [astar] returns from a location is empty,
    or it follows roads from the source to the target whose costs add up
    to at least the distance that [dijkstra] gives for the target. *)
Theorem astar_at_least_dijkstra (g : Graph) (source target : Z) (k : nat) :
  nonneg_costs g -> closed_graph g -> Exact.exact_costs g k ->
  source ∈ getAllNodeIds g ->
  source <> -1 -> AStarAny.no_minus_one g ->
  exists path,
    astar g source target = Some path /\
    (path = [] \/
     exists p d,
       walk g source p target /\ walk_nodes source p = path /\
       dijkstra g source !! target = Some d /\ (d <= walk_cost p)%Q).
Proof.
  intros Hnn Hcl _ Hs Hs1 Hids.
  destruct (AStarAny.astar_returns g source target Hnn Hs1 Hids)
    as (path & Hrun & Hpath).
  exists path. split; [done|].
  destruct Hpath as [->|[(p & Hp & Hn) _]]; [by left|]. right.
  assert (target ∈ getAllNodeIds g) as Ht
      by (by apply (Dijkstra.walk_end_node g Hcl p source target)).
  destruct (DijkstraSym.dijkstra_table g source Hnn Hcl Hs target Ht)
    as (d & Hd & [[-> Hfar]|[_ [_ Hmin]]]).
  - exists p, DBL_MAX. split; [done|]. split; [done|]. split; [done|]. by apply Hfar.
  - exists p, d. split; [done|]. split; [done|]. split; [done|]. by apply Hmin.
Qed.

Lemma astar_at_least_dijkstra_witness :
  nonneg_costs AStar.detour /\ closed_graph AStar.detour /\
  Exact.exact_costs AStar.detour 1 /\
  3 ∈ getAllNodeIds AStar.detour /\ 3 <> -1 /\ AStarAny.no_minus_one AStar.detour /\
  exists path,
    astar AStar.detour 3 0 = Some path /\
    (path = [] \/
     exists p d,
       walk AStar.detour 3 p 0 /\ walk_nodes 3 p = path /\
       dijkstra AStar.detour 3 !! 0 = Some d /\ (d <= walk_cost p)%Q).
Proof.
  assert (nonneg_costs AStar.detour) as H1
      by (by apply Dijkstra.nonneg_check_spec; vm_compute).
  assert (closed_graph AStar.detour) as H2
      by (by apply Dijkstra.closed_check_spec; vm_compute).
  assert (3 ∈ getAllNodeIds AStar.detour) as H3
      by (by apply (bool_decide_unpack _); vm_compute).
  assert (AStarAny.no_minus_one AStar.detour) as H4
      by (by apply AStarAny.no_minus_one_check_spec; vm_compute).
  assert (3 <> -1) as H5 by lia.
  assert (Exact.exact_costs AStar.detour 1) as H6
      by (by apply Exact.exact_check_spec; vm_compute).
  split; [exact H1|]. split; [exact H2|]. split; [exact H6|].
  split; [exact H3|]. split; [exact H5|]. split; [exact H4|].
  exact (astar_at_least_dijkstra AStar.detour 3 0 1 H1 H2 H6 H3 H5 H4).
Defined.

End AStarBound.

(** ** dijkstra: the distances *)

Module DijkstraExact.

Import Walks Exact.

(** C4, amended: [dijkstra] returns a table with an entry for every
    location, in which the source has 0 and every location that cannot be
    reached from the source has the sentinel.  With no negative road cost
    no entry is negative.  When in addition every road leads to a location
    of the table, the source is one, and the road costs add without
    rounding ([exact_costs]), every location that can be reached from the
    source has the least cost of a walk from the source to it. *)
Theorem dijkstra_correct (g : Graph) (s : Z) :
  dijkstra_run g s = Some (dijkstra g s) /\
  (forall v, v ∈ getAllNodeIds g -> is_Some (dijkstra g s !! v)) /\
  dijkstra g s !! s = Some 0%Q /\
  (forall v, v ∈ getAllNodeIds g -> ~ reachable g s v ->
     dijkstra g s !! v = Some DBL_MAX) /\
  (nonneg_costs g -> forall v d, dijkstra g s !! v = Some d -> (0 <= d)%Q) /\
  (forall k, nonneg_costs g -> closed_graph g -> s ∈ getAllNodeIds g ->
     exact_costs g k ->
     forall v, reachable g s v ->
       exists d, dijkstra g s !! v = Some d /\ min_cost g s v d).
Proof.
  destruct (DijkstraAny.dijkstra_sound g s) as [H1 H2 H3 H4].
  split; [apply Dijkstra.dijkstra_run_total|].
  split; [done|]. split; [done|]. split; [|split].
  - intros v Hv Hno. destruct (H1 v Hv) as [d Hd]. rewrite Hd.
    destruct (H3 v d Hd) as [->|[[Hout _]|(p & Hp & _)]]; [done|done|].
    destruct Hno. by exists p.
  - intros Hnn v d Hd.
    destruct (H3 v d Hd) as [->|[[_ ->]|(p & Hp & Hc)]].
    + pose proof DBL_MAX_pos. lra.
    + lra.
    + pose proof (walk_cost_nonneg g _ _ _ Hnn Hp). lra.
  - intros k Hnn Hcl Hs Hex v Hv.
    destruct (reachable_least g s v Hnn Hcl Hs (exact_total g k Hnn Hex) Hv)
      as (d & Hd & Hmin & _).
    by exists d.
Qed.

Lemma dijkstra_correct_witness :
  nonneg_costs Allocation.relief /\ closed_graph Allocation.relief /\
  0 ∈ getAllNodeIds Allocation.relief /\ exact_costs Allocation.relief 0 /\
  reachable Allocation.relief 0 2 /\
  exists d, dijkstra Allocation.relief 0 !! 2 = Some d /\
            min_cost Allocation.relief 0 2 d.
Proof.
  assert (nonneg_costs Allocation.relief) as H1
    by (by apply Dijkstra.nonneg_check_spec; vm_compute).
  assert (closed_graph Allocation.relief) as H2
    by (by apply Dijkstra.closed_check_spec; vm_compute).
  assert (0 ∈ getAllNodeIds Allocation.relief) as H3
    by (by apply (bool_decide_unpack _); vm_compute).
  assert (exact_costs Allocation.relief 0) as H4
    by (by apply exact_check_spec; vm_compute).
  assert (reachable Allocation.relief 0 2) as H6.
  { exists [(2, mkEdge 0 2 3 0.9)]. split; [|done].
    assert (getNeighbors Allocation.relief 0
            = [(1, mkEdge 0 1 2 1); (2, mkEdge 0 2 3 0.9)]) as -> by (by vm_compute).
    right. by left. }
  split; [exact H1|]. split; [exact H2|]. split; [exact H3|]. split; [exact H4|].
  split; [exact H6|].
  destruct (dijkstra_correct Allocation.relief 0) as (_ & _ & _ & _ & _ & H).
  exact (H 0%nat H1 H2 H3 H4 2 H6).
Defined.

End DijkstraExact.

(** ** astar: the cost of the path *)

Module AStarExact.

Import Walks Exact CostModel TwoOpt.

(** The lookup of a road gives the least cost among the roads between the
    two places: no two roads join the same places, or the first one added
    is a cheapest one. *)
Definition lookup_least (g : Graph) : Prop :=
  forall u st, st ∈ getNeighbors g u ->
    (getEdgeCost g u (fst st) <= cost (snd st))%Q.

Definition lookup_least_check (g : Graph) : bool :=
  Dijkstra.all_entries g
    (fun u st => Qle_bool (getEdgeCost g u (fst st)) (cost (snd st))).

Lemma lookup_least_check_spec g : lookup_least_check g = true -> lookup_least g.
Proof.
  intros H u st Hst. apply Qle_bool_iff.
  by apply (Dijkstra.all_entries_spec g
              (fun u st => Qle_bool (getEdgeCost g u (fst st)) (cost (snd st))) u st H).
Qed.

(** The lookup between two joined places is the cost of a road between
    them. *)
Lemma lookup_is_road g u st :
  st ∈ getNeighbors g u ->
  exists e, (fst st, e) ∈ getNeighbors g u /\ getEdgeCost g u (fst st) = cost e.
Proof.
  intros Hst. pose proof (EdgeFacts.lookups_first g u (fst st)) as L.
  destruct (matches (fst st) (getNeighbors g u)) as [|e l] eqn:E.
  - exfalso. assert (snd st ∈ matches (fst st) (getNeighbors g u)) as Hin
        by (apply EdgeFacts.elem_of_matches; by destruct st).
    rewrite E in Hin. inversion Hin.
  - destruct L as [-> _]. exists e. split; [|done].
    apply EdgeFacts.elem_of_matches. rewrite E. by left.
Qed.

Lemma consecutive_walk_nodes x st p :
  consecutive (walk_nodes x (st :: p)) = (x, fst st) :: consecutive (walk_nodes (fst st) p).
Proof. done. Qed.

(** The nodes of a walk, costed with the lookups: a walk over the roads
    that the lookups read costs the same, and the walk itself costs no
    less where the lookups give least costs. *)
Lemma walk_lookups g : nonneg_costs g ->
  forall p x y, walk g x p y ->
    computable g (walk_nodes x p) /\
    (exists q, walk g x q y /\ (walk_cost q == total g (walk_nodes x p))%Q) /\
    (lookup_least g -> (total g (walk_nodes x p) <= walk_cost p)%Q).
Proof.
  intros Hnn. unfold computable, total.
  induction p as [|st p IH]; intros x y Hw.
  - split; [constructor|]. split; [by exists []|]. intros _.
    unfold walk_cost. simpl. lra.
  - destruct Hw as [Hst Hp].
    destruct (IH (fst st) y Hp) as (Hc & (q & Hq & Hcq) & Hle).
    destruct (lookup_is_road g x st Hst) as (e & He & Hcost).
    rewrite consecutive_walk_nodes. simpl.
    split; [|split].
    + constructor; [|done]. simpl. rewrite Hcost. apply (Hnn x (fst st, e) He).
    + exists ((fst st, e) :: q). split; [by split|].
      rewrite walk_cost_cons. simpl. rewrite Hcq, Hcost. reflexivity.
    + intros Hleast. specialize (Hle Hleast). pose proof (Hleast x st Hst).
      rewrite walk_cost_cons. lra.
Qed.

(** C8, amended: on a graph with no negative road cost, every road end in
    the node table, no id -1, lookups that give the least cost between two
    places, road costs that add without rounding ([exact_costs]) and a
    heuristic that is consistent (no road costs less than the drop of
    |id - target| along it), for a source of the table and a target within
    its reach the path that [astar] returns has a total edge cost, read
    with [getEdgeCost] along the path, equal to the distance that
    [dijkstra] gives for the target. *)
Theorem astar_optimal (g : Graph) (source target : Z) (k : nat) :
  nonneg_costs g -> closed_graph g ->
  source ∈ getAllNodeIds g -> -1 ∉ getAllNodeIds g ->
  lookup_least g -> exact_costs g k ->
  consistent g (fun v => heuristic v target) ->
  reachable g source target ->
  exists path c d,
    astar g source target = Some path /\
    head path = Some source /\ last path = Some target /\
    route_cost g path = Some c /\
    dijkstra g source !! target = Some d /\ (c == d)%Q.
Proof.
  intros Hnn Hcl Hs Hneg Hleast Hex Hcon Hreach.
  destruct (reachable_least g source target Hnn Hcl Hs (exact_total g k Hnn Hex) Hreach)
    as (d & Hd & Hmin & Hfin).
  destruct (AStar.astar_least_walk g source target d Hnn Hcl Hs Hneg Hcon Hd Hfin)
    as (path & p & Hrun & Hp & Hnodes & Hc).
  destruct (walk_lookups g Hnn p source target Hp) as (Hcomp & (q & Hq & Hcq) & Hle).
  specialize (Hle Hleast). rewrite Hnodes in *.
  destruct (route_cost_from_computable g path 0%Q Hcomp) as [c Hrc].
  exists path, c, d. split; [done|].
  split; [by rewrite <- Hnodes|].
  split.
  { rewrite <- Hnodes. destruct (walk_nodes_last g p _ _ Hp) as [l ->].
    by rewrite last_snoc. }
  split; [done|]. split; [done|].
  apply route_cost_Some in Hrc as [_ Hrc]. rewrite Hrc.
  destruct Hmin as [_ Hmin]. specialize (Hmin q Hq). lra.
Qed.

Lemma astar_optimal_witness :
  nonneg_costs Allocation.relief /\ closed_graph Allocation.relief /\
  0 ∈ getAllNodeIds Allocation.relief /\ (-1 ∉ getAllNodeIds Allocation.relief) /\
  lookup_least Allocation.relief /\ exact_costs Allocation.relief 0 /\
  consistent Allocation.relief (fun v => heuristic v 2) /\
  reachable Allocation.relief 0 2 /\
  exists path c d,
    astar Allocation.relief 0 2 = Some path /\
    head path = Some 0 /\ last path = Some 2 /\
    route_cost Allocation.relief path = Some c /\
    dijkstra Allocation.relief 0 !! 2 = Some d /\ (c == d)%Q.
Proof.
  assert (nonneg_costs Allocation.relief) as H1
    by (by apply Dijkstra.nonneg_check_spec; vm_compute).
  assert (closed_graph Allocation.relief) as H2
    by (by apply Dijkstra.closed_check_spec; vm_compute).
  assert (0 ∈ getAllNodeIds Allocation.relief) as H3
    by (by apply (bool_decide_unpack _); vm_compute).
  assert (-1 ∉ getAllNodeIds Allocation.relief) as H4
    by (by apply (bool_decide_unpack _); vm_compute).
  assert (lookup_least Allocation.relief) as H5
    by (by apply lookup_least_check_spec; vm_compute).
  assert (exact_costs Allocation.relief 0) as H6
    by (by apply exact_check_spec; vm_compute).
  assert (consistent Allocation.relief (fun v => heuristic v 2)) as H7
    by (by apply AStar.consistent_check_spec; vm_compute).
  assert (reachable Allocation.relief 0 2) as H8.
  { exists [(2, mkEdge 0 2 3 0.9)]. split; [|done].
    assert (getNeighbors Allocation.relief 0
            = [(1, mkEdge 0 1 2 1); (2, mkEdge 0 2 3 0.9)]) as -> by (by vm_compute).
    right. by left. }
  split; [exact H1|]. split; [exact H2|]. split; [exact H3|]. split; [exact H4|].
  split; [exact H5|]. split; [exact H6|]. split; [exact H7|]. split; [exact H8|].
  exact (astar_optimal Allocation.relief 0 2 0 H1 H2 H3 H4 H5 H6 H7 H8).
Defined.

End AStarExact.

(** * The code on binary64 numbers

    The functions of algorithms.h and Utils.h once more, with [double]
    values as the binary64 numbers of the machine.  A cost or reliability
    that the graph holds as the rational [q] is read as [of_Q q]; the
    graphs this part is run on hold rationals that are binary64 numbers,
    which [of_Q] reads without loss.  The definitions differ from the ones
    above in the number type alone.  The loops take the fuel of the loops
    above and give [None] when it runs out; on the inputs of [Rounding]
    they return within it. *)

Module B64.

Import Floats.

(** [int] to [double] *)
Definition of_int (z : Z) : float :=
  if Z.ltb z 0 then PrimFloat.opp (PrimFloat.of_uint63 (Uint63.of_Z (- z)))
  else PrimFloat.of_uint63 (Uint63.of_Z z).

(** The [double] nearest to [q], for a numerator and a denominator below
    2^63 that are themselves binary64 numbers: the division rounds once. *)
Definition of_Q (q : Q) : float :=
  PrimFloat.div (of_int (Qnum q)) (of_int (Zpos (Qden q))).

(** The rational value of a finite [double]. *)
Definition value (x : float) : option Q :=
  match Prim2SF x with
  | S754_zero _ => Some 0%Q
  | S754_finite s m e =>
      Some ((if s then -1 else 1) * inject_Z (Zpos m) * Qpower 2 e)%Q
  | _ => None
  end.

(** [numeric_limits<double>::max()] *)
Definition DBL_MAX64 : float := SF2Prim (S754_finite false 9007199254740991 971).

(** *** graph.h *)

Definition getEdgeCost64 (g : Graph) (u v : Z) : float := of_Q (getEdgeCost g u v).

Definition getEdgeReliability64 (g : Graph) (u v : Z) : float :=
  of_Q (getEdgeReliability g u v).

(** *** Maps and the priority queue *)

Definition at_key64 (m : gmap Z float) (k : Z) : float :=
  match m !! k with Some x => x | None => 0%float end.

Definition touch64 (k : Z) (m : gmap Z float) : gmap Z float :=
  match m !! k with Some _ => m | None => <[k := 0%float]> m end.

Definition pair_ltb64 (a b : float * Z) : bool :=
  PrimFloat.ltb (fst a) (fst b)
  || (negb (PrimFloat.ltb (fst b) (fst a)) && Z.ltb (snd a) (snd b)).

Fixpoint pq_pop64 (pq : list (float * Z)) : option ((float * Z) * list (float * Z)) :=
  match pq with
  | [] => None
  | x :: pq' =>
      match pq_pop64 pq' with
      | None => Some (x, [])
      | Some (m, rest) =>
          if pair_ltb64 x m then Some (x, pq') else Some (m, x :: rest)
      end
  end.

(** *** dijkstra *)

Definition dijkstra_init64 (ids : list Z) : gmap Z float * gmap Z bool :=
  fold_left (fun st nodeId =>
               (<[nodeId := DBL_MAX64]> (fst st), <[nodeId := false]> (snd st)))
            ids (∅, ∅).

Fixpoint dijkstra_relax64 (u : Z) (nbrs : list (Z * Edge)) (visited : gmap Z bool)
    (distMap : gmap Z float) (pq : list (float * Z))
  : gmap Z float * list (float * Z) :=
  match nbrs with
  | [] => (distMap, pq)
  | (v, e) :: rest =>
      let edgeCost := of_Q (cost e) in
      if visited_at visited v then dijkstra_relax64 u rest visited distMap pq
      else
        let distMap1 := touch64 v (touch64 u distMap) in
        if PrimFloat.ltb (PrimFloat.add (at_key64 distMap1 u) edgeCost)
                         (at_key64 distMap1 v) then
          let distMap2 :=
            <[v := PrimFloat.add (at_key64 distMap1 u) edgeCost]> distMap1 in
          dijkstra_relax64 u rest visited distMap2 ((at_key64 distMap2 v, v) :: pq)
        else dijkstra_relax64 u rest visited distMap1 pq
  end.

Fixpoint dijkstra_loop64 (fuel : nat) (g : Graph) (distMap : gmap Z float)
    (visited : gmap Z bool) (pq : list (float * Z)) : option (gmap Z float) :=
  match fuel with
  | O => None
  | S fuel' =>
      match pq_pop64 pq with
      | None => Some distMap
      | Some ((_, u), pq') =>
          if visited_at visited u then dijkstra_loop64 fuel' g distMap visited pq'
          else
            let visited' := <[u := true]> visited in
            let '(distMap', pq'') :=
              dijkstra_relax64 u (getNeighbors g u) visited' distMap pq' in
            dijkstra_loop64 fuel' g distMap' visited' pq''
      end
  end.

Definition dijkstra64 (g : Graph) (source : Z) : option (gmap Z float) :=
  let '(distMap, visited) := dijkstra_init64 (getAllNodeIds g) in
  let distMap := <[source := 0%float]> distMap in
  dijkstra_loop64 (search_fuel g) g distMap visited [(0%float, source)].

(** The entry of [v] in the table of a run that returns. *)
Definition entry64 (g : Graph) (source v : Z) : option float :=
  match dijkstra64 g source with Some distMap => distMap !! v | None => None end.

(** *** astar *)

Definition heuristic64 (a b : Z) : float := of_int (wrap (Z.abs (wrap (a - b)))).

Record AStarState64 := mkAStar64 {
  gScore64 : gmap Z float;
  fScore64 : gmap Z float;
  cameFrom64 : gmap Z Z;
  open_pq64 : list (float * Z)
}.

Fixpoint astar_relax64 (current target : Z) (nbrs : list (Z * Edge))
    (st : AStarState64) : AStarState64 :=
  match nbrs with
  | [] => st
  | (v, e) :: rest =>
      let edgeCost := of_Q (cost e) in
      let gScore0 := touch64 current (gScore64 st) in
      let tentativeGScore := PrimFloat.add (at_key64 gScore0 current) edgeCost in
      let gScore1 := touch64 v gScore0 in
      if PrimFloat.ltb tentativeGScore (at_key64 gScore1 v) then
        let cameFrom' := <[v := current]> (cameFrom64 st) in
        let gScore2 := <[v := tentativeGScore]> gScore1 in
        let fScore' :=
          <[v := PrimFloat.add (at_key64 gScore2 v) (heuristic64 v target)]>
            (fScore64 st) in
        astar_relax64 current target rest
          (mkAStar64 gScore2 fScore' cameFrom' ((at_key64 fScore' v, v) :: open_pq64 st))
      else
        astar_relax64 current target rest
          (mkAStar64 gScore1 (fScore64 st) (cameFrom64 st) (open_pq64 st))
  end.

Fixpoint astar_loop64 (fuel : nat) (g : Graph) (target : Z) (visited : gmap Z bool)
    (st : AStarState64) : option (list Z) :=
  match fuel with
  | O => None
  | S fuel' =>
      match pq_pop64 (open_pq64 st) with
      | None => Some []
      | Some ((_, current), pq') =>
          if visited_at visited current then
            astar_loop64 fuel' g target visited
              (mkAStar64 (gScore64 st) (fScore64 st) (cameFrom64 st) pq')
          else
            let visited' := <[current := true]> visited in
            if Z.eqb current target then
              match reconstruct (S (size (cameFrom64 st))) (cameFrom64 st) target [] with
              | Some path => Some (rev path)
              | None => None
              end
            else
              astar_loop64 fuel' g target visited'
                (astar_relax64 current target (getNeighbors g current)
                   (mkAStar64 (gScore64 st) (fScore64 st) (cameFrom64 st) pq'))
      end
  end.

Definition astar_init64 (ids : list Z) : gmap Z float * gmap Z float * gmap Z bool :=
  fold_left (fun st nodeId =>
               (<[nodeId := DBL_MAX64]> (fst (fst st)),
                <[nodeId := DBL_MAX64]> (snd (fst st)),
                <[nodeId := false]> (snd st)))
            ids (∅, ∅, ∅).

Definition astar64 (g : Graph) (source target : Z) : option (list Z) :=
  let '(gScore, fScore, visited) := astar_init64 (getAllNodeIds g) in
  let gScore := <[source := 0%float]> gScore in
  let fScore := <[source := heuristic64 source target]> fScore in
  astar_loop64 (search_fuel g) g target visited
    (mkAStar64 gScore fScore ∅ [(at_key64 fScore source, source)]).

(** *** twoOpt *)

Fixpoint route_cost_from64 (g : Graph) (acc : float) (r : list Z) : option float :=
  match r with
  | a :: r' =>
      match r' with
      | b :: _ =>
          let c := getEdgeCost64 g a b in
          if PrimFloat.ltb c 0 then None
          else route_cost_from64 g (PrimFloat.add acc c) r'
      | [] => Some acc
      end
  | [] => Some acc
  end.

Definition route_cost64 (g : Graph) (r : list Z) : option float :=
  route_cost_from64 g 0%float r.

Fixpoint twoOpt_scan_j64 (g : Graph) (bestRoute : list Z) (i : nat) (js : list nat)
  : option (list Z) :=
  match js with
  | [] => None
  | j :: js' =>
      match route_cost64 g bestRoute with
      | None => twoOpt_scan_j64 g bestRoute i js'
      | Some currentCost =>
          let newRoute := reverse_segment i j bestRoute in
          match route_cost64 g newRoute with
          | Some newCost =>
              if PrimFloat.ltb newCost currentCost then Some newRoute
              else twoOpt_scan_j64 g bestRoute i js'
          | None => twoOpt_scan_j64 g bestRoute i js'
          end
      end
  end.

Fixpoint twoOpt_scan_i64 (g : Graph) (bestRoute : list Z) (cuts : list nat)
  : option (list Z) :=
  match cuts with
  | [] => None
  | i :: cuts' =>
      match twoOpt_scan_j64 g bestRoute i (seq (S i) (length bestRoute - 2 - i)) with
      | Some newRoute => Some newRoute
      | None => twoOpt_scan_i64 g bestRoute cuts'
      end
  end.

Definition twoOpt_scan64 (g : Graph) (bestRoute : list Z) : option (list Z) :=
  twoOpt_scan_i64 g bestRoute (seq 1 (length bestRoute - 3)).

Fixpoint twoOpt_loop64 (fuel : nat) (g : Graph) (bestRoute : list Z)
  : option (list Z) :=
  match fuel with
  | O => None
  | S fuel' =>
      match twoOpt_scan64 g bestRoute with
      | Some newRoute => twoOpt_loop64 fuel' g newRoute
      | None => Some bestRoute
      end
  end.

(** [None] when the rounds of [twoOpt_fuel] do not suffice. *)
Definition twoOpt64 (g : Graph) (route : list Z) : option (list Z) :=
  if (length route <=? 3)%nat then Some route
  else twoOpt_loop64 (twoOpt_fuel route) g route.

(** *** Utils.h *)

Definition ALPHA64 : float := of_Q ALPHA.
Definition BETA64 : float := of_Q BETA.
Definition GAMMA64 : float := of_Q GAMMA.

Record RouteCost64 := mkRouteCost64 {
  totalTime64 : float;
  reliabilityPenalty64 : float;
  idleTime64 : float;
  finalScore64 : float
}.

Fixpoint cost_loop64 (g : Graph) (r : list Z) (acc : float * float) : float * float :=
  match r with
  | u :: r' =>
      match r' with
      | v :: _ =>
          let edgeCost := getEdgeCost64 g u v in
          let edgeReliability := getEdgeReliability64 g u v in
          cost_loop64 g r'
            (if PrimFloat.leb 0 edgeCost
             then (PrimFloat.add (fst acc) edgeCost,
                   PrimFloat.mul (snd acc) edgeReliability)
             else acc)
      | [] => acc
      end
  | [] => acc
  end.

Definition calculateRouteCost64 (g : Graph) (route : list Z)
    (vehicleCapacity vehicleLoad : Z) : RouteCost64 :=
  if (length route <? 2)%nat then mkRouteCost64 0 0 0 0
  else
    let '(total, totalReliability) := cost_loop64 g route (0%float, 1%float) in
    let penalty := PrimFloat.sub 1 totalReliability in
    let unusedCapacity := wrap (vehicleCapacity - vehicleLoad) in
    let idle := of_int unusedCapacity in
    mkRouteCost64 total penalty idle
      (PrimFloat.add
         (PrimFloat.add (PrimFloat.mul ALPHA64 total) (PrimFloat.mul BETA64 penalty))
         (PrimFloat.mul GAMMA64 idle)).

(** *** The cost model, as the code computes it *)

(** The pairs that are not skipped: their cost lookup is not below 0. *)
Definition traversed64 (g : Graph) (r : list Z) : list (Z * Z) :=
  List.filter (fun p => PrimFloat.leb 0 (getEdgeCost64 g (fst p) (snd p)))
              (CostModel.consecutive r).

(** The numbers of [l] added up from the left, in binary64, from 0.0. *)
Definition sum64 (l : list float) : float := fold_left PrimFloat.add l 0%float.

(** The numbers of [l] multiplied up from the left, in binary64, from 1.0. *)
Definition prod64 (l : list float) : float := fold_left PrimFloat.mul l 1%float.

Lemma cost_loop64_spec g r : forall t p,
  cost_loop64 g r (t, p) =
  (fold_left PrimFloat.add
     (map (fun q => getEdgeCost64 g (fst q) (snd q)) (traversed64 g r)) t,
   fold_left PrimFloat.mul
     (map (fun q => getEdgeReliability64 g (fst q) (snd q)) (traversed64 g r)) p).
Proof.
  unfold traversed64. induction r as [|u r IH]; intros t p; [done|].
  destruct r as [|v r']; [done|].
  change (cost_loop64 g (u :: v :: r') (t, p)) with
    (cost_loop64 g (v :: r')
       (if PrimFloat.leb 0 (getEdgeCost64 g u v)
        then (PrimFloat.add t (getEdgeCost64 g u v),
              PrimFloat.mul p (getEdgeReliability64 g u v))
        else (t, p))).
  change (CostModel.consecutive (u :: v :: r'))
    with ((u, v) :: CostModel.consecutive (v :: r')).
  simpl List.filter.
  destruct (PrimFloat.leb 0 (getEdgeCost64 g u v)); by rewrite IH.
Qed.

(** C7, amended: [calculateRouteCost] gives four zeros for a route of fewer
    than 2 nodes.  Otherwise the total time is the cost lookups of the
    consecutive pairs that are not below 0, added up in route order in
    binary64 from 0.0; the reliability penalty is 1.0 minus the reliability
    lookups of the same pairs multiplied up in route order in binary64 from
    1.0, which is 0.0 when every pair is skipped; the idle time is capacity
    minus load, subtracted in 32-bit arithmetic and converted; and the
    final score is ALPHA times the total time, plus BETA times the penalty,
    plus GAMMA times the idle time, evaluated in binary64 from left to
    right with the binary64 numbers nearest to 0.6, 0.3 and 0.1. *)
Theorem calculateRouteCost_spec (g : Graph) (r : list Z) (cap load : Z) :
  ((length r < 2)%nat ->
   calculateRouteCost64 g r cap load = mkRouteCost64 0 0 0 0) /\
  ((2 <= length r)%nat ->
   let t := sum64 (map (fun q => getEdgeCost64 g (fst q) (snd q)) (traversed64 g r)) in
   let p := PrimFloat.sub 1
              (prod64 (map (fun q => getEdgeReliability64 g (fst q) (snd q))
                           (traversed64 g r))) in
   let i := of_int (wrap (cap - load)) in
   calculateRouteCost64 g r cap load =
   mkRouteCost64 t p i
     (PrimFloat.add
        (PrimFloat.add (PrimFloat.mul (of_Q 0.6) t) (PrimFloat.mul (of_Q 0.3) p))
        (PrimFloat.mul (of_Q 0.1) i))) /\
  ((2 <= length r)%nat -> traversed64 g r = [] ->
   reliabilityPenalty64 (calculateRouteCost64 g r cap load) = 0%float).
Proof.
  unfold calculateRouteCost64. split; [|split].
  - intros H. destruct (Nat.ltb_spec (length r) 2); [done|lia].
  - intros H. destruct (Nat.ltb_spec (length r) 2); [lia|].
    by rewrite cost_loop64_spec.
  - intros H Hnone. destruct (Nat.ltb_spec (length r) 2); [lia|].
    rewrite cost_loop64_spec, Hnone. reflexivity.
Qed.

Lemma calculateRouteCost_spec_witness :
  (length [0] < 2)%nat /\
  calculateRouteCost64 CostModel.island [0] 7 0 = mkRouteCost64 0 0 0 0 /\
  (2 <= length [0; 1; 2; 0])%nat /\
  traversed64 CostModel.island [0; 1; 2; 0] = [] /\
  reliabilityPenalty64 (calculateRouteCost64 CostModel.island [0; 1; 2; 0] 7 7) = 0%float.
Proof.
  assert (length [0] < 2)%nat as H1 by (simpl; lia).
  assert (2 <= length [0; 1; 2; 0])%nat as H2 by (simpl; lia).
  assert (traversed64 CostModel.island [0; 1; 2; 0] = []) as H3 by (by vm_compute).
  split; [exact H1|].
  split; [exact (proj1 (calculateRouteCost_spec CostModel.island [0] 7 0) H1)|].
  split; [exact H2|]. split; [exact H3|].
  exact (proj2 (proj2 (calculateRouteCost_spec CostModel.island [0; 1; 2; 0] 7 7)) H2 H3).
Defined.

End B64.

(** ** twoOpt on binary64 numbers *)

Module TwoOpt64.

Import Floats B64 TwoOpt.

(** *** The order of binary64 numbers *)

Lemma SFcompare_Lt_trans a b c :
  SFcompare a b = Some Lt -> SFcompare b c = Some Lt -> SFcompare a c = Some Lt.
Proof.
  destruct a as [sa|sa| |sa ma ea], b as [sb|sb| |sb mb eb], c as [sc|sc| |sc mc ec];
    simpl; try discriminate;
    try (destruct sa, sb, sc; (discriminate || reflexivity || auto)).
  all: try (destruct sa; (discriminate || reflexivity || auto)).
  all: try (destruct sb; (discriminate || reflexivity || auto)).
  all: try (destruct sc; (discriminate || reflexivity || auto)).
  all: change (PosDef.Pos.compare_cont Eq) with Pos.compare.
  all: destruct (Z.compare_spec ea eb), (Z.compare_spec eb ec), (Z.compare_spec ea ec);
    try discriminate; try reflexivity; try lia; subst.
  all: destruct (Pos.compare_spec ma mb), (Pos.compare_spec mb mc),
         (Pos.compare_spec ma mc);
    simpl; try discriminate; try reflexivity; try lia.
Qed.

Lemma SFcompare_Lt_irrefl a : SFcompare a a <> Some Lt.
Proof.
  destruct a as [sa|sa| |sa ma ea]; simpl; try discriminate.
  - destruct sa; discriminate.
  - rewrite Z.compare_refl. change (PosDef.Pos.compare_cont Eq) with Pos.compare.
    rewrite Pos.compare_refl. destruct sa; discriminate.
Qed.

Lemma ltb_Lt x y :
  PrimFloat.ltb x y = true <-> SFcompare (Prim2SF x) (Prim2SF y) = Some Lt.
Proof.
  rewrite ltb_spec. unfold SFltb.
  destruct (SFcompare (Prim2SF x) (Prim2SF y)) as [[| |]|]; split; congruence.
Qed.

Lemma ltb_trans x y z :
  PrimFloat.ltb x y = true -> PrimFloat.ltb y z = true -> PrimFloat.ltb x z = true.
Proof. rewrite !ltb_Lt. apply SFcompare_Lt_trans. Qed.

Lemma ltb_irrefl x : PrimFloat.ltb x x = true -> False.
Proof. rewrite ltb_Lt. apply SFcompare_Lt_irrefl. Qed.

(** *** The improvement loop *)

(** [r'] is valid and its cost, as the cost loop adds it up, is below that
    of the valid route [r]. *)
Definition cheaper64 (g : Graph) (r' r : list Z) : Prop :=
  exists c c',
    route_cost64 g r = Some c /\ route_cost64 g r' = Some c' /\
    PrimFloat.ltb c' c = true.

Lemma cheaper64_trans g r1 r2 r3 :
  cheaper64 g r1 r2 -> cheaper64 g r2 r3 -> cheaper64 g r1 r3.
Proof.
  intros (c2 & c1 & H2 & H1 & Hlt) (c3 & c2' & H3 & H2' & Hlt').
  rewrite H2 in H2'. inversion H2'; subst c2'.
  exists c3, c1. split; [done|]. split; [done|]. by apply (ltb_trans c1 c2 c3).
Qed.

Lemma cheaper64_irrefl g r : ~ cheaper64 g r r.
Proof.
  intros (c & c' & H & H' & Hlt). rewrite H in H'. inversion H'; subst.
  by apply (ltb_irrefl c').
Qed.

Lemma twoOpt_scan_j64_Some g r i js r' :
  twoOpt_scan_j64 g r i js = Some r' ->
  exists j, j ∈ js /\ r' = reverse_segment i j r /\ cheaper64 g r' r.
Proof.
  induction js as [|j js IH]; simpl; [done|].
  destruct (route_cost64 g r) as [c|] eqn:Hc.
  - destruct (route_cost64 g (reverse_segment i j r)) as [c'|] eqn:Hc'.
    + destruct (PrimFloat.ltb c' c) eqn:Hlt.
      * intros H. inversion H; subst r'. exists j. split; [by left|]. split; [done|].
        by exists c, c'.
      * intros H. destruct (IH H) as (j' & Hj' & Hr). exists j'. split; [by right|done].
    + intros H. destruct (IH H) as (j' & Hj' & Hr). exists j'. split; [by right|done].
  - intros H. destruct (IH H) as (j' & Hj' & Hr). exists j'. split; [by right|done].
Qed.

Lemma twoOpt_scan_i64_Some g r cuts r' :
  twoOpt_scan_i64 g r cuts = Some r' ->
  exists i j, i ∈ cuts /\ (S i <= j < length r - 1)%nat /\
              r' = reverse_segment i j r /\ cheaper64 g r' r.
Proof.
  induction cuts as [|i cuts IH]; simpl; [done|].
  destruct (twoOpt_scan_j64 g r i (seq (S i) (length r - 2 - i))) as [r1|] eqn:E.
  - intros H. inversion H; subst r1.
    apply twoOpt_scan_j64_Some in E as (j & Hj & Hr & Hc).
    exists i, j. split; [by left|]. apply elem_of_seq in Hj. split; [lia|done].
  - intros H. destruct (IH H) as (i' & j & Hi & Hrest).
    exists i', j. split; [by right|done].
Qed.

(** An accepted move reverses an inner segment and lowers the cost. *)
Lemma twoOpt_scan64_keeps g r r' :
  twoOpt_scan64 g r = Some r' ->
  r' ≡ₚ r /\ head r' = head r /\ last r' = last r /\ cheaper64 g r' r.
Proof.
  intros H. apply twoOpt_scan_i64_Some in H as (i & j & Hi & Hj & -> & Hc).
  apply elem_of_seq in Hi.
  split; [apply reverse_segment_perm; lia|].
  split; [apply reverse_segment_head; lia|].
  split; [apply reverse_segment_last; lia|done].
Qed.

Lemma twoOpt_loop64_keeps g fuel : forall r r',
  twoOpt_loop64 fuel g r = Some r' ->
  r' ≡ₚ r /\ head r' = head r /\ last r' = last r /\
  (r' = r \/ cheaper64 g r' r) /\ twoOpt_scan64 g r' = None.
Proof.
  induction fuel as [|fuel IH]; intros r r'; simpl; [done|].
  destruct (twoOpt_scan64 g r) as [r1|] eqn:E.
  - intros H. apply IH in H as (H1 & H2 & H3 & H4 & H5).
    apply twoOpt_scan64_keeps in E as (E1 & E2 & E3 & E4).
    split; [by rewrite H1|]. split; [congruence|]. split; [congruence|].
    split; [|done]. right. destruct H4 as [->|H4]; [done|].
    by apply (cheaper64_trans g r' r1 r).
  - intros [= <-]. split_and!; auto.
Qed.

(** The routes held so far, [seen], were all dearer than the current one;
    with the current one they are different rearrangements of the input. *)
Lemma twoOpt_loop64_total g r0 fuel : forall r seen,
  (forall s, s ∈ r :: seen -> r0 ≡ₚ s) ->
  NoDup seen ->
  (forall s, s ∈ seen -> cheaper64 g r s) ->
  (length (permutations r0) <= fuel + length seen)%nat ->
  is_Some (twoOpt_loop64 fuel g r).
Proof.
  induction fuel as [|fuel IH]; intros r seen Hperm Hnd Hseen Hfuel.
  - exfalso.
    assert (NoDup (r :: seen)) as Hnd'.
    { apply NoDup_cons. split; [|done]. intros Hin.
      by apply (cheaper64_irrefl g r), Hseen. }
    assert (r :: seen ⊆+ permutations r0) as Hsub.
    { apply NoDup_submseteq; [done|]. intros s Hs.
      by apply permutations_Permutation, Hperm. }
    apply submseteq_length in Hsub. simpl in *. lia.
  - simpl. destruct (twoOpt_scan64 g r) as [r1|] eqn:E; [|done].
    apply twoOpt_scan64_keeps in E as (E1 & _ & _ & E4).
    apply (IH r1 (r :: seen)).
    + intros s Hs. apply elem_of_cons in Hs as [->|Hs]; [|by apply Hperm].
      rewrite E1. apply Hperm. by left.
    + apply NoDup_cons. split; [|done]. intros Hin.
      by apply (cheaper64_irrefl g r), Hseen.
    + intros s Hs. apply elem_of_cons in Hs as [->|Hs]; [done|].
      apply (cheaper64_trans g r1 r s); [done|by apply Hseen].
    + simpl. lia.
Qed.

(** C1, amended: on binary64 numbers [twoOpt] returns, within as many
    rounds as the route has rearrangements, a rearrangement of the input
    with the same first and last element.  The result is the input itself,
    or a route whose cost, as the cost loop of [twoOpt] adds it up along
    the route, is below the cost the same loop gives for the input; when
    the loop gives the input a cost (no lookup along it is negative), it
    gives the result one.  A route of at most 3 nodes is returned as it
    is. *)
Theorem twoOpt_correct (g : Graph) (route : list Z) :
  exists r,
    twoOpt64 g route = Some r /\
    r ≡ₚ route /\ head r = head route /\ last r = last route /\
    (r = route \/
     exists c c',
       route_cost64 g route = Some c /\ route_cost64 g r = Some c' /\
       PrimFloat.ltb c' c = true) /\
    (is_Some (route_cost64 g route) -> is_Some (route_cost64 g r)) /\
    ((length route <= 3)%nat -> r = route).
Proof.
  unfold twoOpt64. destruct (Nat.leb_spec (length route) 3) as [Hlen|Hlen].
  - exists route. split; [done|]. split; [done|]. split; [done|]. split; [done|].
    split; [by left|]. done.
  - destruct (twoOpt_loop64_total g route (twoOpt_fuel route) route []) as [r Hr].
    + intros s Hs. apply list_elem_of_singleton in Hs. by subst.
    + constructor.
    + intros s Hs. inversion Hs.
    + unfold twoOpt_fuel. simpl. lia.
    + exists r. split; [done|].
      apply twoOpt_loop64_keeps in Hr as (H1 & H2 & H3 & H4 & _).
      split; [done|]. split; [done|]. split; [done|]. split; [done|]. split; [|lia].
      intros Hc. destruct H4 as [->|(c & c' & _ & Hr' & _)]; [done|].
      by rewrite Hr'.
Qed.

Lemma twoOpt_correct_witness :
  exists r,
    twoOpt64 ring bowtie = Some r /\
    r ≡ₚ bowtie /\ head r = head bowtie /\ last r = last bowtie /\
    (r = bowtie \/
     exists c c',
       route_cost64 ring bowtie = Some c /\ route_cost64 ring r = Some c' /\
       PrimFloat.ltb c' c = true) /\
    (is_Some (route_cost64 ring bowtie) -> is_Some (route_cost64 ring r)) /\
    ((length bowtie <= 3)%nat -> r = bowtie).
Proof. exact (twoOpt_correct ring bowtie). Defined.

Example twoOpt64_bowtie : twoOpt64 ring bowtie = Some [0; 1; 2; 3; 0].
Proof. by vm_compute. Qed.

End TwoOpt64.

(** * What rounding and wrap-around change *)

Module Rounding.

Import Walks B64.

(** [x] is a finite binary64 number of value [q]. *)
Definition value_is (x : option PrimFloat.float) (q : Q) : Prop :=
  match x with
  | Some y => match value y with Some q' => (q' == q)%Q | None => False end
  | None => False
  end.

Lemma min_cost_Qeq g s v d d' : (d == d')%Q -> min_cost g s v d -> min_cost g s v d'.
Proof.
  intros Heq [(p & Hp & Hc) Hmin]. split.
  - exists p. split; [done|]. lra.
  - intros q Hq. specialize (Hmin q Hq). lra.
Qed.

(** A consistent heuristic that is 0 at the target never overestimates. *)
Lemma consistent_admissible g t :
  consistent g (fun v => heuristic v t) -> AStar.admissible g t.
Proof.
  intros Hcon v p. revert v. induction p as [|st p IH]; intros v Hw.
  - simpl in Hw. subst v. unfold heuristic. rewrite Z.sub_diag.
    change (walk_cost []) with 0%Q. by vm_compute.
  - destruct Hw as [Hst Hp]. specialize (IH _ Hp). pose proof (Hcon v st Hst) as H.
    simpl in H. rewrite walk_cost_cons. lra.
Qed.

(** *** twoOpt *)

(** Four places joined pairwise; the roads from 2 to 0 and to 3 are 2^60
    long, where binary64 numbers are 256 apart. *)
Definition plateau : Graph :=
  build [OpAddNode (mkNode 0 0 0); OpAddNode (mkNode 1 1 1);
         OpAddNode (mkNode 2 1 1); OpAddNode (mkNode 3 1 1);
         OpAddEdge (mkEdge 0 1 60 1); OpAddEdge (mkEdge 0 2 (inject_Z (2 ^ 60)) 1);
         OpAddEdge (mkEdge 0 3 0 1); OpAddEdge (mkEdge 1 2 70 1);
         OpAddEdge (mkEdge 1 3 100 1); OpAddEdge (mkEdge 2 3 (inject_Z (2 ^ 60)) 1)].

Definition lap : list Z := [0; 1; 2; 3; 0].

Definition lap_crossed : list Z := [0; 2; 1; 3; 0].

(** C1 as worded fails.  On [plateau] every pair of places has a road, and
    the tour 0 1 2 3 0 costs 2^60 + 130.  The cost loop adds 60 + 70 to 130
    and then 2^60, which rounds up to 2^60 + 256; for the tour with 1 and 2
    swapped it adds 70, 100 and 0 to 2^60, which rounds down to 2^60 each
    time.  So the reversal is accepted, and the route that is returned
    costs 2^60 + 170. *)
Lemma twoOpt_total_rises :
  TwoOpt.computable plateau lap /\
  twoOpt64 plateau lap = Some lap_crossed /\
  value_is (route_cost64 plateau lap) (inject_Z (2 ^ 60 + 256)) /\
  value_is (route_cost64 plateau lap_crossed) (inject_Z (2 ^ 60)) /\
  (TwoOpt.total plateau lap == inject_Z (2 ^ 60 + 130))%Q /\
  (TwoOpt.total plateau lap_crossed == inject_Z (2 ^ 60 + 170))%Q /\
  ~ (TwoOpt.total plateau lap_crossed <= TwoOpt.total plateau lap)%Q.
Proof.
  split; [repeat constructor; by vm_compute|].
  split; [by vm_compute|]. split; [by vm_compute|]. split; [by vm_compute|].
  split; [by vm_compute|]. split; [by vm_compute|].
  by vm_compute.
Qed.

(** *** dijkstra *)

(** The binary64 numbers nearest to 0.1 and to 0.2. *)
Definition tenth : Q := 3602879701896397 # 36028797018963968.
Definition fifth : Q := 3602879701896397 # 18014398509481984.

(** Three places in a row, a tenth and a fifth apart. *)
Definition drift : Graph :=
  build [OpAddNode (mkNode 0 0 0); OpAddNode (mkNode 1 0 0); OpAddNode (mkNode 2 0 0);
         OpAddEdge (mkEdge 0 1 tenth 1); OpAddEdge (mkEdge 1 2 fifth 1)].

(** The sum of the two costs, rounded: 0.30000000000000004. *)
Definition drifted : Q := 5404319552844596 # 18014398509481984.

Lemma drift_rounds :
  nonneg_costs drift /\ closed_graph drift /\
  0 ∈ getAllNodeIds drift /\ 2 ∈ getAllNodeIds drift /\
  of_Q tenth = of_Q 0.1 /\ of_Q fifth = of_Q 0.2 /\
  min_cost drift 0 2 (tenth + fifth) /\
  value_is (entry64 drift 0 2) drifted /\
  (tenth + fifth < drifted)%Q.
Proof.
  assert (nonneg_costs drift) as H1
    by (by apply Dijkstra.nonneg_check_spec; vm_compute).
  assert (closed_graph drift) as H2
    by (by apply Dijkstra.closed_check_spec; vm_compute).
  assert (0 ∈ getAllNodeIds drift) as H3
    by (by apply (bool_decide_unpack _); vm_compute).
  split; [done|]. split; [done|]. split; [done|].
  split; [by apply (bool_decide_unpack _); vm_compute|].
  split; [by vm_compute|]. split; [by vm_compute|].
  split; [|split; by vm_compute].
  destruct (Dijkstra.dijkstra_distances drift 0 H1 H2 H3) as (_ & _ & _ & _ & _ & H & _).
  destruct (dijkstra drift 0 !! 2) as [d|] eqn:E; [|by vm_compute in E].
  apply (min_cost_Qeq drift 0 2 d).
  - vm_compute in E. inversion E. by vm_compute.
  - apply H; [done|]. vm_compute in E. inversion E. by vm_compute.
Qed.

(** C4 as worded fails three times.  On [phantom] node 2 is two roads away
    from 0 and is mapped to the sentinel (and the missing id 1 to 0): a
    neighbour id without a table entry reads as distance 0 and is never
    expanded.  On [far] node 2 is reachable at a cost above the sentinel
    and is mapped to the sentinel.  On [drift] node 2 is mapped to the
    rounded sum of the two costs, which is above their sum, the least cost
    of a walk from 0 to 2. *)
Lemma dijkstra_not_for_all :
  (nonneg_costs Dijkstra.phantom /\ 0 ∈ getAllNodeIds Dijkstra.phantom /\
   ~ Dijkstra.shortest_for_all Dijkstra.phantom 0) /\
  (nonneg_costs Dijkstra.far /\ 0 ∈ getAllNodeIds Dijkstra.far /\
   ~ Dijkstra.shortest_for_all Dijkstra.far 0) /\
  (nonneg_costs drift /\ 0 ∈ getAllNodeIds drift /\
   2 ∈ getAllNodeIds drift /\
   min_cost drift 0 2 (tenth + fifth) /\
   value_is (entry64 drift 0 2) drifted /\
   ~ (drifted == tenth + fifth)%Q).
Proof.
  destruct Dijkstra.phantom_and_far
    as [(P1 & P2 & _ & _ & P3) (F1 & _ & F2 & _ & F3)].
  destruct drift_rounds as (D1 & _ & D2 & D3 & _ & _ & D4 & D5 & D6).
  split; [done|]. split; [done|].
  split; [done|]. split; [done|]. split; [done|]. split; [done|]. split; [done|].
  intros H. rewrite H in D6. by apply Qlt_irrefl in D6.
Qed.

(** *** calculateRouteCost *)

(** C7 as worded fails.  On the tour [bowtie] of [ring], with capacity 7
    and load 5, the total time is 12, the penalty 0 and the idle time 2,
    and the final score is the binary64 number 7.3999999999999995 and not
    0.6 * 12 + 0.3 * 0 + 0.1 * 2.  With capacity 10 and load -2147483648
    the idle time is -2147483638 and not capacity minus load. *)
Lemma calculateRouteCost_not_exact :
  (value_is (Some (totalTime64 (calculateRouteCost64 TwoOpt.ring TwoOpt.bowtie 7 5))) 12 /\
   value_is (Some (reliabilityPenalty64
                     (calculateRouteCost64 TwoOpt.ring TwoOpt.bowtie 7 5))) 0 /\
   value_is (Some (idleTime64 (calculateRouteCost64 TwoOpt.ring TwoOpt.bowtie 7 5))) 2 /\
   value_is (Some (finalScore64 (calculateRouteCost64 TwoOpt.ring TwoOpt.bowtie 7 5)))
            (8331659310635417 # 1125899906842624) /\
   ~ (8331659310635417 # 1125899906842624 == 0.6 * 12 + 0.3 * 0 + 0.1 * 2)%Q) /\
  (value_is (Some (idleTime64
                     (calculateRouteCost64 TwoOpt.ring TwoOpt.bowtie 10 (-2147483648))))
            (inject_Z (-2147483638)) /\
   -2147483638 <> 10 - (-2147483648)).
Proof.
  split.
  - split; [by vm_compute|]. split; [by vm_compute|]. split; [by vm_compute|].
    split; [by vm_compute|]. by vm_compute.
  - split; [by vm_compute|lia].
Qed.

(** *** astar *)

(** Two roads between the same two places, the dearer one added first. *)
Definition twin : Graph :=
  build [OpAddNode (mkNode 0 0 0); OpAddNode (mkNode 1 0 0);
         OpAddEdge (mkEdge 0 1 5 1); OpAddEdge (mkEdge 0 1 1 1)].

(** Six places and seven roads whose costs are binary64 numbers just above
    1, 4, 1.1, 3.1, 3.1, 5 and 2. *)
Definition hexa : Graph :=
  build [OpAddNode (mkNode 1 0 0); OpAddNode (mkNode 3 0 0); OpAddNode (mkNode 4 0 0);
         OpAddNode (mkNode 5 0 0); OpAddNode (mkNode 7 0 0); OpAddNode (mkNode 10 0 0);
         OpAddEdge (mkEdge 4 5 (2251799813685249 # 2251799813685248) 1);
         OpAddEdge (mkEdge 3 7 (4503599627370497 # 1125899906842624) 1);
         OpAddEdge (mkEdge 3 4 (1238489897526887 # 1125899906842624) 1);
         OpAddEdge (mkEdge 7 10 (6980579422424271 # 2251799813685248) 1);
         OpAddEdge (mkEdge 1 4 (6980579422424271 # 2251799813685248) 1);
         OpAddEdge (mkEdge 5 10 (2814749767106561 # 562949953421312) 1);
         OpAddEdge (mkEdge 1 3 (2251799813685249 # 1125899906842624) 1)].

Definition hexa_path : list Z := [10; 5; 4; 1].

(** The premises of C8: no negative cost, source and target in the table,
    and a heuristic that never overestimates. *)
Definition fit_for_astar (g : Graph) (s t : Z) : Prop :=
  nonneg_costs g /\ s ∈ getAllNodeIds g /\ t ∈ getAllNodeIds g /\
  AStar.admissible g t.

Lemma fit_by_check g s t :
  Dijkstra.nonneg_check g = true ->
  bool_decide (s ∈ getAllNodeIds g) = true ->
  bool_decide (t ∈ getAllNodeIds g) = true ->
  AStar.consistent_check g t = true ->
  fit_for_astar g s t.
Proof.
  intros H1 H2 H3 H4. split; [by apply Dijkstra.nonneg_check_spec|].
  split; [by apply bool_decide_eq_true in H2|].
  split; [by apply bool_decide_eq_true in H3|].
  by apply consistent_admissible, AStar.consistent_check_spec.
Qed.

Lemma no_match g s t path c d :
  astar g s t = Some path -> route_cost g path = Some c ->
  dijkstra g s !! t = Some d -> ~ (c == d)%Q ->
  ~ AStar.path_cost_matches g s t.
Proof.
  intros Ha Hr Hd Hne (path' & c' & d' & Ha' & Hr' & Hd' & Hcd).
  rewrite Ha in Ha'. inversion Ha'; subst path'.
  rewrite Hr in Hr'. inversion Hr'; subst c'.
  rewrite Hd in Hd'. inversion Hd'; subst d'. done.
Qed.

(** C8 as worded fails five times.  On [detour] the heuristic never
    overestimates, yet the search from 3 closes node 1 at cost 3 before the
    way over 4 lowers it to 2, does not expand it again, and returns the
    path over 2 of cost 12.5, while the distance is 12.  On [apart] the
    target is out of reach: the empty path of cost 0 against the sentinel.
    On [minus_one] the target has the id -1, which the reconstruction loop
    takes for its end mark: the empty path of cost 0 against the distance
    1.  On [twin] the path 0 1 is costed 5 by the lookup, which reads the
    first of the two roads, against the distance 1.  On [hexa] the
    heuristic is consistent and the search from 10 returns the path
    10 5 4 1: the sum of cost and heuristic of node 3, reached over 4,
    rounds to that of node 7, so that 3 is closed before the cheaper way
    over 7 reaches it.  The costs of the path add up to 9.100000000000003,
    in binary64 and exactly, and [dijkstra] gives 9.100000000000001. *)
Lemma astar_not_optimal :
  (fit_for_astar AStar.detour 3 0 /\ ~ AStar.path_cost_matches AStar.detour 3 0) /\
  (fit_for_astar AStar.apart 0 1 /\ ~ AStar.path_cost_matches AStar.apart 0 1) /\
  (fit_for_astar AStar.minus_one 0 (-1) /\
   ~ AStar.path_cost_matches AStar.minus_one 0 (-1)) /\
  (fit_for_astar twin 0 1 /\ ~ AStar.path_cost_matches twin 0 1) /\
  (fit_for_astar hexa 10 1 /\
   closed_graph hexa /\ (-1 ∉ getAllNodeIds hexa) /\
   AStarExact.lookup_least hexa /\
   consistent hexa (fun v => heuristic v 1) /\
   astar64 hexa 10 1 = Some hexa_path /\
   value_is (route_cost64 hexa hexa_path) (5122844576133941 # 562949953421312) /\
   value_is (entry64 hexa 10 1) (5122844576133940 # 562949953421312) /\
   (TwoOpt.total hexa hexa_path == 5122844576133941 # 562949953421312)%Q /\
   ~ (5122844576133941 # 562949953421312 == 5122844576133940 # 562949953421312)%Q).
Proof.
  split; [|split; [|split; [|split]]].
  - destruct AStar.detour_not_optimal as (H1 & _ & H2 & H3 & H4 & _ & _ & _ & H5).
    done.
  - split; [by apply fit_by_check; vm_compute|].
    apply (no_match _ _ _ [] 0%Q DBL_MAX); by vm_compute.
  - split; [by apply fit_by_check; vm_compute|].
    apply (no_match _ _ _ [] 0%Q 1%Q); by vm_compute.
  - split; [by apply fit_by_check; vm_compute|].
    apply (no_match _ _ _ [0; 1] 5%Q 1%Q); by vm_compute.
  - split; [by apply fit_by_check; vm_compute|].
    split; [by apply Dijkstra.closed_check_spec; vm_compute|].
    split; [by apply (bool_decide_unpack _); vm_compute|].
    split; [by apply AStarExact.lookup_least_check_spec; vm_compute|].
    split; [by apply AStar.consistent_check_spec; vm_compute|].
    split; [by vm_compute|]. split; [by vm_compute|]. split; [by vm_compute|].
    split; by vm_compute.
Qed.

End Rounding.
